(** * json-workbench: the batch transform engine, path addressing and the
      filter engine, embedded in Rocq.

    Sources embedded here:
    - [src/utils/objectPath.ts]         ([setAtPath], [getAtPath],
      [renameKeyAtPath], [removeAtPath], [addObjectEntryAtPath],
      [addArrayItemAtPath]);
    - the batch worker                  ([applyBatch] and its helpers
      [escapeStringValue], [unescapeStringValue], [smartParseValue],
      [isEAVObject], [flattenObject], [getValueByPath]);
    - [src/store/fileStore.ts]          ([checkRule],
      [recalculateFilteredData], [getFilteredData], [getOriginalIndex],
      [commitFilterToData], [setSearchQuery], [addFilterRule],
      [removeFilterRule], [removeFilterGroup], [clearAllFilters],
      [nestFields], [reorderKeys], [batchRenameField], [batchDeleteFields],
      [setIndex], [updateRecord], [replaceActiveFileData], [undo], [redo],
      [canUndo], [canRedo]);
    - [src/components/batch/BatchPanel.tsx] (the dispatch of the
      [nestFields] action) and the data insights panel ([getValue]).

    Modelling conventions.
    - A JavaScript value is a [Value]: [undefined], [null], booleans,
      numbers, strings, arrays and plain objects.  Numbers are kept abstract
      (class [JsNumber]): the program only converts, prints and compares
      them.
    - An object is the list of its own enumerable properties in enumeration
      order, with pairwise distinct keys.  [obj_has], [obj_read] and
      [obj_set] are the test [k in o], the read [o[k]] and the assignment
      [o[k] = v] on own properties; [obj_set] overwrites in place or
      appends.  They are the operations of the code on every plain key
      ([plainKey]).  They differ from them on the names of the members of
      [Object.prototype] ([inherited]), which [in] and a read find in every
      object and among which [__proto__] is an accessor, and on array
      indices ([integerLike]), which an object enumerates first.  A
      statement that depends on the difference excludes these keys in its
      hypotheses.  An object spread [{...o}] of such a list is the list.
    - The module [Proto] embeds [setAtPath] and [getAtPath] a second time,
      on values that carry their prototype, with the accessor [__proto__]
      and the place of integer-like keys, for the round trip of writing
      and reading a path.
    - An array is the list of its elements plus the named (non-index)
      properties an assignment such as [a[NaN] = x] creates.  A hole reads
      as [undefined] and is stored as [VUndef].
    - Strings are [string]s; whitespace and letter case are those of ASCII.
    - A JavaScript exception that the code does not catch is [None]:
      [String] and [Number] on an object or array that cannot be converted
      ([toStr], [toNumber]), and [JSON.stringify] in the filter where the
      codec gives no text.  *)

From Stdlib Require Import String Ascii List Bool Arith NArith ZArith Lia.
From Stdlib Require Import DecimalString Sorted.
Import ListNotations.
Local Open Scope list_scope.
Local Open Scope string_scope.

(* ================================================================== *)
(** * Strings *)
(* ================================================================== *)

Module Str.

Definition isWhiteSpace (c : ascii) : bool :=
  let n := nat_of_ascii c in
  ((9 <=? n)%nat && (n <=? 13)%nat) || (n =? 32)%nat.

Fixpoint trimStart (s : string) : string :=
  match s with
  | String c r => if isWhiteSpace c then trimStart r else s
  | EmptyString => EmptyString
  end.

Fixpoint trimEnd (s : string) : string :=
  match s with
  | String c r =>
      match trimEnd r with
      | EmptyString => if isWhiteSpace c then EmptyString else String c EmptyString
      | r' => String c r'
      end
  | EmptyString => EmptyString
  end.

(** [s.trim()] *)
Definition trim (s : string) : string := trimEnd (trimStart s).

Definition lowerChar (c : ascii) : ascii :=
  let n := nat_of_ascii c in
  if (65 <=? n)%nat && (n <=? 90)%nat then ascii_of_nat (n + 32) else c.

(** [s.toLowerCase()] *)
Fixpoint toLowerCase (s : string) : string :=
  match s with
  | String c r => String (lowerChar c) (toLowerCase r)
  | EmptyString => EmptyString
  end.

(** [s.startsWith(p)] *)
Definition startsWith (s p : string) : bool := String.prefix p s.

(** [s.includes(p)] *)
Fixpoint includes (s p : string) : bool :=
  String.prefix p s ||
  match s with
  | String _ r => includes r p
  | EmptyString => false
  end.

(** [s.slice(n)] for [0 <= n] *)
Fixpoint slice (s : string) (n : nat) : string :=
  match n, s with
  | S n', String _ r => slice r n'
  | _, _ => s
  end.

(** [s.endsWith(p)] *)
Definition endsWith (s p : string) : bool :=
  (String.length p <=? String.length s)%nat &&
  String.eqb (slice s (String.length s - String.length p)) p.

(** [s.replace(/c/g, rep)] for a one-character pattern [c] *)
Fixpoint replaceAll (c : ascii) (rep : string) (s : string) : string :=
  match s with
  | String d r =>
      if Ascii.eqb d c then rep ++ replaceAll c rep r
      else String d (replaceAll c rep r)
  | EmptyString => EmptyString
  end.

(** [s.split(c)]: the pieces between the occurrences of [c]. *)
Fixpoint split (c : ascii) (s : string) : list string :=
  match s with
  | String d r =>
      if Ascii.eqb d c then EmptyString :: split c r
      else match split c r with
           | p :: ps => String d p :: ps
           | [] => [String d EmptyString]
           end
  | EmptyString => [EmptyString]
  end.

(** truthiness of a string *)
Definition nonEmpty (s : string) : bool :=
  match s with EmptyString => false | _ => true end.

(** The decimal numeral of a natural number (an array index as a key). *)
Definition ofN (n : N) : string := NilEmpty.string_of_uint (N.to_uint n).

(** A key is an array index when it is the canonical numeral of an
    integer below [2^32 - 1]. *)
Definition parseIndex (s : string) : option N :=
  match NilEmpty.uint_of_string s with
  | Some u =>
      let i := N.of_uint u in
      if String.eqb (ofN i) s && (i <? 4294967295)%N then Some i else None
  | None => None
  end.

End Str.

(* ================================================================== *)
(** * Values *)
(* ================================================================== *)

(** What the program needs from JavaScript numbers. *)
Class JsNumber : Type := {
  num : Type;
  num_NaN : num;
  num_zero : num;
  num_one : num;
  (** [Number.isNaN(n)] *)
  num_isNaN : num -> bool;
  (** [Boolean(n)] *)
  num_truthy : num -> bool;
  (** [String(n)] *)
  num_toString : num -> string;
  (** [Number(s)] for a string [s] *)
  num_ofString : string -> num;
  (** the number of an array length or a depth counter *)
  num_ofN : N -> num;
  (** [a >= b] *)
  num_ge : num -> num -> bool;
  (** [JSON.parse(JSON.stringify(n))]: [None] when the result is [null] *)
  num_json : num -> option num
}.

Section Values.
Context `{JN : JsNumber}.

Unset Elimination Schemes.
Inductive Value : Type :=
| VUndef
| VNull
| VBool (b : bool)
| VNum (n : num)
| VStr (s : string)
| VArr (elems : list Value) (named : list (string * Value))
| VObj (props : list (string * Value)).
Set Elimination Schemes.

Definition Obj : Type := list (string * Value).

(** Induction on values, with the hypothesis for every element of an
    array and every property value of an array or object. *)
Definition Value_nested_ind (P : Value -> Prop)
    (fundef : P VUndef) (fnull : P VNull)
    (fbool : forall b, P (VBool b)) (fnum : forall n, P (VNum n))
    (fstr : forall s, P (VStr s))
    (farr : forall elems named,
        Forall P elems -> Forall (fun kv => P (snd kv)) named ->
        P (VArr elems named))
    (fobj : forall props, Forall (fun kv => P (snd kv)) props -> P (VObj props))
    : forall v, P v :=
  fix go (v : Value) : P v :=
    match v with
    | VUndef => fundef
    | VNull => fnull
    | VBool b => fbool b
    | VNum n => fnum n
    | VStr s => fstr s
    | VArr elems named =>
        farr elems named
          ((fix goList (l : list Value) : Forall P l :=
              match l with
              | [] => Forall_nil P
              | x :: r => Forall_cons x (go x) (goList r)
              end) elems)
          ((fix goProps (l : list (string * Value))
              : Forall (fun kv => P (snd kv)) l :=
              match l with
              | [] => Forall_nil _
              | kv :: r => Forall_cons kv (go (snd kv)) (goProps r)
              end) named)
    | VObj props =>
        fobj props
          ((fix goProps (l : list (string * Value))
              : Forall (fun kv => P (snd kv)) l :=
              match l with
              | [] => Forall_nil _
              | kv :: r => Forall_cons kv (go (snd kv)) (goProps r)
              end) props)
    end.

(** ** Own properties *)

Fixpoint obj_get (o : Obj) (k : string) : option Value :=
  match o with
  | (k', v) :: r => if String.eqb k' k then Some v else obj_get r k
  | [] => None
  end.

(** [k in o], for a key of the object's own or a name that no object
    inherits ([inherited], below) *)
Definition obj_has (o : Obj) (k : string) : bool :=
  match obj_get o k with Some _ => true | None => false end.

(** [o[k]], for the same keys *)
Definition obj_read (o : Obj) (k : string) : Value :=
  match obj_get o k with Some v => v | None => VUndef end.

(** [o[k] = v]: an own key keeps its place and a new key goes to the end,
    which is where the code has it unless the key is an array index
    ([integerLike], below), and is stored unless it is [__proto__]. *)
Fixpoint obj_set (o : Obj) (k : string) (v : Value) : Obj :=
  match o with
  | (k', v') :: r =>
      if String.eqb k' k then (k', v) :: r else (k', v') :: obj_set r k v
  | [] => [(k, v)]
  end.

(** [delete o[k]] *)
Fixpoint obj_del (o : Obj) (k : string) : Obj :=
  match o with
  | (k', v') :: r =>
      if String.eqb k' k then obj_del r k else (k', v') :: obj_del r k
  | [] => []
  end.

(** ** The keys on which an object is more than its own properties *)

(** The names that every object inherits from [Object.prototype]
    (ECMAScript 2023 with Annex B).  For such a name [k] the code's
    [k in o] holds and [o[k]] is a built-in function (the prototype itself
    for [__proto__]) also when [o] has no key [k] of its own, where
    [obj_has] says no and [obj_read] gives [undefined]; and the assignment
    [o["__proto__"] = v] on an object without that key of its own goes to
    the inherited setter and creates no property, where [obj_set] adds
    one. *)
Definition objectPrototypeNames : list string :=
  ["constructor"; "__defineGetter__"; "__defineSetter__"; "hasOwnProperty";
   "__lookupGetter__"; "__lookupSetter__"; "isPrototypeOf";
   "propertyIsEnumerable"; "toString"; "valueOf"; "__proto__";
   "toLocaleString"].

Definition inherited (k : string) : bool :=
  existsb (String.eqb k) objectPrototypeNames.

(** The keys that are array indices.  An object enumerates them first, in
    ascending order, wherever the assignment that created them came; a new
    key that [obj_set] appends at the end is at its place in the code only
    when it is not such a key. *)
Definition integerLike (k : string) : bool :=
  match Str.parseIndex k with Some _ => true | None => false end.

(** The keys on which [obj_has], [obj_read] and [obj_set] are the code's
    [in], read and assignment for every object. *)
Definition plainKey (k : string) : bool :=
  negb (inherited k) && negb (integerLike k).

(** Whether a record is a mapping with the key [k] of its own. *)
Definition ownsKey (record : Value) (k : string) : bool :=
  match record with
  | VObj props => obj_has props k
  | _ => false
  end.

(** [Object.assign(o, src)] *)
Definition obj_assign (o src : Obj) : Obj :=
  fold_left (fun acc kv => obj_set acc (fst kv) (snd kv)) src o.

(** The loop [for (const [key, val] of Object.entries(o)) result[key] = f(val)]. *)
Definition setEach (f : Value -> Value) (props result : Obj) : Obj :=
  fold_left (fun result kv => obj_set result (fst kv) (f (snd kv))) props result.

(** ** Array elements *)

(** [a[i]] for an index [i] *)
Definition arr_read (elems : list Value) (i : N) : Value :=
  nth (N.to_nat i) elems VUndef.

(** [a[i] = v] for an index [i]: writing past the end leaves holes. *)
Fixpoint list_write (l : list Value) (i : nat) (v : Value) : list Value :=
  match i, l with
  | O, [] => [v]
  | O, _ :: r => v :: r
  | S i', [] => VUndef :: list_write [] i' v
  | S i', x :: r => x :: list_write r i' v
  end.

Definition arr_write (elems : list Value) (i : N) (v : Value) : list Value :=
  list_write elems (N.to_nat i) v.

(** ** Classification *)

(** [typeof v === "object" && v !== null] *)
Definition isObjectLike (v : Value) : bool :=
  match v with VArr _ _ | VObj _ => true | _ => false end.

(** [v && typeof v === "object" && !Array.isArray(v)] *)
Definition isMapping (v : Value) : bool :=
  match v with VObj _ => true | _ => false end.

(** [Boolean(v)] *)
Definition truthy (v : Value) : bool :=
  match v with
  | VUndef | VNull => false
  | VBool b => b
  | VNum n => num_truthy n
  | VStr s => Str.nonEmpty s
  | VArr _ _ | VObj _ => true
  end.

(** [v[k]] on a container: elements, [length] and named properties for an
    array, own properties for an object. *)
Definition prop_read (v : Value) (k : string) : Value :=
  match v with
  | VArr elems named =>
      match Str.parseIndex k with
      | Some i => arr_read elems i
      | None =>
          if String.eqb k "length" then VNum (num_ofN (N.of_nat (length elems)))
          else obj_read named k
      end
  | VObj props => obj_read props k
  | _ => VUndef
  end.

(** [String(v)]; [None] when it throws a [TypeError].  An object is
    converted by its [toString] and, failing that, its [valueOf]: a key
    [toString] of its own holds a value that is not callable (no value of
    the model is), and [valueOf], its own or the inherited one, gives no
    primitive either.  An array without such a key is joined by
    [Array.prototype.join], unless a key [join] of its own hides that
    method. *)
Fixpoint toStr (v : Value) : option string :=
  match v with
  | VUndef => Some "undefined"
  | VNull => Some "null"
  | VBool true => Some "true"
  | VBool false => Some "false"
  | VNum n => Some (num_toString n)
  | VStr s => Some s
  | VArr elems named =>
      if obj_has named "toString" then None
      else if obj_has named "join" then Some "[object Array]"
      else
        (fix join (l : list Value) : option string :=
           match l with
           | [] => Some ""
           | x :: r =>
               let others := join r in
               match match x with VUndef | VNull => Some "" | _ => toStr x end with
               | Some first =>
                   match r with
                   | [] => Some first
                   | _ :: _ =>
                       match others with
                       | Some text => Some (first ++ "," ++ text)
                       | None => None
                       end
                   end
               | None => None
               end
           end) elems
  | VObj props =>
      if obj_has props "toString" then None else Some "[object Object]"
  end.

(** [Number(v)]; [None] when it throws a [TypeError]: on an array or
    object, when [valueOf] has given no primitive, the conversion goes
    through [toString] as [String(v)] does. *)
Definition toNumber (v : Value) : option num :=
  match v with
  | VUndef => Some num_NaN
  | VNull => Some num_zero
  | VBool true => Some num_one
  | VBool false => Some num_zero
  | VNum n => Some n
  | VStr s => Some (num_ofString s)
  | VArr _ _ | VObj _ => option_map num_ofString (toStr v)
  end.

(** [JSON.parse(JSON.stringify(v))] for [v] inside an array: [undefined]
    and the numbers without a JSON form become [null], an object loses the
    properties whose value is [undefined], an array its named
    properties. *)
Fixpoint jsonClone (v : Value) : Value :=
  match v with
  | VUndef => VNull
  | VNull => VNull
  | VBool b => VBool b
  | VNum n => match num_json n with Some n' => VNum n' | None => VNull end
  | VStr s => VStr s
  | VArr elems _ => VArr (map jsonClone elems) []
  | VObj props =>
      VObj ((fix cloneProps (l : Obj) : Obj :=
               match l with
               | [] => []
               | (k, VUndef) :: r => cloneProps r
               | (k, x) :: r => (k, jsonClone x) :: cloneProps r
               end) props)
  end.

End Values.

(** What the program needs from its JSON codecs. *)
Class JsonCodec `{JN : JsNumber} : Type := {
  (** [jsonParser.parse(text)] of json-bigint; [None] when it throws *)
  jsonParser_parse : string -> option Value;
  (** [JSON.stringify(v)]; [None] when it throws *)
  JSON_stringify : Value -> option string
}.

(* ================================================================== *)
(** * Path addressing: [src/utils/objectPath.ts] *)
(* ================================================================== *)

Section ObjectPath.
Context `{JN : JsNumber}.

(** [type PathPart = string | number] *)
Inductive PathPart : Type :=
| PStr (s : string)
| PNum (n : num).

(** The property [next[index]] addresses on an array, where
    [index = typeof head === "number" ? head : Number(head)]. *)
Definition arrayKey (part : PathPart) : string :=
  num_toString (match part with PNum n => n | PStr s => num_ofString s end).

(** [String(head)] *)
Definition objectKey (part : PathPart) : string :=
  match part with PNum n => num_toString n | PStr s => s end.

(** The two container branches of [setAtPath]; [child] is the recursive
    call on the rest of the path.  The copy [[...target]] keeps the
    elements of an array and none of its named properties. *)
Definition setInContainer (target : Value) (head : PathPart)
    (child : Value -> Value) : Value :=
  match target with
  | VArr elems _ =>
      let key := arrayKey head in
      match Str.parseIndex key with
      | Some index => VArr (arr_write elems index (child (arr_read elems index))) []
      | None => VArr elems [(key, child VUndef)]
      end
  | VObj props =>
      let key := objectKey head in
      VObj (obj_set props key (child (obj_read props key)))
  | _ => target
  end.

Fixpoint setAtPath (target : Value) (path : list PathPart) (value : Value)
    {struct path} : Value :=
  match path with
  | [] => value
  | head :: rest =>
      let child := fun t => setAtPath t rest value in
      match target with
      | VArr _ _ | VObj _ => setInContainer target head child
      | _ =>
          (* [setAtPath(container, path, value)] on the fresh container *)
          let container :=
            match head with PNum _ => VArr [] [] | PStr _ => VObj [] end in
          setInContainer container head child
      end
  end.

(** The reducer of [getAtPath]. *)
Definition getStep (acc : Value) (part : PathPart) : Value :=
  match acc with
  | VUndef | VNull => VUndef
  | VArr elems named =>
      let key := arrayKey part in
      match Str.parseIndex key with
      | Some index => arr_read elems index
      | None => obj_read named key
      end
  | VObj props => obj_read props (objectKey part)
  | _ => VUndef
  end.

Definition getAtPath (target : Value) (path : list PathPart) : Value :=
  fold_left getStep path target.

End ObjectPath.

(** Strict equality of numbers, which [removeAtPath] uses to find the
    element to drop. *)
Class JsNumberEq `{JN : JsNumber} : Type := {
  (** [a === b] *)
  num_strictEq : num -> num -> bool
}.

Section ObjectPathEdits.
Context `{JE : JsNumberEq}.

(** [path[path.length - 1]] of a path that is not empty *)
Definition lastPart (path : list PathPart) : PathPart := last path (PStr "").

(** The loop that rebuilds a mapping with [oldKey] renamed to [newKey]:
    [entries.forEach(([key, value]) => key === oldKey ? next[newKey] = value
    : next[key] = value)]. *)
Definition renameEntries (oldKey newKey : string) (record : Obj) : Obj :=
  fold_left
    (fun next kv =>
       if String.eqb (fst kv) oldKey then obj_set next newKey (snd kv)
       else obj_set next (fst kv) (snd kv))
    record [].

Definition renameKeyAtPath (target : Value) (path : list PathPart) (newKey : string)
    : Value :=
  match path with
  | [] => target
  | _ :: _ =>
      if negb (Str.nonEmpty newKey) then target
      else
        let parentPath := removelast path in
        let oldKey := lastPart path in
        match getAtPath target parentPath with
        | VObj parentRecord =>
            if negb (obj_has parentRecord (objectKey oldKey)) then target
            else
              setAtPath target parentPath
                (VObj (renameEntries (objectKey oldKey) newKey parentRecord))
        | _ => target
        end
  end.

(** [parent.filter((_, idx) => idx !== index)], from position [idx] on.
    [filter] skips the holes of an array; an element stored as [VUndef] is
    kept here, as an element that is [undefined] is. *)
Fixpoint dropIndex (elems : list Value) (idx : N) (index : num) : list Value :=
  match elems with
  | [] => []
  | x :: r =>
      if num_strictEq (num_ofN idx) index then dropIndex r (N.succ idx) index
      else x :: dropIndex r (N.succ idx) index
  end.

(** The number that addresses an element of an array:
    [typeof key === "number" ? key : Number(key)]. *)
Definition indexNumber (key : PathPart) : num :=
  match key with PNum n => n | PStr s => num_ofString s end.

Definition removeAtPath (target : Value) (path : list PathPart) : Value :=
  match path with
  | [] => target
  | _ :: _ =>
      let parentPath := removelast path in
      let key := lastPart path in
      match getAtPath target parentPath with
      | VArr parent _ =>
          let index := indexNumber key in
          if num_isNaN index then target
          else setAtPath target parentPath (VArr (dropIndex parent 0%N index) [])
      | VObj parent =>
          setAtPath target parentPath (VObj (obj_del parent (objectKey key)))
      | _ => target
      end
  end.

Definition addObjectEntryAtPath (target : Value) (path : list PathPart)
    (key : string) (value : Value) : Value :=
  match getAtPath target path with
  | VObj node => setAtPath target path (VObj (obj_set node key value))
  | _ => target
  end.

Definition addArrayItemAtPath (target : Value) (path : list PathPart)
    (value : Value) : Value :=
  match getAtPath target path with
  | VArr node _ => setAtPath target path (VArr (node ++ [value])%list [])
  | _ => target
  end.

(** The paths that lead through existing keys and elements only, and
    through arrays without named properties. *)
Fixpoint pathPresent (v : Value) (path : list PathPart) : bool :=
  match path with
  | [] => true
  | head :: rest =>
      match v with
      | VArr elems [] =>
          match Str.parseIndex (arrayKey head) with
          | Some index =>
              (N.to_nat index <? length elems)%nat &&
              pathPresent (arr_read elems index) rest
          | None => false
          end
      | VObj props =>
          obj_has props (objectKey head) &&
          pathPresent (obj_read props (objectKey head)) rest
      | _ => false
      end
  end.

End ObjectPathEdits.

(* ================================================================== *)
(** * [src/utils/objectPath.ts] with the prototype chain *)
(* ================================================================== *)

(** [setAtPath] and [getAtPath] once more, on values that keep what the
    own-property reading above leaves out: the prototype of an object, the
    members of [Object.prototype] that every object inherits, the accessor
    [__proto__] and the place of integer-like keys.  A JSON value is the
    [JObj] and [JArr] tree whose objects have the prototype
    [JObjectPrototype]. *)
Module Proto.
Section WithPrototype.
Context `{JN : JsNumber}.

Unset Elimination Schemes.
Inductive JsValue : Type :=
| JUndef
| JNull
| JBool (b : bool)
| JNum (n : num)
| JStr (s : string)
(** an array: its elements and its named (non-index) properties *)
| JArr (elems : list JsValue) (named : list (string * JsValue))
(** an ordinary object: its prototype ([JObjectPrototype], [JNull], or the
    object that an assignment to [__proto__] installed) and its own
    properties in enumeration order *)
| JObj (proto : JsValue) (props : list (string * JsValue))
(** [Object.prototype] *)
| JObjectPrototype
(** the function that is the member [name] of [Object.prototype] *)
| JBuiltin (name : string).
Set Elimination Schemes.

Definition Props : Type := list (string * JsValue).

(** The own property [k] of an object. *)
Fixpoint own (o : Props) (k : string) : option JsValue :=
  match o with
  | (k', v) :: r => if String.eqb k' k then Some v else own r k
  | [] => None
  end.

(** [o[k] = v] on an own property [k]: the value changes, the place does
    not. *)
Fixpoint replaceOwn (o : Props) (k : string) (v : JsValue) : Props :=
  match o with
  | (k', v') :: r =>
      if String.eqb k' k then (k', v) :: r else (k', v') :: replaceOwn r k v
  | [] => []
  end.

(** A new integer-like key [k], the numeral of [i], goes among the
    integer-like keys, which come first in ascending order. *)
Fixpoint insertIndex (i : N) (k : string) (v : JsValue) (o : Props) : Props :=
  match o with
  | (k', v') :: r =>
      match Str.parseIndex k' with
      | Some j => if (j <? i)%N then (k', v') :: insertIndex i k v r else (k, v) :: o
      | None => (k, v) :: o
      end
  | [] => [(k, v)]
  end.

(** A new own property: an integer-like key at its numeric place, any
    other key at the end. *)
Definition addOwn (o : Props) (k : string) (v : JsValue) : Props :=
  match Str.parseIndex k with
  | Some i => insertIndex i k v o
  | None => (o ++ [(k, v)])%list
  end.

(** The values that are objects for the language: what the setter of
    [__proto__] accepts as a prototype, besides [null]. *)
Definition isObject (v : JsValue) : bool :=
  match v with
  | JArr _ _ | JObj _ _ | JObjectPrototype | JBuiltin _ => true
  | _ => false
  end.

(** [next[k]] on [next = { ...target }], an object with the own properties
    [props] and the prototype [Object.prototype]: an own property, else
    the inherited member. *)
Definition readFresh (props : Props) (k : string) : JsValue :=
  match own props k with
  | Some v => v
  | None =>
      if String.eqb k "__proto__" then JObjectPrototype
      else if inherited k then JBuiltin k
      else JUndef
  end.

(** [next[k] = w] on the same [next], and [next] afterwards.  An own
    property is overwritten.  Otherwise [__proto__] is the inherited
    accessor: its setter makes an object or [null] the prototype of [next]
    and ignores any other value.  Any other key becomes a new own property
    (the inherited members are writable data properties). *)
Definition assignFresh (props : Props) (k : string) (w : JsValue) : JsValue :=
  match own props k with
  | Some _ => JObj JObjectPrototype (replaceOwn props k w)
  | None =>
      if String.eqb k "__proto__" then
        if isObject w then JObj w props
        else match w with
             | JNull => JObj JNull props
             | _ => JObj JObjectPrototype props
             end
      else JObj JObjectPrototype (addOwn props k w)
  end.

(** [a[i]] and [a[i] = v] on the elements of an array. *)
Definition elemRead (elems : list JsValue) (i : N) : JsValue :=
  nth (N.to_nat i) elems JUndef.

Fixpoint elemWrite (l : list JsValue) (i : nat) (v : JsValue) : list JsValue :=
  match i, l with
  | O, [] => [v]
  | O, _ :: r => v :: r
  | S i', [] => JUndef :: elemWrite [] i' v
  | S i', x :: r => x :: elemWrite r i' v
  end.

(** The array branch of [setAtPath] on [next = [...target]]. *)
Definition setInArray (elems : list JsValue) (head : PathPart)
    (child : JsValue -> JsValue) : JsValue :=
  let key := arrayKey head in
  match Str.parseIndex key with
  | Some index =>
      JArr (elemWrite elems (N.to_nat index) (child (elemRead elems index))) []
  | None => JArr elems [(key, child JUndef)]
  end.

(** The object branch of [setAtPath] on [next = { ...target }]. *)
Definition setInObject (props : Props) (head : PathPart)
    (child : JsValue -> JsValue) : JsValue :=
  let key := objectKey head in
  assignFresh props key (child (readFresh props key)).

Fixpoint setAtPath (target : JsValue) (path : list PathPart) (value : JsValue)
    {struct path} : JsValue :=
  match path with
  | [] => value
  | head :: rest =>
      let child := fun t => setAtPath t rest value in
      match target with
      | JArr elems _ => setInArray elems head child
      | JObj _ props => setInObject props head child
      (* [{ ...Object.prototype }] has no property *)
      | JObjectPrototype => setInObject [] head child
      | _ =>
          match head with
          | PNum _ => setInArray [] head child
          | PStr _ => setInObject [] head child
          end
      end
  end.

(** The property [k] found on [holder] or further up its prototype chain,
    for a receiver whose prototype is [receiverProto] (what the getter of
    [__proto__] returns).  [None]: the search reaches the members of
    [Array.prototype] or of a function, which this development does not
    list. *)
Fixpoint lookup (holder : JsValue) (k : string) (receiverProto : JsValue)
    {struct holder} : option JsValue :=
  match holder with
  | JObjectPrototype =>
      Some (if String.eqb k "__proto__" then receiverProto
            else if inherited k then JBuiltin k
            else JUndef)
  | JNull => Some JUndef
  | JObj proto props =>
      match own props k with
      | Some v => Some v
      | None => lookup proto k receiverProto
      end
  | JArr elems named =>
      match Str.parseIndex k with
      | Some i => Some (elemRead elems i)
      | None =>
          if String.eqb k "length" then Some (JNum (num_ofN (N.of_nat (length elems))))
          else
            match own named k with
            | Some v => Some v
            | None => if String.eqb k "__proto__" then Some receiverProto else None
            end
      end
  | JBuiltin _ => if String.eqb k "__proto__" then Some receiverProto else None
  | _ => None
  end.

(** The reducer of [getAtPath]. *)
Definition getStep (acc : JsValue) (part : PathPart) : option JsValue :=
  match acc with
  | JUndef | JNull => Some JUndef
  | JArr elems named =>
      let key := arrayKey part in
      match Str.parseIndex key with
      | Some index => Some (elemRead elems index)
      | None => Some (match own named key with Some v => v | None => JUndef end)
      end
  | JObj proto props =>
      let key := objectKey part in
      match own props key with
      | Some v => Some v
      | None => lookup proto key proto
      end
  | JObjectPrototype =>
      let key := objectKey part in
      Some (if String.eqb key "__proto__" then JNull
            else if inherited key then JBuiltin key
            else JUndef)
  | _ => Some JUndef
  end.

(** [getAtPath]; [None] as in [lookup]. *)
Definition getAtPath (target : JsValue) (path : list PathPart) : option JsValue :=
  fold_left
    (fun acc part =>
       match acc with
       | Some a => getStep a part
       | None => None
       end)
    path (Some target).

(** The JSON value [v] among these values. *)
Fixpoint ofValue (v : Value) : JsValue :=
  match v with
  | VUndef => JUndef
  | VNull => JNull
  | VBool b => JBool b
  | VNum n => JNum n
  | VStr s => JStr s
  | VArr elems named =>
      JArr (map ofValue elems)
        ((fix each (l : Obj) : Props :=
            match l with
            | [] => []
            | (k, x) :: r => (k, ofValue x) :: each r
            end) named)
  | VObj props =>
      JObj JObjectPrototype
        ((fix each (l : Obj) : Props :=
            match l with
            | [] => []
            | (k, x) :: r => (k, ofValue x) :: each r
            end) props)
  end.

(** What [setAtPath] reads under the head segment of its path, on the copy
    of the target or on the fresh container, before it writes there. *)
Definition readHead (target : JsValue) (head : PathPart) : JsValue :=
  match target with
  | JArr elems _ =>
      match Str.parseIndex (arrayKey head) with
      | Some index => elemRead elems index
      | None => JUndef
      end
  | JObj _ props => readFresh props (objectKey head)
  | JObjectPrototype => readFresh [] (objectKey head)
  | _ =>
      match head with
      | PNum _ => JUndef
      | PStr key => readFresh [] key
      end
  end.

(** Whether the assignment under the head segment goes to the setter of
    [__proto__]: the key is [__proto__] and what is written to is a mapping
    without this key of its own. *)
Definition headIsSetter (target : JsValue) (head : PathPart) : bool :=
  match target with
  | JArr _ _ => false
  | JObj _ props =>
      String.eqb (objectKey head) "__proto__" &&
      match own props (objectKey head) with Some _ => false | None => true end
  | JObjectPrototype => String.eqb (objectKey head) "__proto__"
  | _ =>
      match head with
      | PNum _ => false
      | PStr key => String.eqb key "__proto__"
      end
  end.

(** Whether the write at the last segment of the path goes to that
    setter. *)
Fixpoint endsInSetter (target : JsValue) (path : list PathPart) : bool :=
  match path with
  | [] => false
  | head :: rest =>
      match rest with
      | [] => headIsSetter target head
      | _ :: _ => endsInSetter (readHead target head) rest
      end
  end.

(** Whether the last segment of a path names [__proto__]. *)
Fixpoint endsWithProto (path : list PathPart) : bool :=
  match path with
  | [] => false
  | part :: rest =>
      match rest with
      | [] => String.eqb (objectKey part) "__proto__"
      | _ :: _ => endsWithProto rest
      end
  end.

End WithPrototype.
End Proto.

(* ================================================================== *)
(** * The batch worker *)
(* ================================================================== *)

Module Chars.
Definition backslash : ascii := "\"%char.
Definition quote : ascii := "034"%char.
Definition apostrophe : ascii := "'"%char.
Definition newline : ascii := "010"%char.
Definition carriageReturn : ascii := "013"%char.
Definition tab : ascii := "009"%char.
Definition dot : ascii := "."%char.
End Chars.

(** [escapeStringValue]: five global replacements in sequence, the
    backslash first. *)
Definition escapeStringValue (str : string) : string :=
  Str.replaceAll Chars.tab "\t"
    (Str.replaceAll Chars.carriageReturn "\r"
       (Str.replaceAll Chars.newline "\n"
          (Str.replaceAll Chars.quote (String Chars.backslash (String Chars.quote ""))
             (Str.replaceAll Chars.backslash "\\" str)))).

(** What the five passes make of one character: they do not interfere,
    since no pass produces or consumes a character another pass looks for
    (lemma [escapeStringValue_cons]). *)
Definition escapeChar (c : ascii) : string :=
  if Ascii.eqb c Chars.backslash then "\\"
  else if Ascii.eqb c Chars.quote then String Chars.backslash (String Chars.quote "")
  else if Ascii.eqb c Chars.newline then "\n"
  else if Ascii.eqb c Chars.carriageReturn then "\r"
  else if Ascii.eqb c Chars.tab then "\t"
  else String c "".

(** [unescapeStringValue]: the loop over the index [i], read on the suffix
    [str.slice(i)]; the value is what the loop appends to [result] from
    there on. *)
Fixpoint unescapeStringValue (str : string) : string :=
  match str with
  | EmptyString => EmptyString
  | String c rest =>
      match rest with
      | String nextChar after =>
          if Ascii.eqb c Chars.backslash then
            if Ascii.eqb nextChar "n" then String Chars.newline (unescapeStringValue after)
            else if Ascii.eqb nextChar "t" then String Chars.tab (unescapeStringValue after)
            else if Ascii.eqb nextChar "r" then String Chars.carriageReturn (unescapeStringValue after)
            else if Ascii.eqb nextChar Chars.quote then String Chars.quote (unescapeStringValue after)
            else if Ascii.eqb nextChar Chars.apostrophe then String Chars.apostrophe (unescapeStringValue after)
            else if Ascii.eqb nextChar Chars.backslash then String Chars.backslash (unescapeStringValue after)
            else String c (unescapeStringValue rest)
          else String c (unescapeStringValue rest)
      | EmptyString => String c EmptyString
      end
  end.

(** Does the character occur in the string? *)
Fixpoint occurs (c : ascii) (s : string) : bool :=
  match s with
  | String d r => Ascii.eqb d c || occurs c r
  | EmptyString => false
  end.

Inductive AddMode : Type := ModeStatic | ModeCopy.
Inductive UpdateMode : Type := ModeSet | ModePrefixSuffix.
Inductive ConvertTarget : Type := TargetString | TargetNumber | TargetBoolean.

Section Worker.
Context `{JC : JsonCodec}.

(** [type BatchAction] *)
Inductive BatchAction : Type :=
| AddField (key : string) (mode : AddMode) (value fromKey : option string)
| DeleteField (keys : list string)
| RenameField (from to : string)
| UpdateValue (key : string) (mode : UpdateMode) (value prefix suffix : option string)
| TypeConvert (key : string) (target : ConvertTarget)
| ExtractByCondition (sourceField matchKey matchValue extractKey targetField : string)
| NestFields (sourceFields : list string) (targetField : string)
| FlattenStrip (stripPrefix : option string) (depth : option num)
    (targetKey : option string) (targetKeys : option (list string))
    (keepPrefix useSmartEAV : option bool)
| KeyReorder (order : list string)
| EscapeString (key : option string) (targetKeys : option (list string))
| UnescapeString (key : option string) (targetKeys : option (list string))
| ParseJSON (key : option string) (targetKeys : option (list string)).

(** ** [smartParseValue] *)

(** The quick check on the trimmed text. *)
Definition looksLikeJSON (trimmed : string) : bool :=
  (Str.startsWith trimmed "{" && Str.endsWith trimmed "}") ||
  (Str.startsWith trimmed "[" && Str.endsWith trimmed "]").

(** The longest string stored in a value: a bound on how often a parsed
    text can contain a text to parse again. *)
Fixpoint strRank (v : Value) : nat :=
  match v with
  | VStr s => String.length s
  | VArr elems _ => fold_right (fun x m => Nat.max (strRank x) m) 0%nat elems
  | VObj props => fold_right (fun kv m => Nat.max (strRank (snd kv)) m) 0%nat props
  | _ => 0%nat
  end.

(** [smartParseValue] with a bound [fuel] on the nesting of stringified
    JSON inside parsed JSON; structural in the value otherwise. *)
Fixpoint smartParseFuel (fuel : nat) (value : Value) {struct fuel} : Value :=
  (fix walk (value : Value) : Value :=
     match value with
     | VStr s =>
         let trimmed := Str.trim s in
         if looksLikeJSON trimmed then
           match jsonParser_parse trimmed with
           | Some parsed =>
               if isObjectLike parsed then
                 match fuel with
                 | S fuel' => smartParseFuel fuel' parsed
                 | O => value
                 end
               else value
           | None => value
           end
         else value
     | VArr elems _ => VArr (map walk elems) []
     | VObj props => VObj (setEach walk props [])
     | _ => value
     end) value.

Definition smartParseValue (value : Value) : Value :=
  smartParseFuel (strRank value) value.

(** The parser returns containers whose strings are shorter than the
    text: every string of the result is spelled out inside the text, next
    to the brackets of the container. *)
Definition ParserShrinks : Prop :=
  forall text parsed,
    jsonParser_parse text = Some parsed ->
    isObjectLike parsed = true ->
    (strRank parsed < String.length text)%nat.

(** The strings [smartParseValue] replaces by what they spell. *)
Definition textUnwraps (s : string) : bool :=
  looksLikeJSON (Str.trim s) &&
  match jsonParser_parse (Str.trim s) with
  | Some parsed => isObjectLike parsed
  | None => false
  end.

(** The values [smartParseValue] has nothing left to do on. *)
Fixpoint settled (v : Value) : Prop :=
  match v with
  | VStr s => textUnwraps s = false
  | VArr elems named =>
      named = [] /\
      (fix all (l : list Value) : Prop :=
         match l with
         | [] => True
         | x :: r => settled x /\ all r
         end) elems
  | VObj props =>
      NoDup (map fst props) /\
      (fix all (l : Obj) : Prop :=
         match l with
         | [] => True
         | kv :: r => settled (snd kv) /\ all r
         end) props
  | _ => True
  end.

(** ** [isEAVObject] and [flattenObject] *)

Definition isEAVObject (obj : Value) : bool :=
  match obj with
  | VObj record =>
      obj_has record "label" && obj_has record "value" &&
      match obj_read record "label" with
      | VStr label => (0 <? String.length label)%nat
      | _ => false
      end
  | _ => false
  end.

(** [currentDepth >= maxDepth]; no depth stands for [Infinity]. *)
Definition depthReached (currentDepth : N) (maxDepth : option num) : bool :=
  match maxDepth with
  | Some d => num_ge (num_ofN currentDepth) d
  | None => false
  end.

(** [prefix ? `${prefix}.${key}` : key] *)
Definition joinKey (prefix key : string) : string :=
  if Str.nonEmpty prefix then prefix ++ "." ++ key else key.

Fixpoint flattenObject (obj : Value) (prefix : string) (result : Obj)
    (maxDepth : option num) (currentDepth : N) (useSmartEAV : bool)
    {struct obj} : Obj :=
  match obj with
  | VArr elems named =>
      if depthReached currentDepth maxDepth then obj_set result prefix obj
      else
        match elems, named with
        | [], [] => if Str.nonEmpty prefix then obj_set result prefix obj else result
        | _, _ =>
            let afterElems :=
              (fix eachElem (l : list Value) (i : N) (res : Obj) {struct l} : Obj :=
                 match l with
                 | [] => res
                 | value :: r =>
                     let nextKey := joinKey prefix (Str.ofN i) in
                     eachElem r (N.succ i)
                       (if isObjectLike value
                        then flattenObject value nextKey res maxDepth
                               (N.succ currentDepth) useSmartEAV
                        else obj_set res nextKey value)
                 end) elems 0%N result in
            (fix eachProp (l : Obj) (res : Obj) {struct l} : Obj :=
               match l with
               | [] => res
               | (key, value) :: r =>
                   let nextKey := joinKey prefix key in
                   eachProp r
                     (if isObjectLike value
                      then flattenObject value nextKey res maxDepth
                             (N.succ currentDepth) useSmartEAV
                      else obj_set res nextKey value)
               end) named afterElems
        end
  | VObj props =>
      if depthReached currentDepth maxDepth then obj_set result prefix obj
      else if useSmartEAV && isEAVObject obj then
        let cleanLabel :=
          match obj_read props "label" with
          | VStr eavLabel => Str.replaceAll Chars.dot "_" (Str.trim eavLabel)
          | _ => ""
          end in
        let eavKey := joinKey prefix cleanLabel in
        (fix withValue (l : Obj) {struct l} : Obj :=
           match l with
           | [] => result
           | (key, eavValue) :: r =>
               if String.eqb key "value" then
                 if isObjectLike eavValue
                 then flattenObject eavValue eavKey result maxDepth
                        (N.succ currentDepth) useSmartEAV
                 else obj_set result eavKey eavValue
               else withValue r
           end) props
      else
        match props with
        | [] => if Str.nonEmpty prefix then obj_set result prefix obj else result
        | _ =>
            (fix eachProp (l : Obj) (res : Obj) {struct l} : Obj :=
               match l with
               | [] => res
               | (key, value) :: r =>
                   let nextKey := joinKey prefix key in
                   eachProp r
                     (if isObjectLike value
                      then flattenObject value nextKey res maxDepth
                             (N.succ currentDepth) useSmartEAV
                      else obj_set res nextKey value)
               end) props result
        end
  | _ => if Str.nonEmpty prefix then obj_set result prefix obj else result
  end.

(** ** [getValueByPath] *)

Definition getValueByPath (target : Value) (path : string) : Value :=
  if negb (Str.nonEmpty path) then VUndef
  else
    match target with
    | VUndef | VNull => VUndef
    | _ =>
        let segments := filter Str.nonEmpty (Str.split Chars.dot path) in
        (* [None]: the loop has returned [undefined] *)
        match
          fold_left
            (fun current segment =>
               match current with
               | Some c => if isObjectLike c then Some (prop_read c segment) else None
               | None => None
               end)
            segments (Some target)
        with
        | Some current => current
        | None => VUndef
        end
    end.

(** ** [applyBatch] *)

(** [action.targetKeys ?? (action.key ? [action.key] : [])] *)
Definition targetKeysOf (targetKeys : option (list string)) (key : option string)
    : list string :=
  match targetKeys with
  | Some ks => ks
  | None =>
      match key with
      | Some k => if Str.nonEmpty k then [k] else []
      | None => []
      end
  end.

(** [x ?? ""] *)
Definition orEmpty (x : option string) : string :=
  match x with Some s => s | None => "" end.

Definition warnNotANumber (shown : string) : string := "无法转换为数字: " ++ shown.
Definition warnEscapeFailed (key : string) : string := "转义失败: " ++ key.

(** The loop of the [nestFields] case over the source fields; the state is
    the pair of [targetObject] and [next]. *)
Definition nestLoop (fields : list string) (targetObject next : Obj) : Obj * Obj :=
  fold_left
    (fun st field =>
       let '(targetObject, next) := st in
       (obj_set targetObject field (obj_read next field), obj_del next field))
    fields (targetObject, next).

Definition nestRecord (fields : list string) (targetField : string) (record : Obj)
    : Obj :=
  let next := record in
  let targetObject :=
    match obj_read next targetField with
    | VObj existing => existing
    | _ => []
    end in
  let '(targetObject, next) := nestLoop fields targetObject next in
  obj_set next targetField (VObj targetObject).


(** The body of the [flattenStrip] case. *)
Definition flattenStripRecord (stripPrefix : option string) (depth : option num)
    (targetKey : option string) (targetKeys : option (list string))
    (keepPrefix useSmartEAV : option bool) (record : Obj) : Obj :=
  let keepPrefix := match keepPrefix with Some b => b | None => true end in
  let useSmartEAV := match useSmartEAV with Some b => b | None => false end in
  let targetKeys := targetKeysOf targetKeys targetKey in
  let result :=
    match targetKeys with
    | _ :: _ =>
        fold_left
          (fun result targetKey =>
             if obj_has result targetKey then
               let targetValue := obj_read result targetKey in
               if isObjectLike targetValue then
                 let prefix := if keepPrefix then targetKey else "" in
                 let flattened :=
                   flattenObject targetValue prefix [] depth 0%N useSmartEAV in
                 obj_assign (obj_del result targetKey) flattened
               else result
             else result)
          targetKeys record
    | [] => flattenObject (VObj record) "" [] depth 0%N useSmartEAV
    end in
  match stripPrefix with
  | Some sp =>
      if Str.nonEmpty sp then
        fold_left
          (fun stripped kv =>
             let '(key, value) := kv in
             let nextKey :=
               if Str.startsWith key sp then Str.slice key (String.length sp)
               else key in
             obj_set stripped nextKey value)
          result []
      else result
  | None => result
  end.

(** The [escapeString] case, body of the loop over the target keys; the
    state is the pair of [next] and [warnings]. *)
Definition escapeTarget (st : Obj * list string) (key : string)
    : Obj * list string :=
  let '(next, warnings) := st in
  if obj_has next key then
    match obj_read next key with
    | VStr current => (obj_set next key (VStr (escapeStringValue current)), warnings)
    | (VArr _ _ | VObj _) as current =>
        match JSON_stringify current with
        | Some text => (obj_set next key (VStr text), warnings)
        | None => (next, (warnings ++ [warnEscapeFailed key])%list)
        end
    | _ => (next, warnings)
    end
  else (next, warnings).

(** The [escapeString] case without target keys, body of the loop over
    [Object.keys(next)]. *)
Definition escapeField (next : Obj) (key : string) : Obj :=
  match obj_read next key with
  | VStr current => obj_set next key (VStr (escapeStringValue current))
  | (VArr _ _ | VObj _) as current =>
      match JSON_stringify current with
      | Some text => obj_set next key (VStr text)
      | None => next
      end
  | _ => next
  end.

(** The body of the callback of [data.map] for a mapping [record]: the
    value returned and [warnings] after the call, or [None] when the call
    throws ([String] or [Number] in the [typeConvert] case). *)
Definition applyRecord (action : BatchAction) (record : Obj) (warnings : list string)
    : option (Value * list string) :=
  match action with
  | AddField key mode value fromKey =>
      let v :=
        match mode, fromKey with
        | ModeCopy, Some fk =>
            if Str.nonEmpty fk then obj_read record fk else VStr (orEmpty value)
        | _, _ => VStr (orEmpty value)
        end in
      Some (VObj (obj_set record key v), warnings)
  | DeleteField keys =>
      Some (VObj (fold_left obj_del keys record), warnings)
  | RenameField from to =>
      if negb (obj_has record from) then Some (VObj record, warnings)
      else
        let next := obj_set record to (obj_read record from) in
        Some (VObj (obj_del next from), warnings)
  | UpdateValue key mode value prefix suffix =>
      if negb (obj_has record key) then Some (VObj record, warnings)
      else
        match mode, obj_read record key with
        | ModeSet, _ => Some (VObj (obj_set record key (VStr (orEmpty value))), warnings)
        | ModePrefixSuffix, VStr current =>
            Some (VObj (obj_set record key
                          (VStr (orEmpty prefix ++ current ++ orEmpty suffix))),
                  warnings)
        | ModePrefixSuffix, _ => Some (VObj record, warnings)
        end
  | ExtractByCondition sourceField matchKey matchValue extractKey targetField =>
      match getValueByPath (VObj record) sourceField with
      | VArr source _ =>
          match
            find (fun item =>
                    truthy item && isObjectLike item &&
                    match getValueByPath item matchKey with
                    | VStr s => String.eqb s matchValue
                    | _ => false
                    end) source
          with
          | Some matched =>
              match getValueByPath matched extractKey with
              | VUndef => Some (VObj record, warnings)
              | extracted => Some (VObj (obj_set record targetField extracted), warnings)
              end
          | None => Some (VObj record, warnings)
          end
      | _ => Some (VObj record, warnings)
      end
  | NestFields sourceFields targetField =>
      if negb (Str.nonEmpty targetField) || (length sourceFields =? 0)%nat
      then Some (VObj record, warnings)
      else Some (VObj (nestRecord sourceFields targetField record), warnings)
  | TypeConvert key target =>
      if negb (obj_has record key) then Some (VObj record, warnings)
      else
        let current := obj_read record key in
        match target with
        | TargetString =>
            match toStr current with
            | Some text => Some (VObj (obj_set record key (VStr text)), warnings)
            | None => None
            end
        | TargetNumber =>
            match toNumber current with
            | Some n =>
                if num_isNaN n then
                  match toStr current with
                  | Some shown =>
                      Some (VObj record, (warnings ++ [warnNotANumber shown])%list)
                  | None => None
                  end
                else Some (VObj (obj_set record key (VNum n)), warnings)
            | None => None
            end
        | TargetBoolean =>
            Some (VObj (obj_set record key (VBool (truthy current))), warnings)
        end
  | FlattenStrip stripPrefix depth targetKey targetKeys keepPrefix useSmartEAV =>
      Some (VObj (flattenStripRecord stripPrefix depth targetKey targetKeys
                    keepPrefix useSmartEAV record), warnings)
  | KeyReorder order =>
      let next :=
        fold_left
          (fun next key =>
             if obj_has record key then obj_set next key (obj_read record key) else next)
          order [] in
      let next :=
        fold_left
          (fun next key =>
             if negb (obj_has next key) then obj_set next key (obj_read record key)
             else next)
          (map fst record) next in
      Some (VObj next, warnings)
  | EscapeString key targetKeys =>
      match targetKeysOf targetKeys key with
      | (_ :: _) as targetKeys =>
          let '(next, warnings) :=
            fold_left escapeTarget targetKeys (record, warnings) in
          Some (VObj next, warnings)
      | [] => Some (VObj (fold_left escapeField (map fst record) record), warnings)
      end
  | UnescapeString key targetKeys =>
      let keys :=
        match targetKeysOf targetKeys key with
        | (_ :: _) as targetKeys => targetKeys
        | [] => map fst record
        end in
      let next :=
        fold_left
          (fun next key =>
             match obj_get next key with
             | Some (VStr current) => obj_set next key (VStr (unescapeStringValue current))
             | _ => next
             end)
          keys record in
      Some (VObj next, warnings)
  | ParseJSON key targetKeys =>
      match targetKeysOf targetKeys key with
      | (_ :: _) as targetKeys =>
          let next :=
            fold_left
              (fun next key =>
                 if obj_has next key
                 then obj_set next key (smartParseValue (obj_read next key))
                 else next)
              targetKeys record in
          Some (VObj next, warnings)
      | [] => Some (smartParseValue (VObj record), warnings)
      end
  end.

(** The callback of [data.map]. *)
Definition applyItem (action : BatchAction) (item : Value) (warnings : list string)
    : option (Value * list string) :=
  match item with
  | VObj record => applyRecord action record warnings
  | _ => Some (item, warnings)
  end.

(** The record that [applyBatch] puts in the place of [item] (lemma
    [applyBatch_data]); [None] when the callback throws on [item]. *)
Definition transformItem (action : BatchAction) (item : Value) : option Value :=
  option_map fst (applyItem action item []).

(** [applyBatch]: the pair of [data] and [warnings] of the result; [None]
    when the callback throws on a record, which ends the call: the worker
    then posts an error message and no dataset. *)
Definition applyBatch (data : list Value) (action : BatchAction)
    : option (list Value * list string) :=
  fold_left
    (fun st item =>
       match st with
       | Some (nextData, warnings) =>
           match applyItem action item warnings with
           | Some (out, warnings) => Some ((nextData ++ [out])%list, warnings)
           | None => None
           end
       | None => None
       end)
    data (Some ([], [])).

(** The values on which [String] and [Number] return. *)
Definition convertible (v : Value) : bool :=
  match toStr v with Some _ => true | None => false end.

(** The records on which the callback of [applyBatch] throws: the
    mappings that hold, under the key of a [typeConvert] to string or
    number, a value that cannot be converted. *)
Definition throwsOn (action : BatchAction) (item : Value) : bool :=
  match action, item with
  | TypeConvert key (TargetString | TargetNumber), VObj record =>
      obj_has record key && negb (convertible (obj_read record key))
  | _, _ => false
  end.

(** The loops of [flattenObject] on their own, with the recursive call as
    the parameter [flat] (lemmas [flattenObject_array] and
    [flattenObject_object]). *)
Fixpoint flattenElems (flat : Value -> string -> Obj -> Obj) (prefix : string)
    (l : list Value) (i : N) (res : Obj) : Obj :=
  match l with
  | [] => res
  | value :: r =>
      let nextKey := joinKey prefix (Str.ofN i) in
      flattenElems flat prefix r (N.succ i)
        (if isObjectLike value then flat value nextKey res
         else obj_set res nextKey value)
  end.

Fixpoint flattenProps (flat : Value -> string -> Obj -> Obj) (prefix : string)
    (l : Obj) (res : Obj) : Obj :=
  match l with
  | [] => res
  | (key, value) :: r =>
      let nextKey := joinKey prefix key in
      flattenProps flat prefix r
        (if isObjectLike value then flat value nextKey res
         else obj_set res nextKey value)
  end.

Fixpoint flattenEavValue (flat : Value -> string -> Obj -> Obj) (eavKey : string)
    (result : Obj) (l : Obj) : Obj :=
  match l with
  | [] => result
  | (key, eavValue) :: r =>
      if String.eqb key "value" then
        if isObjectLike eavValue then flat eavValue eavKey result
        else obj_set result eavKey eavValue
      else flattenEavValue flat eavKey result r
  end.

(** [eavLabel.trim().replace(/\./g, "_")] for the label of [props] *)
Definition cleanLabelOf (props : Obj) : string :=
  match obj_read props "label" with
  | VStr eavLabel => Str.replaceAll Chars.dot "_" (Str.trim eavLabel)
  | _ => ""
  end.

(** The values a flattening without depth limit ends on: primitives and
    empty containers. *)
Definition isLeaf (v : Value) : bool :=
  match v with
  | VArr [] [] | VObj [] => true
  | VArr _ _ | VObj _ => false
  | _ => true
  end.

(** A flat record: distinct keys, every value a leaf, and the empty
    containers under keys that are not empty. *)
Definition flatRecord (o : Obj) : Prop :=
  NoDup (map fst o) /\
  Forall (fun kv => isLeaf (snd kv) = true /\
                    (isObjectLike (snd kv) = true -> fst kv <> "")) o.

(** ** What the operations make of one value *)

(** What [escapeString] makes of one value. *)
Definition escapedValue (v : Value) : Value :=
  match v with
  | VStr current => VStr (escapeStringValue current)
  | VArr _ _ | VObj _ =>
      match JSON_stringify v with
      | Some text => VStr text
      | None => v
      end
  | _ => v
  end.

(** What [unescapeString] makes of one value. *)
Definition unescapedValue (v : Value) : Value :=
  match v with
  | VStr current => VStr (unescapeStringValue current)
  | _ => v
  end.

(** The loop of [parseJSON] over the target keys. *)
Definition parseTargets (keys : list string) (record : Obj) : Obj :=
  fold_left
    (fun next key =>
       if obj_has next key then obj_set next key (smartParseValue (obj_read next key))
       else next)
    keys record.

End Worker.

(* ================================================================== *)
(** * The store: [src/store/fileStore.ts] *)
(* ================================================================== *)

Inductive FileType : Type := TypeJson | TypeJsonl | TypeXlsx.

Inductive Operator : Type :=
| OpContains | OpEquals | OpStartsWith | OpEndsWith
| OpNotContains | OpIsEmpty | OpIsNotEmpty.

Record FilterRule : Type := {
  rule_id : string;
  field : string;
  operator : Operator;
  value : string
}.

Record FilterGroup : Type := {
  group_id : string;
  rules : list FilterRule
}.

Record ErrorRow : Type := {
  line : N;
  raw : string;
  message : string
}.

Definition MAX_HISTORY : nat := 50.

Section Store.
Context `{JC : JsonCodec}.

Record FileSource : Type := {
  id : string;
  name : string;
  size : N;
  type : FileType;
  data : list Value;
  errorRows : option (list ErrorRow);
  keyOrder : option (list string);
  sourceFileIds : option (list string)
}.

Record HistoryEntry : Type := {
  entry_data : list Value;
  entry_keyOrder : option (list string)
}.

Record FileHistory : Type := {
  past : list HistoryEntry;
  future : list HistoryEntry
}.

(** The fields of [FileState] the filter and nesting actions touch. *)
Record FileState : Type := {
  files : list FileSource;
  activeFileId : option string;
  currentIndex : Z;
  history : list (string * FileHistory);
  searchQuery : string;
  filterGroups : list FilterGroup;
  filteredIndices : list N
}.

(** [files.find((f) => f.id === activeFileId)] *)
Definition findActive (fs : list FileSource) (active : option string)
    : option FileSource :=
  match active with
  | Some fid => find (fun f => String.eqb (id f) fid) fs
  | None => None
  end.

(** A write through the draft of the active file: the first file with the
    active id is replaced. *)
Fixpoint updateActive (fs : list FileSource) (fid : string)
    (upd : FileSource -> FileSource) : list FileSource :=
  match fs with
  | f :: r => if String.eqb (id f) fid then upd f :: r else f :: updateActive r fid upd
  | [] => []
  end.

Definition withData (f : FileSource) (d : list Value) : FileSource :=
  {| id := id f; name := name f; size := size f; type := type f; data := d;
     errorRows := errorRows f; keyOrder := keyOrder f;
     sourceFileIds := sourceFileIds f |}.

Definition withKeyOrder (f : FileSource) (o : option (list string)) : FileSource :=
  {| id := id f; name := name f; size := size f; type := type f; data := data f;
     errorRows := errorRows f; keyOrder := o;
     sourceFileIds := sourceFileIds f |}.

Fixpoint history_get (h : list (string * FileHistory)) (fid : string)
    : option FileHistory :=
  match h with
  | (k, x) :: r => if String.eqb k fid then Some x else history_get r fid
  | [] => None
  end.

Fixpoint history_set (h : list (string * FileHistory)) (fid : string)
    (x : FileHistory) : list (string * FileHistory) :=
  match h with
  | (k, y) :: r =>
      if String.eqb k fid then (k, x) :: r else (k, y) :: history_set r fid x
  | [] => [(fid, x)]
  end.

(** The block that records the current data of [file] in the undo
    history (shared by [nestFields] and [commitFilterToData]). *)
Definition saveHistory (h : list (string * FileHistory)) (active : option string)
    (file : FileSource) : list (string * FileHistory) :=
  match active with
  | Some fid =>
      if Str.nonEmpty fid then
        let current :=
          match history_get h fid with
          | Some x => x
          | None => {| past := []; future := [] |}
          end in
        let currentEntry :=
          {| entry_data := map jsonClone (data file);
             entry_keyOrder := keyOrder file |} in
        let pushed := (past current ++ [currentEntry])%list in
        let bounded :=
          if (MAX_HISTORY <? length pushed)%nat then tl pushed else pushed in
        history_set h fid {| past := bounded; future := [] |}
      else h
  | None => h
  end.

(** ** Filtering *)

(** [filterGroups.flatMap((g) => g.rules)] *)
Definition allRulesOf (groups : list FilterGroup) : list FilterRule :=
  flat_map rules groups.

(** [searchQuery.trim() !== "" || allRules.length > 0] *)
Definition hasFilters (query : string) (groups : list FilterGroup) : bool :=
  Str.nonEmpty (Str.trim query) || (0 <? length (allRulesOf groups))%nat.

(** [String(rec[rule.field] ?? "")]; [None] when [String] throws. *)
Definition fieldValueOf (rec : Value) (fieldName : string) : option string :=
  match prop_read rec fieldName with
  | VUndef | VNull => Some ""
  | v => toStr v
  end.

(** The operator switch of [checkRule] on the string [fieldValue]. *)
Definition evalOperator (op : Operator) (fieldValue ruleValue : string) : bool :=
  match op with
  | OpContains =>
      Str.includes (Str.toLowerCase fieldValue) (Str.toLowerCase ruleValue)
  | OpEquals => String.eqb fieldValue ruleValue
  | OpStartsWith =>
      Str.startsWith (Str.toLowerCase fieldValue) (Str.toLowerCase ruleValue)
  | OpEndsWith =>
      Str.endsWith (Str.toLowerCase fieldValue) (Str.toLowerCase ruleValue)
  | OpNotContains =>
      negb (Str.includes (Str.toLowerCase fieldValue) (Str.toLowerCase ruleValue))
  | OpIsEmpty =>
      negb (Str.nonEmpty fieldValue) || negb (Str.nonEmpty (Str.trim fieldValue))
  | OpIsNotEmpty =>
      Str.nonEmpty fieldValue && Str.nonEmpty (Str.trim fieldValue)
  end.

(** [checkRule]; [None] when the conversion of the field throws. *)
Definition checkRule (rec : Value) (rule : FilterRule) : option bool :=
  match fieldValueOf rec (field rule) with
  | Some fieldValue => Some (evalOperator (operator rule) fieldValue (value rule))
  | None => None
  end.

(** [group.rules.some((rule) => checkRule(rec, rule))]: the rules are tried
    in order up to the first that matches. *)
Fixpoint someRule (rec : Value) (rs : list FilterRule) : option bool :=
  match rs with
  | [] => Some false
  | rule :: r =>
      match checkRule rec rule with
      | Some true => Some true
      | Some false => someRule rec r
      | None => None
      end
  end.

(** [filterGroups.every((group) => { if (group.rules.length === 0) return
    true; return group.rules.some((rule) => checkRule(rec, rule)); })]: the
    groups are tried in order up to the first that fails. *)
Fixpoint everyGroup (rec : Value) (groups : list FilterGroup) : option bool :=
  match groups with
  | [] => Some true
  | group :: r =>
      match
        match rules group with
        | [] => Some true
        | rs => someRule rec rs
        end
      with
      | Some true => everyGroup rec r
      | Some false => Some false
      | None => None
      end
  end.

(** The body of [data.forEach] in [recalculateFilteredData]: does the
    record at this position enter [matchedIndices]?  [None] when
    [JSON.stringify] or a [checkRule] that is reached throws. *)
Definition recordMatches (query : string) (groups : list FilterGroup)
    (record : Value) : option bool :=
  if negb (truthy record && isObjectLike record) then Some false
  else
    let matchesSearch :=
      if Str.nonEmpty (Str.trim query) then
        match JSON_stringify record with
        | Some text =>
            Some (Str.includes (Str.toLowerCase text) (Str.toLowerCase query))
        | None => None
        end
      else Some true in
    match matchesSearch with
    | None => None
    | Some false => Some false
    | Some true =>
        match groups with
        | [] => Some true
        | _ => everyGroup record groups
        end
    end.

(** The loop that fills [matchedIndices], from position [index] on. *)
Fixpoint collectMatches (query : string) (groups : list FilterGroup)
    (records : list Value) (index : N) (matchedIndices : list N)
    : option (list N) :=
  match records with
  | [] => Some matchedIndices
  | record :: r =>
      match recordMatches query groups record with
      | Some true =>
          collectMatches query groups r (N.succ index)
            (matchedIndices ++ [index])%list
      | Some false => collectMatches query groups r (N.succ index) matchedIndices
      | None => None
      end
  end.

Definition withFilterResult (st : FileState) (indices : list N) (current : Z)
    : FileState :=
  {| files := files st; activeFileId := activeFileId st; currentIndex := current;
     history := history st; searchQuery := searchQuery st;
     filterGroups := filterGroups st; filteredIndices := indices |}.

(** [recalculateFilteredData]; [None] when it throws. *)
Definition recalculateFilteredData (st : FileState) : option FileState :=
  match findActive (files st) (activeFileId st) with
  | None => Some (withFilterResult st [] 0%Z)
  | Some activeFile =>
      if negb (hasFilters (searchQuery st) (filterGroups st)) then
        Some (withFilterResult st []
                (Z.min (currentIndex st) (Z.of_nat (length (data activeFile)) - 1)))
      else
        match collectMatches (searchQuery st) (filterGroups st) (data activeFile) 0%N [] with
        | Some matchedIndices => Some (withFilterResult st matchedIndices 0%Z)
        | None => None
        end
  end.

(** [getFilteredData] *)
Definition getFilteredData (st : FileState) : list Value :=
  match findActive (files st) (activeFileId st) with
  | None => []
  | Some activeFile =>
      if negb (hasFilters (searchQuery st) (filterGroups st)) then data activeFile
      else map (fun idx => arr_read (data activeFile) idx) (filteredIndices st)
  end.

(** [commitFilterToData]: the state afterwards and the returned boolean. *)
Definition commitFilterToData (st : FileState) : FileState * bool :=
  match findActive (files st) (activeFileId st), activeFileId st with
  | Some activeFile, Some fid =>
      if negb (hasFilters (searchQuery st) (filterGroups st)) then (st, false)
      else
        let filteredData :=
          match filteredIndices st with
          | _ :: _ => map (fun i => arr_read (data activeFile) i) (filteredIndices st)
          | [] => data activeFile
          end in
        ({| files :=
              updateActive (files st) fid
                (fun file => withData file (map jsonClone filteredData));
            activeFileId := activeFileId st;
            currentIndex := 0%Z;
            history := saveHistory (history st) (activeFileId st) activeFile;
            searchQuery := "";
            filterGroups := [];
            filteredIndices := [] |}, true)
  | _, _ => (st, false)
  end.

(** ** [nestFields] *)

(** [Array.from(new Set(l))]: first occurrences, in order. *)
Fixpoint dedupe (l : list string) (seen : list string) : list string :=
  match l with
  | x :: r =>
      if existsb (String.eqb x) seen then dedupe r seen
      else x :: dedupe r (x :: seen)
  | [] => []
  end.

Definition cleanSourceFields (sourceFields : list string) (trimmedTarget : string)
    : list string :=
  filter (fun f => negb (String.eqb f trimmedTarget))
    (dedupe (filter Str.nonEmpty (map Str.trim sourceFields)) []).

Definition nestItem (fields : list string) (target : string) (record : Value)
    : Value :=
  match record with
  | VObj props => VObj (nestRecord fields target props)
  | _ => record
  end.

Definition nestKeyOrder (fields : list string) (target : string)
    (order : option (list string)) : option (list string) :=
  match order with
  | Some ((_ :: _) as ks) =>
      let nextOrder := filter (fun key => negb (existsb (String.eqb key) fields)) ks in
      if existsb (String.eqb target) nextOrder then Some nextOrder
      else Some (nextOrder ++ [target])%list
  | other => other
  end.

Definition nestFields (sourceFields : list string) (targetField : string)
    (st : FileState) : FileState :=
  let trimmedTarget := Str.trim targetField in
  let cleanedSource := cleanSourceFields sourceFields trimmedTarget in
  match findActive (files st) (activeFileId st), activeFileId st with
  | Some activeFile, Some fid =>
      if negb (Str.nonEmpty trimmedTarget) || (length cleanedSource =? 0)%nat then st
      else
        {| files :=
             updateActive (files st) fid
               (fun file =>
                  withKeyOrder
                    (withData file (map (nestItem cleanedSource trimmedTarget) (data file)))
                    (nestKeyOrder cleanedSource trimmedTarget (keyOrder file)));
           activeFileId := activeFileId st;
           currentIndex := currentIndex st;
           history := saveHistory (history st) (activeFileId st) activeFile;
           searchQuery := searchQuery st;
           filterGroups := filterGroups st;
           filteredIndices := filteredIndices st |}
  | _, _ => st
  end.

(** ** The cursor, single records and whole-file replacement *)

(** [Math.max(0, Math.min(index, length - 1))] *)
Definition clampIndex (index : Z) (len : nat) : Z :=
  Z.max 0 (Z.min index (Z.of_nat len - 1)).

Definition withFiles (st : FileState) (fs : list FileSource) (current : Z)
    (h : list (string * FileHistory)) : FileState :=
  {| files := fs; activeFileId := activeFileId st; currentIndex := current;
     history := h; searchQuery := searchQuery st;
     filterGroups := filterGroups st; filteredIndices := filteredIndices st |}.

(** [setIndex] *)
Definition setIndex (index : Z) (st : FileState) : FileState :=
  match findActive (files st) (activeFileId st) with
  | Some activeFile =>
      withFiles st (files st) (clampIndex index (length (data activeFile)))
        (history st)
  | None => st
  end.

(** [updateRecord], for an integer [index] *)
Definition updateRecord (index : Z) (value : Value) (st : FileState) : FileState :=
  match findActive (files st) (activeFileId st), activeFileId st with
  | Some activeFile, Some fid =>
      if (index <? 0)%Z || (Z.of_nat (length (data activeFile)) <=? index)%Z then st
      else
        withFiles st
          (updateActive (files st) fid
             (fun file => withData file (list_write (data file) (Z.to_nat index) value)))
          (currentIndex st) (history st)
  | _, _ => st
  end.

(** [replaceActiveFileData] *)
Definition replaceActiveFileData (newData : list Value) (saveHistoryFlag : bool)
    (st : FileState) : FileState :=
  match findActive (files st) (activeFileId st), activeFileId st with
  | Some activeFile, Some fid =>
      withFiles st
        (updateActive (files st) fid (fun file => withData file newData))
        (clampIndex (currentIndex st) (length newData))
        (if saveHistoryFlag then saveHistory (history st) (activeFileId st) activeFile
         else history st)
  | _, _ => st
  end.

(** ** Undo and redo *)

(** [{ data: JSON.parse(JSON.stringify(file.data)), keyOrder: file.keyOrder ?
    [...file.keyOrder] : undefined }] *)
Definition snapshot (file : FileSource) : HistoryEntry :=
  {| entry_data := map jsonClone (data file); entry_keyOrder := keyOrder file |}.

(** [l.pop()]: the list without its last entry, and that entry. *)
Definition popEntry (l : list HistoryEntry)
    : option (list HistoryEntry * HistoryEntry) :=
  match rev l with
  | [] => None
  | x :: r => Some (rev r, x)
  end.

(** [file.data = entry.data; if (entry.keyOrder) file.keyOrder =
    entry.keyOrder] *)
Definition restoreEntry (entry : HistoryEntry) (file : FileSource) : FileSource :=
  withKeyOrder (withData file (entry_data entry))
    (match entry_keyOrder entry with
     | Some order => Some order
     | None => keyOrder file
     end).

(** [undo]: the state afterwards and the returned boolean. *)
Definition undo (st : FileState) : FileState * bool :=
  match activeFileId st with
  | Some fid =>
      if Str.nonEmpty fid then
        match history_get (history st) fid, findActive (files st) (activeFileId st) with
        | Some fileHistory, Some file =>
            match popEntry (past fileHistory) with
            | Some (rest, previousEntry) =>
                (withFiles st
                   (updateActive (files st) fid (restoreEntry previousEntry))
                   (clampIndex (currentIndex st) (length (entry_data previousEntry)))
                   (history_set (history st) fid
                      {| past := rest;
                         future := (future fileHistory ++ [snapshot file])%list |}),
                 true)
            | None => (st, false)
            end
        | _, _ => (st, false)
        end
      else (st, false)
  | None => (st, false)
  end.

(** [redo]: the state afterwards and the returned boolean. *)
Definition redo (st : FileState) : FileState * bool :=
  match activeFileId st with
  | Some fid =>
      if Str.nonEmpty fid then
        match history_get (history st) fid, findActive (files st) (activeFileId st) with
        | Some fileHistory, Some file =>
            match popEntry (future fileHistory) with
            | Some (rest, nextEntry) =>
                (withFiles st
                   (updateActive (files st) fid (restoreEntry nextEntry))
                   (clampIndex (currentIndex st) (length (entry_data nextEntry)))
                   (history_set (history st) fid
                      {| past := (past fileHistory ++ [snapshot file])%list;
                         future := rest |}),
                 true)
            | None => (st, false)
            end
        | _, _ => (st, false)
        end
      else (st, false)
  | None => (st, false)
  end.

(** [canUndo] and [canRedo] *)
Definition canUndo (st : FileState) : bool :=
  match activeFileId st with
  | Some fid =>
      if Str.nonEmpty fid then
        match history_get (history st) fid with
        | Some fileHistory => (0 <? length (past fileHistory))%nat
        | None => false
        end
      else false
  | None => false
  end.

Definition canRedo (st : FileState) : bool :=
  match activeFileId st with
  | Some fid =>
      if Str.nonEmpty fid then
        match history_get (history st) fid with
        | Some fileHistory => (0 <? length (future fileHistory))%nat
        | None => false
        end
      else false
  | None => false
  end.

(** ** The field operations of the store *)

(** The callback of [data.map] in [reorderKeys]. *)
Definition reorderItem (newOrder : list string) (record : Value) : Value :=
  match record with
  | VObj oldRecord =>
      let ordered :=
        fold_left
          (fun newRecord key =>
             if obj_has oldRecord key then obj_set newRecord key (obj_read oldRecord key)
             else newRecord)
          newOrder [] in
      VObj (fold_left
              (fun newRecord key =>
                 if negb (obj_has newRecord key)
                 then obj_set newRecord key (obj_read oldRecord key)
                 else newRecord)
              (map fst oldRecord) ordered)
  | _ => record
  end.

(** [reorderKeys] *)
Definition reorderKeys (newOrder : list string) (st : FileState) : FileState :=
  match findActive (files st) (activeFileId st), activeFileId st with
  | Some activeFile, Some fid =>
      withFiles st
        (updateActive (files st) fid
           (fun file =>
              withKeyOrder (withData file (map (reorderItem newOrder) (data file)))
                (Some newOrder)))
        (currentIndex st)
        (saveHistory (history st) (activeFileId st) activeFile)
  | _, _ => st
  end.

(** The loop of [batchRenameField] over [Object.keys(oldRecord)]. *)
Definition renameKeys (oldKey newKey : string) (oldRecord : Obj) : Obj :=
  fold_left
    (fun newRecord key =>
       if String.eqb key oldKey then obj_set newRecord newKey (obj_read oldRecord key)
       else obj_set newRecord key (obj_read oldRecord key))
    (map fst oldRecord) [].

(** The callback of [data.map] in [batchRenameField]. *)
Definition renameItem (oldKey newKey : string) (record : Value) : Value :=
  match record with
  | VObj oldRecord =>
      if negb (obj_has oldRecord oldKey) then record
      else VObj (renameKeys oldKey newKey oldRecord)
  | _ => record
  end.

(** [idx = order.indexOf(oldKey); if (idx !== -1) order[idx] = newKey] *)
Fixpoint replaceFirst (oldKey newKey : string) (order : list string) : list string :=
  match order with
  | k :: r =>
      if String.eqb k oldKey then newKey :: r else k :: replaceFirst oldKey newKey r
  | [] => []
  end.

(** [batchRenameField] *)
Definition batchRenameField (oldKey newKey : string) (st : FileState) : FileState :=
  match findActive (files st) (activeFileId st), activeFileId st with
  | Some activeFile, Some fid =>
      if negb (Str.nonEmpty oldKey) || negb (Str.nonEmpty newKey)
         || String.eqb oldKey newKey then st
      else
        withFiles st
          (updateActive (files st) fid
             (fun file =>
                withKeyOrder (withData file (map (renameItem oldKey newKey) (data file)))
                  (option_map (replaceFirst oldKey newKey) (keyOrder file))))
          (currentIndex st)
          (saveHistory (history st) (activeFileId st) activeFile)
  | _, _ => st
  end.

(** The callback of [data.map] in [batchDeleteFields]; [keysSet.has(k)] is
    membership in [keys]. *)
Definition deleteKeysItem (keys : list string) (record : Value) : Value :=
  match record with
  | VObj oldRecord =>
      VObj (fold_left
              (fun newRecord k =>
                 if negb (existsb (String.eqb k) keys)
                 then obj_set newRecord k (obj_read oldRecord k)
                 else newRecord)
              (map fst oldRecord) [])
  | _ => record
  end.

(** [batchDeleteFields] *)
Definition batchDeleteFields (keys : list string) (st : FileState) : FileState :=
  match findActive (files st) (activeFileId st), activeFileId st with
  | Some activeFile, Some fid =>
      match keys with
      | [] => st
      | _ =>
          withFiles st
            (updateActive (files st) fid
               (fun file =>
                  withKeyOrder (withData file (map (deleteKeysItem keys) (data file)))
                    (option_map
                       (filter (fun k => negb (existsb (String.eqb k) keys)))
                       (keyOrder file))))
            (currentIndex st)
            (saveHistory (history st) (activeFileId st) activeFile)
      end
  | _, _ => st
  end.

(** ** The filter rules *)

Definition withFilters (st : FileState) (query : string)
    (groups : list FilterGroup) : FileState :=
  {| files := files st; activeFileId := activeFileId st;
     currentIndex := currentIndex st; history := history st;
     searchQuery := query; filterGroups := groups;
     filteredIndices := filteredIndices st |}.

(** [setSearchQuery]; [None] when the recalculation throws. *)
Definition setSearchQuery (query : string) (st : FileState) : option FileState :=
  recalculateFilteredData (withFilters st query (filterGroups st)).

(** [groups.find(p)] followed by [group.rules.push(rule)] on the group
    found; [None] when no group satisfies [p]. *)
Fixpoint pushToFirst (p : FilterGroup -> bool) (rule : FilterRule)
    (groups : list FilterGroup) : option (list FilterGroup) :=
  match groups with
  | g :: r =>
      if p g then
        Some ({| group_id := group_id g; rules := (rules g ++ [rule])%list |} :: r)
      else option_map (cons g) (pushToFirst p rule r)
  | [] => None
  end.

(** The update of [state.filterGroups] in [addFilterRule]; [newId] is the
    result of [crypto.randomUUID()]. *)
Definition addRuleToGroups (rule : FilterRule) (groupId : option string)
    (forceNewGroup : bool) (newId : string) (groups : list FilterGroup)
    : list FilterGroup :=
  let newGroup := {| group_id := newId; rules := [rule] |} in
  let unaddressed :=
    if forceNewGroup then (groups ++ [newGroup])%list
    else
      match
        pushToFirst
          (fun g => existsb (fun r => String.eqb (field r) (field rule)) (rules g))
          rule groups
      with
      | Some next => next
      | None => (groups ++ [newGroup])%list
      end in
  match groupId with
  | Some gid =>
      if Str.nonEmpty gid then
        match pushToFirst (fun g => String.eqb (group_id g) gid) rule groups with
        | Some next => next
        | None => groups
        end
      else unaddressed
  | None => unaddressed
  end.

(** [addFilterRule]; [None] when the recalculation throws. *)
Definition addFilterRule (rule : FilterRule) (groupId : option string)
    (forceNewGroup : bool) (newId : string) (st : FileState) : option FileState :=
  recalculateFilteredData
    (withFilters st (searchQuery st)
       (addRuleToGroups rule groupId forceNewGroup newId (filterGroups st))).

(** The update of [state.filterGroups] in [removeFilterRule]. *)
Definition removeRuleFromGroups (ruleId : string) (groups : list FilterGroup)
    : list FilterGroup :=
  filter (fun g => (0 <? length (rules g))%nat)
    (map
       (fun group =>
          {| group_id := group_id group;
             rules := filter (fun r => negb (String.eqb (rule_id r) ruleId))
                        (rules group) |})
       groups).

(** [removeFilterRule] *)
Definition removeFilterRule (ruleId : string) (st : FileState) : option FileState :=
  recalculateFilteredData
    (withFilters st (searchQuery st) (removeRuleFromGroups ruleId (filterGroups st))).

(** [removeFilterGroup] *)
Definition removeFilterGroup (groupId : string) (st : FileState) : option FileState :=
  recalculateFilteredData
    (withFilters st (searchQuery st)
       (filter (fun g => negb (String.eqb (group_id g) groupId)) (filterGroups st))).

(** [clearAllFilters] *)
Definition clearAllFilters (st : FileState) : FileState :=
  {| files := files st; activeFileId := activeFileId st; currentIndex := 0%Z;
     history := history st; searchQuery := ""; filterGroups := [];
     filteredIndices := [] |}.

(** [getOriginalIndex], for a position [filteredIndex] *)
Definition getOriginalIndex (filteredIndex : N) (st : FileState) : N :=
  if negb (hasFilters (searchQuery st) (filterGroups st)) then filteredIndex
  else
    match nth_error (filteredIndices st) (N.to_nat filteredIndex) with
    | Some idx => idx
    | None => filteredIndex
    end.

(** ** What the history and the filter groups are expected to satisfy *)

(** Every file's undo and redo stacks hold at most [MAX_HISTORY] entries
    together. *)
Definition historyBounded (h : list (string * FileHistory)) : Prop :=
  Forall (fun kv => (length (past (snd kv)) + length (future (snd kv)) <= MAX_HISTORY)%nat) h.

(** The cursor points into the data of the active file (position [0] when
    the file is empty). *)
Definition cursorInRange (st : FileState) : Prop :=
  match findActive (files st) (activeFileId st) with
  | Some activeFile =>
      (0 <= currentIndex st <= Z.max 0 (Z.of_nat (length (data activeFile)) - 1))%Z
  | None => True
  end.

Definition fieldsOf (g : FilterGroup) : list string := map field (rules g).

(** No field is filtered on in two groups. *)
Fixpoint groupsSeparate (groups : list FilterGroup) : Prop :=
  match groups with
  | g :: r =>
      (forall g' fld, In g' r -> In fld (fieldsOf g) -> ~ In fld (fieldsOf g')) /\
      groupsSeparate r
  | [] => True
  end.

(** The records of the dataset that pass the search and the rules. *)
Definition passes (query : string) (groups : list FilterGroup) (record : Value)
    : bool :=
  match recordMatches query groups record with
  | Some true => true
  | _ => false
  end.

(** A record that is a mapping has each key once. *)
Definition keysDistinct (record : Value) : Prop :=
  match record with
  | VObj props => NoDup (map fst props)
  | _ => True
  end.

End Store.

(* ================================================================== *)
(** * The panels that feed the store and the worker *)
(* ================================================================== *)

Section Panels.
Context `{JC : JsonCodec}.

(** [BatchPanel.tsx], case [nestFields] of the confirm handler: the action
    sent to the worker, or [None] when the handler returns early. *)
Definition panelNestFields (nestTargetField : string)
    (nestSelectedFields : list string) : option BatchAction :=
  let targetField := Str.trim nestTargetField in
  let sourceFields :=
    filter (fun f => negb (String.eqb f targetField)) nestSelectedFields in
  if negb (Str.nonEmpty targetField) || (length sourceFields =? 0)%nat then None
  else Some (NestFields sourceFields targetField).

(** The data insights panel, [getValue]: the value its statistics are
    computed from, and from which it creates filter rules whose field is
    the dot-joined path. *)
Definition getValue (obj : Value) (path : string) : Value :=
  match
    fold_left
      (fun current part =>
         match current with
         | Some (VObj props) => Some (obj_read props part)
         | _ => None
         end)
      (Str.split Chars.dot path) (Some obj)
  with
  | Some v => v
  | None => VUndef
  end.

End Panels.

(* ================================================================== *)
(** * A host for the worked examples *)
(* ================================================================== *)

(** The examples run on integers: a number is [NaN] or an integer, and
    [Number(s)] reads a decimal integer numeral as its value, an empty or
    blank text as [0] and a text without digits as [NaN].  This host is not
    a model of [Number] on fractional, exponent or hexadecimal numerals,
    which the examples do not use.  The parser knows the JSON texts that the
    examples contain. *)
Module ExampleHost.

Inductive inum : Type := INaN | IInt (z : Z).

Definition inum_ofString (s : string) : inum :=
  match Str.trim s with
  | EmptyString => IInt 0
  | String "+" t =>
      match NilZero.uint_of_string t with
      | Some u => IInt (Z.of_uint u)
      | None => INaN
      end
  | t =>
      match NilZero.int_of_string t with
      | Some i => IInt (Z.of_int i)
      | None => INaN
      end
  end.

#[export] Instance Numbers : JsNumber := {|
  num := inum;
  num_NaN := INaN;
  num_zero := IInt 0;
  num_one := IInt 1;
  num_isNaN := fun n => match n with INaN => true | IInt _ => false end;
  num_truthy := fun n => match n with INaN => false | IInt z => negb (Z.eqb z 0) end;
  num_toString := fun n =>
    match n with INaN => "NaN" | IInt z => NilZero.string_of_int (Z.to_int z) end;
  num_ofString := inum_ofString;
  num_ofN := fun n => IInt (Z.of_N n);
  num_ge := fun a b =>
    match a, b with IInt x, IInt y => Z.geb x y | _, _ => false end;
  num_json := fun n => match n with INaN => None | IInt z => Some (IInt z) end
|}.

Definition q : string := String Chars.quote "".

(** The text [{"x":1}]. *)
Definition text_x1 : string := "{" ++ q ++ "x" ++ q ++ ":1}".
(** The text [["{}"]]: an array holding the text of an empty object. *)
Definition text_nested : string := "[" ++ q ++ "{}" ++ q ++ "]".

Definition parseKnown (text : string) : option Value :=
  if String.eqb text text_x1 then Some (VObj [("x", VNum (IInt 1))])
  else if String.eqb text text_nested then Some (VArr [VStr "{}"] [])
  else if String.eqb text "{}" then Some (VObj [])
  else if String.eqb text "[]" then Some (VArr [] [])
  else None.

(** A serializer for the values of the examples: strings are quoted with
    the five escapes of [escapeStringValue]. *)
Fixpoint stringify (v : Value) : string :=
  match v with
  | VUndef | VNull => "null"
  | VBool true => "true"
  | VBool false => "false"
  | VNum n => match n with INaN => "null" | _ => num_toString n end
  | VStr s => q ++ escapeStringValue s ++ q
  | VArr elems _ =>
      "[" ++
      (fix items (l : list Value) : string :=
         match l with
         | [] => ""
         | [x] => stringify x
         | x :: r => stringify x ++ "," ++ items r
         end) elems ++ "]"
  | VObj props =>
      "{" ++
      (fix members (l : list (string * Value)) (first : bool) : string :=
         match l with
         | [] => ""
         | (k, VUndef) :: r => members r first
         | (k, x) :: r =>
             (if first then "" else ",") ++ q ++ escapeStringValue k ++ q ++ ":"
               ++ stringify x ++ members r false
         end) props true ++ "}"
  end.

#[export] Instance NumbersEq : JsNumberEq := {|
  num_strictEq := fun a b =>
    match a, b with IInt x, IInt y => Z.eqb x y | _, _ => false end
|}.

#[export] Instance Codec : JsonCodec := {|
  jsonParser_parse := parseKnown;
  JSON_stringify := fun v => Some (stringify v)
|}.

Definition int (z : Z) : Value := VNum (IInt z).

(** The data of the worked examples. *)

Definition tagsRecord : Value :=
  VObj [("tags",
         VArr [VObj [("label", VStr "Title"); ("value", VStr "Hello")];
               VObj [("label", VStr "Year"); ("value", int 2024)]] [])].

Definition flattenTags : BatchAction :=
  FlattenStrip None None None (Some ["tags"]) (Some true) (Some true).

Definition nestedRecord : Value := VObj [("a", VObj [("b", VStr "x")])].

Definition nestedRule : FilterRule :=
  {| rule_id := "r1"; field := "a.b"; operator := OpEquals; value := "x" |}.

Definition fileOf (records : list Value) : FileSource :=
  {| id := "f1"; name := "data.json"; size := 0%N; type := TypeJson;
     data := records; errorRows := None; keyOrder := None;
     sourceFileIds := None |}.

Definition stateOf (records : list Value) (query : string)
    (groups : list FilterGroup) (indices : list N) : FileState :=
  {| files := [fileOf records]; activeFileId := Some "f1"; currentIndex := 0%Z;
     history := []; searchQuery := query; filterGroups := groups;
     filteredIndices := indices |}.

Definition statusRecords : list Value :=
  [VObj [("status", VStr "A")]; VObj [("status", VStr "B")]].

Definition statusIsZ : list FilterGroup :=
  [{| group_id := "g1";
      rules := [{| rule_id := "r1"; field := "status";
                   operator := OpEquals; value := "Z" |}] |}].

Definition mixedRecords : list Value :=
  [VStr "abc"; VObj [("a", VStr "ABC")]; VNull; int 5; VBool true].

Definition fieldBIsEmpty : list FilterGroup :=
  [{| group_id := "g1";
      rules := [{| rule_id := "r1"; field := "b";
                   operator := OpIsEmpty; value := "" |}] |}].

End ExampleHost.

(* ================================================================== *)
(** * Properties *)
(* ================================================================== *)

(** ** Own properties and elements *)

Section ContainerFacts.
Context `{JN : JsNumber}.

Lemma obj_get_set_same (o : Obj) (k : string) (v : Value) :
  obj_get (obj_set o k v) k = Some v.
Proof.
  induction o as [|[k' v'] r IH]; simpl.
  - now rewrite String.eqb_refl.
  - destruct (String.eqb k' k) eqn:E; simpl; rewrite E; auto.
Qed.

Lemma obj_get_set_other (o : Obj) (k k' : string) (v : Value) :
  k <> k' -> obj_get (obj_set o k v) k' = obj_get o k'.
Proof.
  intros Hne. induction o as [|[k0 v0] r IH]; simpl.
  - destruct (String.eqb k k') eqn:E; auto.
    apply String.eqb_eq in E. contradiction.
  - destruct (String.eqb k0 k) eqn:E; simpl.
    + apply String.eqb_eq in E. subst k0.
      destruct (String.eqb k k') eqn:E'; auto.
      apply String.eqb_eq in E'. contradiction.
    + now rewrite IH.
Qed.

Lemma obj_read_set_same (o : Obj) (k : string) (v : Value) :
  obj_read (obj_set o k v) k = v.
Proof. unfold obj_read. now rewrite obj_get_set_same. Qed.

Lemma obj_set_set_same (o : Obj) (k : string) (v w : Value) :
  obj_set (obj_set o k v) k w = obj_set o k w.
Proof.
  induction o as [|[k' v'] r IH]; simpl.
  - now rewrite String.eqb_refl.
  - destruct (String.eqb k' k) eqn:E; simpl; rewrite E; auto.
    now rewrite IH.
Qed.

Lemma nth_list_write (l : list Value) (i : nat) (v : Value) :
  nth i (list_write l i v) VUndef = v.
Proof.
  revert l. induction i as [|i IH]; intros [|x r]; simpl; auto.
Qed.

Lemma arr_read_write (elems : list Value) (i : N) (v : Value) :
  arr_read (arr_write elems i v) i = v.
Proof. apply nth_list_write. Qed.

End ContainerFacts.

(** ** Path addressing *)

Section ObjectPathFacts.
Context `{JN : JsNumber}.

(** Reading back the segment that [setInContainer] has just written
    yields the child it stored. *)
Lemma getStep_setInContainer (c : Value) (head : PathPart) (child : Value -> Value) :
  isObjectLike c = true ->
  exists t, getStep (setInContainer c head child) head = child t.
Proof.
  destruct c as [| | | | |elems named|props]; simpl; try discriminate; intros _.
  - destruct (Str.parseIndex (arrayKey head)) as [index|] eqn:E; simpl; rewrite E.
    + eexists. apply arr_read_write.
    + exists VUndef. unfold obj_read. simpl. now rewrite String.eqb_refl.
  - eexists. apply obj_read_set_same.
Qed.

(** On anything but a container, [setAtPath] first materializes the
    container that the head segment selects. *)
Lemma setAtPath_through_primitive (target : Value) (head : PathPart)
    (rest : list PathPart) (value : Value) :
  isObjectLike target = false ->
  setAtPath target (head :: rest) value =
  setAtPath (match head with PNum _ => VArr [] [] | PStr _ => VObj [] end)
    (head :: rest) value.
Proof.
  destruct target; simpl; try discriminate; intros _; destruct head; reflexivity.
Qed.

Lemma setAtPath_head (target : Value) (head : PathPart) (rest : list PathPart)
    (value : Value) :
  exists t, getStep (setAtPath target (head :: rest) value) head =
            setAtPath t rest value.
Proof.
  destruct (isObjectLike target) eqn:E.
  - destruct target; try discriminate;
      apply (getStep_setInContainer _ head (fun t => setAtPath t rest value));
      reflexivity.
  - rewrite setAtPath_through_primitive by assumption.
    destruct head;
      apply (getStep_setInContainer _ _ (fun t => setAtPath t rest value));
      reflexivity.
Qed.

End ObjectPathFacts.

(** ** With the prototype chain *)

Section PrototypeFacts.
Context `{JN : JsNumber}.
Import Proto.

Lemma own_replaceOwn (o : Props) (k : string) (v w : JsValue) :
  own o k = Some v -> own (replaceOwn o k w) k = Some w.
Proof.
  induction o as [|[k' v'] r IH]; simpl; [discriminate|].
  destruct (String.eqb k' k) eqn:E; simpl; rewrite E; auto.
Qed.

Lemma own_insertIndex (i : N) (k : string) (w : JsValue) (o : Props) :
  own o k = None -> own (insertIndex i k w o) k = Some w.
Proof.
  induction o as [|[k' v'] r IH]; simpl.
  - now rewrite String.eqb_refl.
  - destruct (String.eqb k' k) eqn:E; [discriminate|]. intros Hr.
    destruct (Str.parseIndex k') as [j|].
    + destruct (j <? i)%N; simpl.
      * rewrite E. now apply IH.
      * now rewrite String.eqb_refl.
    + simpl. now rewrite String.eqb_refl.
Qed.

Lemma own_app_new (o : Props) (k : string) (w : JsValue) :
  own o k = None -> own (o ++ [(k, w)])%list k = Some w.
Proof.
  induction o as [|[k' v'] r IH]; simpl.
  - now rewrite String.eqb_refl.
  - destruct (String.eqb k' k); [discriminate | exact IH].
Qed.

Lemma own_addOwn (o : Props) (k : string) (w : JsValue) :
  own o k = None -> own (addOwn o k w) k = Some w.
Proof.
  intros H. unfold addOwn. destruct (Str.parseIndex k).
  - now apply own_insertIndex.
  - now apply own_app_new.
Qed.

(** An assignment to an own key, or to a key other than [__proto__], is
    read back. *)
Lemma getStep_assignFresh (props : Props) (part : PathPart) (w : JsValue) :
  own props (objectKey part) <> None \/ objectKey part <> "__proto__" ->
  getStep (assignFresh props (objectKey part) w) part = Some w.
Proof.
  intros Hkey. unfold assignFresh.
  destruct (own props (objectKey part)) as [v|] eqn:E.
  - cbn [getStep]. now rewrite (own_replaceOwn _ _ v w E).
  - destruct Hkey as [Hkey|Hkey]; [congruence|].
    apply String.eqb_neq in Hkey. rewrite Hkey.
    cbn [getStep]. now rewrite own_addOwn.
Qed.

Lemma nth_elemWrite (l : list JsValue) (i : nat) (v : JsValue) :
  nth i (elemWrite l i v) JUndef = v.
Proof.
  revert l. induction i as [|i IH]; intros [|x r]; simpl; auto.
Qed.

Lemma getStep_setInArray (elems : list JsValue) (head : PathPart)
    (child : JsValue -> JsValue) :
  exists t, getStep (setInArray elems head child) head = Some (child t).
Proof.
  unfold setInArray.
  destruct (Str.parseIndex (arrayKey head)) as [index|] eqn:E; cbn [getStep]; rewrite E.
  - eexists. unfold elemRead at 1. now rewrite nth_elemWrite.
  - exists JUndef. cbn [own]. now rewrite String.eqb_refl.
Qed.

(** A write at a path that is not empty returns a container. *)
Lemma setAtPath_container (target : JsValue) (head : PathPart)
    (rest : list PathPart) (value : JsValue) :
  isObject (setAtPath target (head :: rest) value) = true.
Proof.
  assert (forall props k w, isObject (assignFresh props k w) = true) as Hassign.
  { intros props k w. unfold assignFresh.
    destruct (own props k); [reflexivity|].
    destruct (String.eqb k "__proto__"); [|reflexivity].
    destruct (isObject w); [reflexivity|]. destruct w; reflexivity. }
  assert (forall elems, isObject
            (setInArray elems head (fun t => setAtPath t rest value)) = true) as Harray.
  { intros elems. unfold setInArray.
    destruct (Str.parseIndex (arrayKey head)); reflexivity. }
  cbn [setAtPath]. destruct target; try destruct head;
    first [ apply Harray | apply Hassign ].
Qed.

(** What a write below [Object.prototype] returns is an object on which
    [__proto__] is still the inherited accessor, as long as the last
    segment of the path does not go to the setter. *)
Lemma lookup_written_prototype (rest : list PathPart) :
  forall (head : PathPart) (value receiverProto : JsValue),
    endsInSetter JObjectPrototype (head :: rest) = false ->
    lookup (setAtPath JObjectPrototype (head :: rest) value) "__proto__"
      receiverProto = Some receiverProto.
Proof.
  induction rest as [|head' rest' IH]; intros head value receiverProto Hends.
  - cbn [endsInSetter headIsSetter] in Hends.
    cbn [setAtPath]. unfold setInObject, assignFresh.
    cbn [own]. rewrite Hends. unfold addOwn.
    destruct (Str.parseIndex (objectKey head)); cbn [insertIndex app lookup own];
      rewrite Hends; reflexivity.
  - change (endsInSetter JObjectPrototype (head :: head' :: rest')) with
      (endsInSetter (readFresh [] (objectKey head)) (head' :: rest')) in Hends.
    change (setAtPath JObjectPrototype (head :: head' :: rest') value) with
      (assignFresh [] (objectKey head)
         (setAtPath (readFresh [] (objectKey head)) (head' :: rest') value)).
    unfold assignFresh, readFresh in *. cbn [own] in *.
    destruct (String.eqb (objectKey head) "__proto__") eqn:E.
    + rewrite setAtPath_container. cbn [lookup own]. now apply IH.
    + unfold addOwn.
      destruct (Str.parseIndex (objectKey head)); cbn [insertIndex app lookup own];
        rewrite E; reflexivity.
Qed.

(** The object branch: reading the head segment on what the write
    returns. *)
Lemma getStep_setInObject (props : Props) (head : PathPart)
    (rest : list PathPart) (value : JsValue) :
  match rest with
  | [] =>
      String.eqb (objectKey head) "__proto__" &&
      match own props (objectKey head) with Some _ => false | None => true end
  | _ :: _ => endsInSetter (readFresh props (objectKey head)) rest
  end = false ->
  getStep (setInObject props head (fun t => setAtPath t rest value)) head =
  Some (setAtPath (readFresh props (objectKey head)) rest value).
Proof.
  intros Hends. unfold setInObject.
  destruct (own props (objectKey head)) as [v|] eqn:Hown.
  - apply getStep_assignFresh. left. congruence.
  - destruct (String.eqb (objectKey head) "__proto__") eqn:E.
    + destruct rest as [|head' rest']; [discriminate|].
      unfold assignFresh. rewrite Hown, E.
      rewrite setAtPath_container. cbn [getStep]. rewrite Hown.
      unfold readFresh in *. rewrite Hown, E in *.
      apply String.eqb_eq in E. rewrite E.
      now apply lookup_written_prototype.
    + apply getStep_assignFresh. right. now apply String.eqb_neq.
Qed.

(** Reading the head segment of a path that has just been written yields
    what the write has made of the rest of the path. *)
Lemma setAtPath_head_proto (target : JsValue) (head : PathPart)
    (rest : list PathPart) (value : JsValue) :
  endsInSetter target (head :: rest) = false ->
  exists t,
    getStep (setAtPath target (head :: rest) value) head =
      Some (setAtPath t rest value) /\
    endsInSetter t rest = false.
Proof.
  intros Hends.
  assert (forall elems,
            exists t,
              getStep (setInArray elems head (fun t => setAtPath t rest value)) head =
                Some (setAtPath t rest value) /\
              t = match Str.parseIndex (arrayKey head) with
                  | Some index => elemRead elems index
                  | None => JUndef
                  end) as Harray.
  { intros elems. unfold setInArray.
    destruct (Str.parseIndex (arrayKey head)) as [index|] eqn:E; cbn [getStep];
      rewrite E; eexists; split; try reflexivity.
    - unfold elemRead at 1. now rewrite nth_elemWrite.
    - cbn [own]. now rewrite String.eqb_refl. }
  assert (forall t, endsInSetter target (head :: rest) = false ->
                    t = readHead target head -> endsInSetter t rest = false) as Hrest.
  { intros t H ->. destruct rest as [|head' rest']; [reflexivity | exact H]. }
  assert (forall props,
            match target with
            | JArr _ _ => False
            | JObj _ own' => props = own'
            | JObjectPrototype => props = []
            | _ => props = [] /\ exists key, head = PStr key
            end ->
            getStep (setInObject props head (fun t => setAtPath t rest value)) head =
              Some (setAtPath (readHead target head) rest value)) as Hobject.
  { intros props Htarget.
    assert (readHead target head = readFresh props (objectKey head) /\
            headIsSetter target head =
              String.eqb (objectKey head) "__proto__" &&
              match own props (objectKey head) with Some _ => false | None => true end)
      as [Hread Hsetter].
    { destruct target; try contradiction; try subst props;
        try (destruct Htarget as [-> [key ->]]); cbn [readHead headIsSetter objectKey own];
        rewrite ?andb_true_r; split; reflexivity. }
    rewrite Hread. apply getStep_setInObject.
    destruct rest as [|head' rest'].
    - cbn [endsInSetter] in Hends. now rewrite <- Hsetter.
    - rewrite <- Hread. exact Hends. }
  cbn [setAtPath].
  destruct target as [| |b|n|s|elems named|proto props| |name];
    try (destruct head as [key|n'];
         [ eexists; split;
           [ apply Hobject; split; [reflexivity | now exists key]
           | apply Hrest; [exact Hends | reflexivity] ]
         | destruct (Harray []) as (t & Ht & Heq); exists t; split; [exact Ht|];
           apply Hrest; [exact Hends|]; rewrite Heq; cbn [readHead elemRead];
           destruct (Str.parseIndex _) as [index|]; [|reflexivity];
           unfold elemRead; destruct (N.to_nat index); reflexivity ]).
  - destruct (Harray elems) as (t & Ht & Heq). exists t. split; [exact Ht|].
    apply Hrest; [exact Hends | exact Heq].
  - eexists. split; [now apply Hobject|]. apply Hrest; [exact Hends | reflexivity].
  - eexists. split; [now apply Hobject|]. apply Hrest; [exact Hends | reflexivity].
Qed.

(** A path whose last segment is not [__proto__] never ends in the
    setter. *)
Lemma endsWithProto_endsInSetter (path : list PathPart) :
  forall target, endsWithProto path = false -> endsInSetter target path = false.
Proof.
  induction path as [|head rest IH]; intros target Hp; [reflexivity|].
  destruct rest as [|head' rest'].
  - cbn [endsWithProto] in Hp. cbn [endsInSetter].
    destruct target, head; cbn [headIsSetter objectKey] in *; rewrite ?Hp;
      reflexivity.
  - apply IH. exact Hp.
Qed.

(** C3, as the code has it.  Reading at the path just written returns the
    written value, for every value, every written value and every path,
    unless the last segment of the path is [__proto__] and the write
    reaches it on a mapping that does not have this key of its own (the
    assignment then goes to the setter that [Object.prototype] provides):
    so for every path whose last segment is not [__proto__].  The keys that
    name other members of [Object.prototype] are included, and so are the
    paths that pass through a primitive or, before their end, through
    [__proto__].  Writing at ["a","b"] where [a] holds a string replaces
    that string by the mapping [{b: x}]. *)
Theorem setAtPath_getAtPath_roundtrip (v : JsValue) (p : list PathPart)
    (x : JsValue) :
  (endsInSetter v p = false -> getAtPath (setAtPath v p x) p = Some x) /\
  (endsWithProto p = false -> getAtPath (setAtPath v p x) p = Some x) /\
  (forall (proto : JsValue) (props : Props) (s : string),
      own props "a" = Some (JStr s) ->
      setAtPath (JObj proto props) [PStr "a"; PStr "b"] x =
      JObj JObjectPrototype
        (replaceOwn props "a" (JObj JObjectPrototype [("b", x)]))).
Proof.
  assert (forall v, endsInSetter v p = false ->
                    getAtPath (setAtPath v p x) p = Some x) as Hround.
  { induction p as [|head rest IH]; intros v' Hp.
    - reflexivity.
    - destruct (setAtPath_head_proto v' head rest x Hp) as (t & Ht & Hrest).
      unfold getAtPath in *. cbn [fold_left]. rewrite Ht. now apply IH. }
  split; [apply Hround|]. split.
  - intros Hp. apply Hround. now apply endsWithProto_endsInSetter.
  - intros proto props s Ha.
    change (setAtPath (JObj proto props) [PStr "a"; PStr "b"] x)
      with (assignFresh props "a" (setAtPath (readFresh props "a") [PStr "b"] x)).
    unfold readFresh, assignFresh at 1. rewrite Ha. reflexivity.
Qed.

End PrototypeFacts.


(** ** Escaping and unescaping *)

Lemma escapeStringValue_cons (c : ascii) (s : string) :
  escapeStringValue (String c s) = escapeChar c ++ escapeStringValue s.
Proof.
  destruct c as [[] [] [] [] [] [] [] []]; reflexivity.
Qed.

Lemma unescape_escapeChar (c : ascii) (r : string) :
  unescapeStringValue (escapeChar c ++ r) = String c (unescapeStringValue r).
Proof.
  destruct r; destruct c as [[] [] [] [] [] [] [] []]; reflexivity.
Qed.

(** C4. Unescaping an escaped string gives the string back, for every
    string. *)
Theorem unescape_escape_identity (s : string) :
  unescapeStringValue (escapeStringValue s) = s.
Proof.
  induction s as [|c s IH].
  - reflexivity.
  - rewrite escapeStringValue_cons, unescape_escapeChar. now rewrite IH.
Qed.

(** ** [smartParseValue] *)

Lemma trimStart_length (s : string) :
  (String.length (Str.trimStart s) <= String.length s)%nat.
Proof.
  induction s as [|c r IH]; simpl; auto.
  destruct (Str.isWhiteSpace c); simpl; lia.
Qed.

Lemma trimEnd_length (s : string) :
  (String.length (Str.trimEnd s) <= String.length s)%nat.
Proof.
  induction s as [|c r IH]; simpl; auto.
  destruct (Str.trimEnd r); simpl in *.
  - destruct (Str.isWhiteSpace c); simpl; lia.
  - lia.
Qed.

Lemma trim_length (s : string) :
  (String.length (Str.trim s) <= String.length s)%nat.
Proof.
  unfold Str.trim.
  etransitivity; [apply trimEnd_length | apply trimStart_length].
Qed.

Section ObjectFolds.
Context `{JN : JsNumber}.

Lemma obj_set_keys (o : Obj) (k : string) (v : Value) :
  map fst (obj_set o k v) =
  if obj_has o k then map fst o else (map fst o ++ [k])%list.
Proof.
  unfold obj_has. induction o as [|[k' v'] r IH]; simpl; auto.
  destruct (String.eqb k' k) eqn:E; simpl; auto.
  rewrite IH. destruct (obj_get r k); reflexivity.
Qed.

Lemma obj_has_In (o : Obj) (k : string) :
  obj_has o k = true <-> In k (map fst o).
Proof.
  unfold obj_has. induction o as [|[k' v'] r IH]; simpl.
  - split; [discriminate | tauto].
  - destruct (String.eqb k' k) eqn:E.
    + apply String.eqb_eq in E. tauto.
    + apply String.eqb_neq in E. rewrite IH. tauto.
Qed.

Lemma obj_set_NoDup (o : Obj) (k : string) (v : Value) :
  NoDup (map fst o) -> NoDup (map fst (obj_set o k v)).
Proof.
  intros Ho. rewrite obj_set_keys. destruct (obj_has o k) eqn:E; auto.
  apply NoDup_app; auto.
  - constructor; [tauto | constructor].
  - intros x Hx [Hk|[]]. subst x.
    apply obj_has_In in Hx. congruence.
Qed.

Lemma obj_set_fresh (o : Obj) (k : string) (v : Value) :
  ~ In k (map fst o) -> obj_set o k v = (o ++ [(k, v)])%list.
Proof.
  induction o as [|[k' v'] r IH]; simpl; auto.
  intros Hn. destruct (String.eqb k' k) eqn:E.
  - apply String.eqb_eq in E. tauto.
  - rewrite IH; tauto.
Qed.

Lemma obj_set_Forall (P : Value -> Prop) (o : Obj) (k : string) (v : Value) :
  Forall (fun kv => P (snd kv)) o -> P v ->
  Forall (fun kv => P (snd kv)) (obj_set o k v).
Proof.
  intros Ho Hv. induction Ho as [|[k' v'] r Hx Hr IH]; simpl.
  - constructor; auto.
  - destruct (String.eqb k' k); constructor; auto.
Qed.

Lemma setEach_NoDup f props result :
  NoDup (map fst result) -> NoDup (map fst (setEach f props result)).
Proof.
  unfold setEach. revert result.
  induction props as [|kv r IH]; intros result Hres; simpl; auto.
  apply IH, obj_set_NoDup, Hres.
Qed.

Lemma setEach_Forall (P : Value -> Prop) f props result :
  Forall (fun kv => P (snd kv)) result ->
  Forall (fun kv => P (f (snd kv))) props ->
  Forall (fun kv => P (snd kv)) (setEach f props result).
Proof.
  unfold setEach. revert result.
  induction props as [|kv r IH]; intros result Hres Hp; simpl; auto.
  inversion Hp; subst. apply IH; auto. apply obj_set_Forall; auto.
Qed.

Lemma setEach_fixed f props result :
  NoDup (map fst (result ++ props)%list) ->
  Forall (fun kv => f (snd kv) = snd kv) props ->
  setEach f props result = (result ++ props)%list.
Proof.
  unfold setEach. revert result.
  induction props as [|[k v] r IH]; intros result Hnd Hf; simpl.
  - now rewrite app_nil_r.
  - inversion Hf as [|? ? Hv Hr]; subst. simpl in Hv. rewrite Hv.
    rewrite obj_set_fresh.
    + rewrite IH; auto; rewrite <- app_assoc; auto.
    + rewrite map_app in Hnd. simpl in Hnd.
      apply NoDup_remove_2 in Hnd. intros Hin. apply Hnd.
      apply in_or_app. now left.
Qed.

Lemma setEach_ext f g props result :
  Forall (fun kv => f (snd kv) = g (snd kv)) props ->
  setEach f props result = setEach g props result.
Proof.
  unfold setEach. revert result.
  induction props as [|kv r IH]; intros result Hfg; simpl; auto.
  inversion Hfg; subst. rewrite H1. now apply IH.
Qed.

End ObjectFolds.

Section SmartParse.
Context `{JC : JsonCodec}.

Lemma smartParseFuel_str (fuel : nat) (s : string) :
  smartParseFuel fuel (VStr s) =
  if looksLikeJSON (Str.trim s) then
    match jsonParser_parse (Str.trim s) with
    | Some parsed =>
        if isObjectLike parsed then
          match fuel with
          | S fuel' => smartParseFuel fuel' parsed
          | O => VStr s
          end
        else VStr s
    | None => VStr s
    end
  else VStr s.
Proof. destruct fuel; reflexivity. Qed.

Lemma smartParseFuel_arr (fuel : nat) (elems : list Value) (named : Obj) :
  smartParseFuel fuel (VArr elems named) = VArr (map (smartParseFuel fuel) elems) [].
Proof. destruct fuel; reflexivity. Qed.

Lemma smartParseFuel_obj (fuel : nat) (props : Obj) :
  smartParseFuel fuel (VObj props) = VObj (setEach (smartParseFuel fuel) props []).
Proof. destruct fuel; reflexivity. Qed.

Lemma strRank_elem (elems : list Value) (named : Obj) (x : Value) :
  In x elems -> (strRank x <= strRank (VArr elems named))%nat.
Proof.
  simpl. induction elems as [|y r IH]; simpl; intros [].
  - subst. lia.
  - specialize (IH H). lia.
Qed.

Lemma strRank_prop (props : Obj) (kv : string * Value) :
  In kv props -> (strRank (snd kv) <= strRank (VObj props))%nat.
Proof.
  simpl. induction props as [|y r IH]; simpl; intros [].
  - subst. lia.
  - specialize (IH H). lia.
Qed.

Lemma looksLikeJSON_nonempty (t : string) :
  looksLikeJSON t = true -> (0 < String.length t)%nat.
Proof. destruct t; simpl; [discriminate | lia]. Qed.

Lemma settled_arr (elems : list Value) (named : Obj) :
  settled (VArr elems named) <-> named = [] /\ Forall settled elems.
Proof.
  simpl. split; intros [Hn H]; split; auto.
  - induction elems; constructor; tauto.
  - induction H; tauto.
Qed.

Lemma settled_obj (props : Obj) :
  settled (VObj props) <->
  NoDup (map fst props) /\ Forall (fun kv => settled (snd kv)) props.
Proof.
  simpl. split; intros [Hn H]; split; auto.
  - induction props; constructor; try tauto.
    apply IHprops; [now inversion Hn | tauto].
  - clear Hn. induction H; tauto.
Qed.

(** On a settled value no text is unwrapped, whatever the fuel. *)
Lemma settled_fixed (v : Value) :
  settled v -> forall fuel, smartParseFuel fuel v = v.
Proof.
  induction v as [| | | |s|elems named IHe _|props IHp] using Value_nested_ind;
    intros Hs fuel; try (destruct fuel; reflexivity).
  - rewrite smartParseFuel_str. simpl in Hs. unfold textUnwraps in Hs.
    destruct (looksLikeJSON (Str.trim s)); auto.
    destruct (jsonParser_parse (Str.trim s)) as [parsed|]; auto.
    simpl in Hs. now rewrite Hs.
  - rewrite smartParseFuel_arr. apply settled_arr in Hs as [-> Hs].
    f_equal. rewrite <- (map_id elems) at 2. apply map_ext_in.
    intros x Hx. rewrite Forall_forall in IHe, Hs. auto.
  - rewrite smartParseFuel_obj. apply settled_obj in Hs as [Hnd Hs].
    f_equal. rewrite setEach_fixed; auto.
    rewrite Forall_forall in *. intros kv Hkv. auto.
Qed.

Section WithParser.
Hypothesis parser_shrinks : ParserShrinks.

(** The recursion on what a text spells has enough fuel when the fuel
    covers the longest string. *)
Lemma unwrap_rank (fuel' : nat) (s : string) (parsed : Value) :
  (String.length s <= S fuel')%nat ->
  jsonParser_parse (Str.trim s) = Some parsed ->
  isObjectLike parsed = true ->
  (strRank parsed <= fuel')%nat.
Proof.
  intros Hlen Hp Hc. pose proof (parser_shrinks _ _ Hp Hc).
  pose proof (trim_length s). lia.
Qed.

Lemma smartParseFuel_settled_step (fuel : nat) :
  (forall fuel' p, fuel = S fuel' -> (strRank p <= fuel')%nat ->
                   settled (smartParseFuel fuel' p)) ->
  forall v, (strRank v <= fuel)%nat -> settled (smartParseFuel fuel v).
Proof.
  intros IHfuel.
  induction v as [| | | |s|elems named IHe _|props IHp] using Value_nested_ind;
    intros Hr; try (destruct fuel; exact I).
  - rewrite smartParseFuel_str.
    destruct (looksLikeJSON (Str.trim s)) eqn:Hl;
      [|simpl; unfold textUnwraps; now rewrite Hl].
    destruct (jsonParser_parse (Str.trim s)) as [parsed|] eqn:Hp;
      [|simpl; unfold textUnwraps; now rewrite Hl, Hp].
    destruct (isObjectLike parsed) eqn:Hc;
      [|simpl; unfold textUnwraps; now rewrite Hl, Hp, Hc].
    simpl in Hr. destruct fuel as [|fuel'].
    + apply looksLikeJSON_nonempty in Hl. pose proof (trim_length s). lia.
    + apply IHfuel; auto. eapply unwrap_rank; eauto.
  - rewrite smartParseFuel_arr. apply settled_arr. split; auto.
    apply Forall_map. rewrite Forall_forall in *. intros x Hx.
    apply IHe; auto. pose proof (strRank_elem elems named x Hx). lia.
  - rewrite smartParseFuel_obj. apply settled_obj. split.
    + apply setEach_NoDup. constructor.
    + apply setEach_Forall; [constructor|].
      rewrite Forall_forall in *. intros kv Hkv.
      apply IHp; auto. pose proof (strRank_prop props kv Hkv). lia.
Qed.

Lemma smartParseFuel_settled (fuel : nat) (v : Value) :
  (strRank v <= fuel)%nat -> settled (smartParseFuel fuel v).
Proof.
  revert v. induction fuel as [|fuel IH]; intros v Hr.
  - apply smartParseFuel_settled_step; auto. intros; discriminate.
  - apply smartParseFuel_settled_step; auto.
    intros fuel' p [= <-]. apply IH.
Qed.

Lemma smartParseFuel_more_step (fuel extra : nat) :
  (forall fuel' p, fuel = S fuel' -> (strRank p <= fuel')%nat ->
                   smartParseFuel (fuel' + extra) p = smartParseFuel fuel' p) ->
  forall v, (strRank v <= fuel)%nat ->
            smartParseFuel (fuel + extra) v = smartParseFuel fuel v.
Proof.
  intros IHfuel.
  induction v as [| | | |s|elems named IHe _|props IHp] using Value_nested_ind;
    intros Hr; try (destruct fuel, extra; reflexivity).
  - rewrite !smartParseFuel_str.
    destruct (looksLikeJSON (Str.trim s)) eqn:Hl; auto.
    destruct (jsonParser_parse (Str.trim s)) as [parsed|] eqn:Hp; auto.
    destruct (isObjectLike parsed) eqn:Hc; auto.
    simpl in Hr. destruct fuel as [|fuel'].
    + apply looksLikeJSON_nonempty in Hl. pose proof (trim_length s). lia.
    + simpl. apply IHfuel; auto. eapply unwrap_rank; eauto.
  - rewrite !smartParseFuel_arr. f_equal. apply map_ext_in.
    intros x Hx. rewrite Forall_forall in IHe. apply IHe; auto.
    pose proof (strRank_elem elems named x Hx). lia.
  - rewrite !smartParseFuel_obj. f_equal. apply setEach_ext.
    rewrite Forall_forall in *. intros kv Hkv. apply IHp; auto.
    pose proof (strRank_prop props kv Hkv). lia.
Qed.

(** More fuel than the longest string changes nothing:
    [smartParseValue] never stops for lack of fuel. *)
Lemma smartParseFuel_enough (fuel : nat) (v : Value) :
  (strRank v <= fuel)%nat -> smartParseFuel fuel v = smartParseValue v.
Proof.
  intros Hr. unfold smartParseValue.
  replace fuel with (strRank v + (fuel - strRank v))%nat by lia.
  generalize (fuel - strRank v)%nat as extra. intros extra.
  assert (forall n w, (strRank w <= n)%nat ->
                      smartParseFuel (n + extra) w = smartParseFuel n w) as H.
  { induction n as [|n IH]; intros w Hw.
    - apply smartParseFuel_more_step; auto. intros; discriminate.
    - apply smartParseFuel_more_step; auto.
      intros fuel' p [= <-]. apply IH. }
  apply H. lia.
Qed.

(** C5. The smart recursive parse is idempotent: parsing the result of
    [smartParseValue] again returns it unchanged, for every value, with
    a parser whose containers hold only strings shorter than the text
    they were read from. *)
Theorem smartParseValue_idempotent (v : Value) :
  smartParseValue (smartParseValue v) = smartParseValue v.
Proof.
  apply settled_fixed. unfold smartParseValue at 1.
  apply smartParseFuel_settled. lia.
Qed.

End WithParser.

End SmartParse.

(** ** The batch worker *)

Lemma fold_left_fst_indep {A B C : Type} (F : A * B -> C -> A * B) (G : A -> C -> A) :
  (forall a b c, fst (F (a, b) c) = G a c) ->
  forall l a b, fst (fold_left F l (a, b)) = fold_left G l a.
Proof.
  intros HF. induction l as [|c l IH]; intros a b; simpl; auto.
  specialize (HF a b c). destruct (F (a, b) c) as [a' b']. simpl in HF. subst a'.
  apply IH.
Qed.

Section WorkerFacts.
Context `{JC : JsonCodec}.

Lemma escapeTarget_data (keys : list string) (record : Obj) (warnings : list string) :
  fst (fold_left escapeTarget keys (record, warnings)) =
  fold_left (fun next key => fst (escapeTarget (next, []) key)) keys record.
Proof.
  apply fold_left_fst_indep. intros next w key. unfold escapeTarget.
  destruct (obj_has next key); auto.
  destruct (obj_read next key); auto;
    destruct (JSON_stringify _); auto.
Qed.

(** [Number] throws where [String] does. *)
Lemma toNumber_throws (v : Value) : toNumber v = None <-> toStr v = None.
Proof.
  destruct v as [| |[|]|n|s|elems named|props]; cbn [toNumber];
    try (cbn [toStr]; split; discriminate).
  - destruct (toStr (VArr elems named)); cbn [option_map]; split; congruence.
  - destruct (toStr (VObj props)); cbn [option_map]; split; congruence.
Qed.

(** The warnings collected so far have no influence on the record that
    [applyItem] returns, nor on whether it returns. *)
Lemma applyRecord_data (action : BatchAction) (record : Obj) (warnings : list string) :
  option_map fst (applyRecord action record warnings) =
  option_map fst (applyRecord action record []).
Proof.
  destruct action;
    try (unfold applyRecord;
         repeat match goal with
           | |- context [match ?x with _ => _ end] => destruct x eqn:?
           end; reflexivity).
  unfold applyRecord.
  destruct (targetKeysOf targetKeys key) as [|k ks]; [reflexivity|].
  pose proof (escapeTarget_data (k :: ks) record warnings) as H1.
  pose proof (escapeTarget_data (k :: ks) record []) as H2.
  destruct (fold_left escapeTarget (k :: ks) (record, warnings)).
  destruct (fold_left escapeTarget (k :: ks) (record, [])).
  simpl fst in *. cbn [option_map fst]. congruence.
Qed.

Lemma applyItem_data (action : BatchAction) (item : Value) (warnings : list string) :
  option_map fst (applyItem action item warnings) = transformItem action item.
Proof.
  unfold transformItem. destruct item; simpl; auto. apply applyRecord_data.
Qed.

(** The callback throws exactly on the records that [throwsOn] names. *)
Lemma transformItem_throws (action : BatchAction) (item : Value) :
  transformItem action item = None <-> throwsOn action item = true.
Proof.
  unfold transformItem, throwsOn, convertible.
  destruct item as [| | | | | |record];
    try (cbn [applyItem option_map]; destruct action as [| | | |? []| | | | | | |];
         split; discriminate).
  cbn [applyItem].
  destruct action as [| | | |key target| | | | | | |];
    try (unfold applyRecord;
         repeat match goal with
           | |- context [match ?x with _ => _ end] => destruct x eqn:?
           end; cbn [option_map]; split; discriminate).
  cbn [applyRecord].
  destruct (obj_has record key); cbn [negb andb].
  - destruct target.
    + destruct (toStr (obj_read record key)); cbn [option_map negb]; split; congruence.
    + pose proof (toNumber_throws (obj_read record key)) as Hthrows.
      destruct (toNumber (obj_read record key)) as [n|].
      * destruct (toStr (obj_read record key)) as [shown|].
        -- destruct (num_isNaN n); cbn [option_map negb]; split; discriminate.
        -- destruct Hthrows as [_ Hthrows]. specialize (Hthrows eq_refl). discriminate.
      * destruct Hthrows as [Hthrows _]. rewrite (Hthrows eq_refl).
        cbn [option_map negb]. split; reflexivity.
    + cbn [option_map]. split; discriminate.
  - destruct target; cbn [option_map]; split; discriminate.
Qed.




(** The loop returns when the callback returns on every record. *)
Lemma applyBatch_loop_map (action : BatchAction) (f : Value -> Value)
    (data : list Value) :
  (forall item, In item data -> transformItem action item = Some (f item)) ->
  forall nextData warnings,
    exists warnings',
      fold_left
        (fun st item =>
           match st with
           | Some (nextData, warnings) =>
               match applyItem action item warnings with
               | Some (out, warnings) => Some ((nextData ++ [out])%list, warnings)
               | None => None
               end
           | None => None
           end)
        data (Some (nextData, warnings)) =
      Some ((nextData ++ map f data)%list, warnings').
Proof.
  induction data as [|item data IH]; intros Hf nextData warnings; simpl.
  - exists warnings. now rewrite app_nil_r.
  - pose proof (applyItem_data action item warnings) as Hd.
    rewrite (Hf item (or_introl eq_refl)) in Hd.
    destruct (applyItem action item warnings) as [[o w]|]; [|discriminate].
    injection Hd as ->.
    destruct (IH (fun x Hx => Hf x (or_intror Hx)) (nextData ++ [f item])%list w)
      as [w' Hw].
    exists w'. rewrite Hw, <- app_assoc. reflexivity.
Qed.


Lemma applyBatch_map (action : BatchAction) (f : Value -> Value) (data : list Value) :
  (forall item, In item data -> transformItem action item = Some (f item)) ->
  option_map fst (applyBatch data action) = Some (map f data).
Proof.
  intros Hf. unfold applyBatch.
  destruct (applyBatch_loop_map action f data Hf [] []) as [w ->]. reflexivity.
Qed.



End WorkerFacts.

Section TypeConvert.
Context `{JC : JsonCodec}.



End TypeConvert.


(** ** The filter engine *)

Section FilterFacts.
Context `{JC : JsonCodec}.

Lemma recordMatches_objectLike (query : string) (groups : list FilterGroup)
    (record : Value) :
  recordMatches query groups record = Some true -> isObjectLike record = true.
Proof.
  unfold recordMatches.
  destruct (truthy record && isObjectLike record) eqn:E; simpl.
  - intros _. now apply andb_prop in E.
  - discriminate.
Qed.

(** What the loop adds to [matchedIndices] are positions of records that
    matched. *)
Lemma collectMatches_sound (query : string) (groups : list FilterGroup)
    (records : list Value) :
  forall index matchedIndices out,
    collectMatches query groups records index matchedIndices = Some out ->
    forall i, In i out ->
      In i matchedIndices \/
      exists k record,
        i = (index + N.of_nat k)%N /\
        nth_error records k = Some record /\
        recordMatches query groups record = Some true.
Proof.
  induction records as [|record r IH]; intros index acc out H i Hi; simpl in H.
  - injection H as <-. now left.
  - destruct (recordMatches query groups record) as [[|]|] eqn:E; try discriminate.
    + destruct (IH _ _ _ H i Hi) as [Hacc|(k & rec & -> & Hk & Hm)].
      * apply in_app_or in Hacc as [Hacc|[<-|[]]]; [now left|].
        right. exists 0%nat, record. repeat split; auto. lia.
      * right. exists (S k), rec. repeat split; auto. lia.
    + destruct (IH _ _ _ H i Hi) as [Hacc|(k & rec & -> & Hk & Hm)]; [now left|].
      right. exists (S k), rec. repeat split; auto. lia.
Qed.

Lemma someRule_total (record : Value) (rs : list FilterRule) :
  (forall fieldName, fieldValueOf record fieldName <> None) ->
  someRule record rs <> None.
Proof.
  intros Hfield. induction rs as [|rule r IH]; simpl; [discriminate|].
  unfold checkRule. specialize (Hfield (field rule)).
  destruct (fieldValueOf record (field rule)); [|contradiction].
  destruct (evalOperator _ _ _); [discriminate | exact IH].
Qed.

Lemma everyGroup_total (record : Value) (groups : list FilterGroup) :
  (forall fieldName, fieldValueOf record fieldName <> None) ->
  everyGroup record groups <> None.
Proof.
  intros Hfield. induction groups as [|g r IH]; cbn [everyGroup]; [discriminate|].
  pose proof (someRule_total record (rules g) Hfield) as Hsome.
  destruct (rules g) as [|rule rs]; [exact IH|].
  destruct (someRule record (rule :: rs)) as [[|]|];
    [exact IH | discriminate | contradiction].
Qed.

(** The loop cannot fail when [JSON.stringify] and the conversion of the
    fields succeed on the records. *)
Lemma collectMatches_total (query : string) (groups : list FilterGroup)
    (records : list Value) :
  Forall (fun record =>
            JSON_stringify record <> None /\
            forall fieldName, fieldValueOf record fieldName <> None) records ->
  forall index matchedIndices,
    collectMatches query groups records index matchedIndices <> None.
Proof.
  induction 1 as [|record r [Hrec Hfield] _ IH]; intros index acc; simpl;
    [discriminate|].
  assert (recordMatches query groups record <> None) as Hm.
  { unfold recordMatches.
    pose proof (everyGroup_total record groups Hfield) as Hgroups.
    destruct (negb (truthy record && isObjectLike record)); [discriminate|].
    destruct (Str.nonEmpty (Str.trim query)).
    - destruct (JSON_stringify record); [|contradiction].
      destruct (Str.includes _ _); [destruct groups|]; try discriminate.
      exact Hgroups.
    - destruct groups; [discriminate | exact Hgroups]. }
  destruct (recordMatches query groups record) as [[|]|]; auto.
Qed.

(** C10. After [recalculateFilteredData] every matched index is the
    position of an array or object of the active file; hence a record
    that is [null], a number, a string or a boolean is never matched,
    whatever the search query and the rules (in particular whenever a
    filter is active). *)
Theorem primitive_records_never_match (st st' : FileState) (activeFile : FileSource) :
  findActive (files st) (activeFileId st) = Some activeFile ->
  recalculateFilteredData st = Some st' ->
  (forall index, In index (filteredIndices st') ->
     exists record,
       nth_error (data activeFile) (N.to_nat index) = Some record /\
       isObjectLike record = true) /\
  (forall i record,
     nth_error (data activeFile) i = Some record ->
     isObjectLike record = false ->
     ~ In (N.of_nat i) (filteredIndices st')).
Proof.
  intros Hactive Hrecalc.
  assert (forall index, In index (filteredIndices st') ->
            exists record,
              nth_error (data activeFile) (N.to_nat index) = Some record /\
              isObjectLike record = true) as Hall.
  { unfold recalculateFilteredData in Hrecalc. rewrite Hactive in Hrecalc.
    destruct (negb (hasFilters (searchQuery st) (filterGroups st))).
    - injection Hrecalc as <-. intros index [].
    - destruct (collectMatches _ _ _ _ _) as [matched|] eqn:E; [|discriminate].
      injection Hrecalc as <-. simpl. intros index Hin.
      destruct (collectMatches_sound _ _ _ _ _ _ E index Hin)
        as [[]|(k & record & -> & Hk & Hm)].
      exists record. split.
      + now rewrite N.add_0_l, Nat2N.id.
      + eapply recordMatches_objectLike; eauto. }
  split; auto.
  intros i record Hi Hprim Hin.
  destruct (Hall _ Hin) as (record' & Hi' & Hobj).
  rewrite Nat2N.id in Hi'. congruence.
Qed.

End FilterFacts.

(** ** Nesting fields *)

Section NestFacts.
Context `{JC : JsonCodec}.

Lemma obj_get_del_other (o : Obj) (k k' : string) :
  k <> k' -> obj_get (obj_del o k) k' = obj_get o k'.
Proof.
  intros Hne. induction o as [|[k0 v0] r IH]; simpl; auto.
  destruct (String.eqb k0 k) eqn:E; simpl.
  - apply String.eqb_eq in E. subst k0.
    destruct (String.eqb k k') eqn:E'; auto.
    apply String.eqb_eq in E'. contradiction.
  - now rewrite IH.
Qed.

(** The loop over the source fields touches only these fields, in the
    target object and in the record. *)
Lemma nestLoop_other (fields : list string) (k : string) :
  ~ In k fields ->
  forall targetObject next,
    obj_get (fst (nestLoop fields targetObject next)) k = obj_get targetObject k /\
    obj_get (snd (nestLoop fields targetObject next)) k = obj_get next k.
Proof.
  unfold nestLoop.
  induction fields as [|f r IH]; intros Hk targetObject next; simpl; auto.
  destruct (IH (fun H => Hk (or_intror H))
              (obj_set targetObject f (obj_read next f)) (obj_del next f)) as [H1 H2].
  assert (f <> k) by (intros ->; apply Hk; now left).
  rewrite H1, H2, obj_get_set_other, obj_get_del_other; auto.
Qed.

(** Nesting a list of fields that leaves out the target keeps the
    target's own value out of the object stored under it. *)
Lemma nestRecord_target (fields : list string) (target : string) (record : Obj) :
  ~ In target fields ->
  exists targetObject,
    obj_get (nestRecord fields target record) target = Some (VObj targetObject) /\
    obj_get targetObject target =
    match obj_read record target with
    | VObj existing => obj_get existing target
    | _ => None
    end.
Proof.
  intros Hn. unfold nestRecord.
  set (start := match obj_read record target with VObj e => e | _ => [] end).
  destruct (nestLoop_other fields target Hn start record) as [H1 _].
  destruct (nestLoop fields start record) as [targetObject next]. simpl in H1.
  exists targetObject. split; [apply obj_get_set_same|].
  rewrite H1. subst start. destruct (obj_read record target); reflexivity.
Qed.

Lemma filter_excludes (target : string) (l : list string) :
  ~ In target (filter (fun f => negb (String.eqb f target)) l).
Proof.
  intros H. apply filter_In in H as [_ H]. now rewrite String.eqb_refl in H.
Qed.

Lemma find_updateActive (fs : list FileSource) (fid : string)
    (upd : FileSource -> FileSource) :
  (forall f, id (upd f) = id f) ->
  find (fun f => String.eqb (id f) fid) (updateActive fs fid upd) =
  option_map upd (find (fun f => String.eqb (id f) fid) fs).
Proof.
  intros Hid. induction fs as [|f r IH]; simpl; auto.
  destruct (String.eqb (id f) fid) eqn:E; simpl.
  - now rewrite Hid, E.
  - now rewrite E.
Qed.

Lemma nonEmpty_false (s : string) : Str.nonEmpty s = false <-> s = "".
Proof. destruct s; simpl; split; congruence. Qed.

Lemma length_zero_nil {A : Type} (l : list A) : (length l =? 0)%nat = true <-> l = [].
Proof. destruct l; simpl; split; congruence. Qed.

(** Where the exclusion of the target is done.  The store's [nestFields]
    and the batch panel's dispatch remove the source fields equal to the
    trimmed target before nesting, and do nothing when the remaining list
    is empty or the trimmed target is empty; with such a list the value of
    the target is never moved into the object stored under the target.  The
    worker's [applyBatch] leaves the dataset as it is when the target is
    the empty string or the list it is given is empty. *)
Lemma nestFields_exclusion :
  (* the store *)
  (forall sourceFields targetField st,
      let target := Str.trim targetField in
      let cleaned := cleanSourceFields sourceFields target in
      ~ In target cleaned /\
      (target = "" \/ cleaned = [] -> nestFields sourceFields targetField st = st) /\
      (forall activeFile,
          findActive (files st) (activeFileId st) = Some activeFile ->
          target <> "" -> cleaned <> [] ->
          option_map data
            (findActive (files (nestFields sourceFields targetField st))
               (activeFileId (nestFields sourceFields targetField st))) =
          Some (map (nestItem cleaned target) (data activeFile)))) /\
  (* the batch panel *)
  (forall nestTargetField nestSelectedFields,
      let target := Str.trim nestTargetField in
      (forall action,
          panelNestFields nestTargetField nestSelectedFields = Some action ->
          exists sourceFields,
            action = NestFields sourceFields target /\
            ~ In target sourceFields /\ sourceFields <> [] /\ target <> "") /\
      (target = "" \/ (forall f, In f nestSelectedFields -> f = target) ->
       panelNestFields nestTargetField nestSelectedFields = None)) /\
  (* nesting a list without the target *)
  (forall fields target item,
      ~ In target fields ->
      match nestItem fields target item with
      | VObj next =>
          exists record targetObject,
            item = VObj record /\
            obj_get next target = Some (VObj targetObject) /\
            obj_get targetObject target =
            match obj_read record target with
            | VObj existing => obj_get existing target
            | _ => None
            end
      | other => other = item
      end) /\
  (* the worker *)
  (forall data sourceFields targetField,
      targetField = "" \/ sourceFields = [] ->
      option_map fst (applyBatch data (NestFields sourceFields targetField)) =
      Some data).
Proof.
  repeat apply conj.
  - intros sourceFields targetField st target cleaned. repeat apply conj.
    + apply filter_excludes.
    + intros H. unfold nestFields. fold target. fold cleaned.
      destruct (findActive (files st) (activeFileId st)); auto.
      destruct (activeFileId st); auto.
      destruct H as [H|H].
      * apply nonEmpty_false in H. now rewrite H.
      * apply length_zero_nil in H. rewrite H. now rewrite orb_true_r.
    + intros activeFile Hactive Ht Hc. unfold nestFields.
      fold target. fold cleaned. rewrite Hactive.
      destruct (activeFileId st) as [fid|] eqn:Hid; [|discriminate].
      destruct (Str.nonEmpty target) eqn:E1;
        [|apply nonEmpty_false in E1; contradiction].
      destruct (length cleaned =? 0)%nat eqn:E2;
        [apply length_zero_nil in E2; contradiction|].
      simpl. unfold findActive in *. rewrite find_updateActive by reflexivity.
      now rewrite Hactive.
  - intros nestTargetField nestSelectedFields target. split.
    + intros action. unfold panelNestFields. fold target.
      destruct (Str.nonEmpty target) eqn:E1; simpl; [|discriminate].
      destruct (length _ =? 0)%nat eqn:E2; [discriminate|].
      intros [= <-]. eexists. repeat split.
      * apply filter_excludes.
      * intros H. apply length_zero_nil in H. congruence.
      * intros H. apply nonEmpty_false in H. congruence.
    + intros H. unfold panelNestFields. fold target. destruct H as [H|H].
      * apply nonEmpty_false in H. now rewrite H.
      * replace (filter _ nestSelectedFields) with (@nil string);
          [now rewrite orb_true_r|].
        symmetry. induction nestSelectedFields as [|f r IH]; simpl; auto.
        rewrite (H f (or_introl eq_refl)), String.eqb_refl. simpl.
        apply IH. intros g Hg. apply H. now right.
  - intros fields target item Hn. destruct item; simpl; auto.
    destruct (nestRecord_target fields target props Hn) as (o & H1 & H2).
    exists props, o. auto.
  - intros data sourceFields targetField H.
    rewrite <- (map_id data) at 2. apply applyBatch_map. intros item _.
    unfold transformItem. destruct item; simpl; auto.
    destruct H as [->| ->]; simpl; auto.
    now rewrite orb_true_r.
Qed.

End NestFacts.

(** ** Committing the filter *)

Section CommitFacts.
Context `{JC : JsonCodec}.

Lemma recalculateFilteredData_total (st : FileState) :
  (forall activeFile,
      findActive (files st) (activeFileId st) = Some activeFile ->
      Forall (fun record =>
                JSON_stringify record <> None /\
                forall fieldName, fieldValueOf record fieldName <> None)
        (data activeFile)) ->
  recalculateFilteredData st <> None.
Proof.
  intros H. unfold recalculateFilteredData.
  destruct (findActive (files st) (activeFileId st)) as [activeFile|]; [|discriminate].
  destruct (negb (hasFilters (searchQuery st) (filterGroups st))); [discriminate|].
  pose proof (collectMatches_total (searchQuery st) (filterGroups st)
                (data activeFile) (H activeFile eq_refl) 0%N []) as Hc.
  destruct (collectMatches _ _ _ _ _); [discriminate | contradiction].
Qed.

(** What [commitFilterToData] writes into the active file: the records at
    the matched indices when there are any, the whole dataset otherwise. *)
Lemma commitFilterToData_data (st : FileState) (activeFile : FileSource) :
  findActive (files st) (activeFileId st) = Some activeFile ->
  hasFilters (searchQuery st) (filterGroups st) = true ->
  let st' := fst (commitFilterToData st) in
  snd (commitFilterToData st) = true /\
  option_map data (findActive (files st') (activeFileId st')) =
    Some (map jsonClone
            (match filteredIndices st with
             | [] => data activeFile
             | indices => map (arr_read (data activeFile)) indices
             end)) /\
  searchQuery st' = "" /\ filterGroups st' = [] /\ filteredIndices st' = [].
Proof.
  intros Hactive Hfilters. unfold commitFilterToData.
  rewrite Hactive.
  destruct (activeFileId st) as [fid|] eqn:Hid; [|discriminate].
  rewrite Hfilters. cbn [negb].
  cbn [fst snd files activeFileId searchQuery filterGroups filteredIndices].
  repeat split.
  unfold findActive in *. rewrite find_updateActive by reflexivity.
  rewrite Hactive. cbn [option_map withData data].
  destruct (filteredIndices st); reflexivity.
Qed.

End CommitFacts.

(* ================================================================== *)
(** * Further properties of the path edits *)
(* ================================================================== *)

Section ObjectPathMore.
Context `{JE : JsNumberEq}.

Lemma getAtPath_app (v : Value) (p q : list PathPart) :
  getAtPath v (p ++ q)%list = getAtPath (getAtPath v p) q.
Proof. unfold getAtPath. apply fold_left_app. Qed.

Lemma getAtPath_setAtPath_same (v : Value) (p : list PathPart) (x : Value) :
  getAtPath (setAtPath v p x) p = x.
Proof.
  revert v. induction p as [|head rest IH]; intros v; [reflexivity|].
  destruct (setAtPath_head v head rest x) as [t Ht].
  unfold getAtPath in *. cbn [fold_left]. rewrite Ht. apply IH.
Qed.

Lemma removelast_snoc {A : Type} (l : list A) (x : A) :
  removelast (l ++ [x])%list = l.
Proof. apply removelast_last. Qed.

Lemma lastPart_snoc (p : list PathPart) (part : PathPart) :
  lastPart (p ++ [part])%list = part.
Proof. unfold lastPart. apply last_last. Qed.

Lemma snoc_cons {A : Type} (l : list A) (x : A) :
  exists y r, (l ++ [x])%list = y :: r.
Proof. destruct l; simpl; eauto. Qed.

Lemma nth_list_write_other (l : list Value) (i j : nat) (v : Value) :
  i <> j -> nth j (list_write l i v) VUndef = nth j l VUndef.
Proof.
  revert l j. induction i as [|i IH]; intros l j H.
  - destruct j as [|j]; [congruence|]. destruct l; simpl; auto. now destruct j.
  - destruct j as [|j]; destruct l as [|y r]; simpl; auto;
      rewrite IH by congruence; auto. now destruct j.
Qed.

Lemma length_list_write (l : list Value) (i : nat) (v : Value) :
  length (list_write l i v) = Nat.max (length l) (S i).
Proof.
  revert l. induction i as [|i IH]; intros [|x r]; simpl;
    try rewrite IH; simpl; lia.
Qed.

(** X1. A write below one key of a mapping leaves every other key of the
    mapping as it was; a write below one index of an array leaves every
    other index as it was and lengthens the array just enough to hold the
    index. *)
Theorem setAtPath_frame (head : PathPart) (rest : list PathPart) (x : Value) :
  (forall props k,
      k <> objectKey head ->
      exists props',
        setAtPath (VObj props) (head :: rest) x = VObj props' /\
        obj_get props' k = obj_get props k) /\
  (forall elems named i,
      Str.parseIndex (arrayKey head) = Some i ->
      exists elems',
        setAtPath (VArr elems named) (head :: rest) x = VArr elems' [] /\
        length elems' = Nat.max (length elems) (S (N.to_nat i)) /\
        forall j, j <> i -> arr_read elems' j = arr_read elems j).
Proof.
  split.
  - intros props k Hk. eexists. split; [reflexivity|].
    apply obj_get_set_other. congruence.
  - intros elems named i Hi. cbn [setAtPath setInContainer]. rewrite Hi.
    eexists. split; [reflexivity|]. split.
    + apply length_list_write.
    + intros j Hj. apply nth_list_write_other. intros H. apply Hj.
      now apply N2Nat.inj.
Qed.

Lemma obj_set_read_same (o : Obj) (k : string) :
  obj_has o k = true -> obj_set o k (obj_read o k) = o.
Proof.
  unfold obj_has, obj_read. induction o as [|[k' v'] r IH]; simpl; [discriminate|].
  destruct (String.eqb k' k) eqn:E; auto.
  intros H. f_equal. apply IH, H.
Qed.

Lemma list_write_nth (l : list Value) (i : nat) :
  (i < length l)%nat -> list_write l i (nth i l VUndef) = l.
Proof.
  revert l. induction i as [|i IH]; intros [|x r] H; simpl in *; try lia; auto.
  f_equal. apply IH. lia.
Qed.

(** X2. Writing back the value read at a path changes nothing, when the
    path leads through existing keys and elements. *)
Theorem setAtPath_of_getAtPath (v : Value) (p : list PathPart) :
  pathPresent v p = true -> setAtPath v p (getAtPath v p) = v.
Proof.
  revert v. induction p as [|head rest IH]; intros v Hp; [reflexivity|].
  destruct v as [| | | | |elems named|props]; simpl in Hp; try discriminate.
  - destruct named; [|discriminate].
    cbn [setAtPath setInContainer]. unfold getAtPath. cbn [fold_left getStep].
    destruct (Str.parseIndex (arrayKey head)) as [index|]; [|discriminate].
    apply andb_prop in Hp as [Hlen Hrest]. apply Nat.ltb_lt in Hlen.
    fold (getAtPath (arr_read elems index) rest). rewrite IH by assumption.
    unfold arr_write, arr_read. now rewrite list_write_nth.
  - apply andb_prop in Hp as [Hhas Hrest].
    cbn [setAtPath setInContainer]. unfold getAtPath. cbn [fold_left getStep].
    fold (getAtPath (obj_read props (objectKey head)) rest).
    rewrite IH by assumption. now rewrite obj_set_read_same.
Qed.

Lemma obj_get_del_same (o : Obj) (k : string) : obj_get (obj_del o k) k = None.
Proof.
  induction o as [|[k' v'] r IH]; simpl; auto.
  destruct (String.eqb k' k) eqn:E; simpl; auto. now rewrite E.
Qed.

(** X3. Removing a key of a mapping: the mapping at the parent path loses
    that key and keeps every other key with its value; and the removed path
    reads as missing afterwards, when the key is not the name of a member
    of [Object.prototype] (the read of such a name finds the inherited
    member once the key is gone). *)
Theorem removeAtPath_mapping (v : Value) (parentPath : list PathPart)
    (key : PathPart) (parent : Obj) :
  getAtPath v parentPath = VObj parent ->
  let v' := removeAtPath v (parentPath ++ [key])%list in
  getAtPath v' parentPath = VObj (obj_del parent (objectKey key)) /\
  (inherited (objectKey key) = false ->
   getAtPath v' (parentPath ++ [key])%list = VUndef) /\
  (forall k, k <> objectKey key ->
             obj_get (obj_del parent (objectKey key)) k = obj_get parent k).
Proof.
  intros Hparent v'. subst v'. unfold removeAtPath.
  destruct (snoc_cons parentPath key) as (y & r & Hyr). rewrite Hyr, <- Hyr.
  rewrite removelast_snoc, lastPart_snoc, Hparent.
  assert (getAtPath (setAtPath v parentPath (VObj (obj_del parent (objectKey key))))
            parentPath = VObj (obj_del parent (objectKey key))) as Hget
      by apply getAtPath_setAtPath_same.
  repeat split.
  - exact Hget.
  - intros _. rewrite getAtPath_app, Hget. unfold getAtPath.
    cbn [fold_left getStep]. unfold obj_read. now rewrite obj_get_del_same.
  - intros k Hk. apply obj_get_del_other. congruence.
Qed.

Lemma dropIndex_past (elems : list Value) (idx i : N) (index : num) :
  (forall a, num_strictEq (num_ofN a) index = N.eqb a i) ->
  (i < idx)%N -> dropIndex elems idx index = elems.
Proof.
  intros Hidx. revert idx. induction elems as [|x r IH]; intros idx Hlt; simpl; auto.
  rewrite Hidx. destruct (N.eqb_spec idx i); [lia|]. f_equal. apply IH. lia.
Qed.

Lemma dropIndex_at (elems : list Value) (idx i : N) (index : num) :
  (forall a, num_strictEq (num_ofN a) index = N.eqb a i) ->
  (idx <= i)%N ->
  dropIndex elems idx index =
  (firstn (N.to_nat (i - idx)) elems ++ skipn (S (N.to_nat (i - idx))) elems)%list.
Proof.
  intros Hidx. revert idx. induction elems as [|x r IH]; intros idx Hle; simpl.
  - now rewrite firstn_nil.
  - rewrite Hidx. destruct (N.eqb_spec idx i) as [->|Hne].
    + rewrite N.sub_diag. simpl. apply (dropIndex_past r _ i); auto. lia.
    + rewrite IH by lia.
      replace (N.to_nat (i - idx)) with (S (N.to_nat (i - N.succ idx))) by lia.
      reflexivity.
Qed.

(** X4. Removing an element of an array: when the last segment is the
    number [i], the array at the parent path becomes the elements before
    position [i] followed by the elements after it (all of them when [i] is
    past the end).  The array has no undefined element. *)
Theorem removeAtPath_array (v : Value) (parentPath : list PathPart)
    (key : PathPart) (elems : list Value) (named : Obj) (i : N) :
  (forall a, num_strictEq (num_ofN a) (indexNumber key) = N.eqb a i) ->
  num_isNaN (indexNumber key) = false ->
  ~ In VUndef elems ->
  getAtPath v parentPath = VArr elems named ->
  let v' := removeAtPath v (parentPath ++ [key])%list in
  let remaining := (firstn (N.to_nat i) elems ++ skipn (S (N.to_nat i)) elems)%list in
  getAtPath v' parentPath = VArr remaining [] /\
  ((N.to_nat i < length elems)%nat -> S (length remaining) = length elems) /\
  ((length elems <= N.to_nat i)%nat -> remaining = elems).
Proof.
  intros Hidx Hnan _ Hparent v' remaining. subst v'. unfold removeAtPath.
  destruct (snoc_cons parentPath key) as (y & r & Hyr). rewrite Hyr, <- Hyr.
  rewrite removelast_snoc, lastPart_snoc, Hparent.
  fold (indexNumber key). rewrite Hnan.
  rewrite (dropIndex_at elems 0 i) by (auto; lia). rewrite N.sub_0_r.
  fold remaining. repeat split.
  - apply getAtPath_setAtPath_same.
  - intros Hlt. subst remaining. rewrite length_app, length_firstn, length_skipn. lia.
  - intros Hge. subst remaining. rewrite firstn_all2 by lia.
    rewrite skipn_all2 by lia. apply app_nil_r.
Qed.

Lemma renameEntries_fresh (oldKey newKey : string) (record next : Obj) :
  let rename := fun k : string => if String.eqb k oldKey then newKey else k in
  NoDup (map fst next ++ map rename (map fst record))%list ->
  fold_left
    (fun next kv =>
       if String.eqb (fst kv) oldKey then obj_set next newKey (snd kv)
       else obj_set next (fst kv) (snd kv))
    record next =
  (next ++ map (fun kv => (rename (fst kv), snd kv)) record)%list.
Proof.
  intros rename. revert next.
  induction record as [|[k w] r IH]; intros next Hnd; simpl.
  - now rewrite app_nil_r.
  - assert (~ In (rename k) (map fst next)) as Hfresh.
    { simpl in Hnd. apply NoDup_remove_2 in Hnd. intros Hin. apply Hnd.
      apply in_or_app. now left. }
    assert ((if String.eqb k oldKey then obj_set next newKey w else obj_set next k w)
            = (next ++ [(rename k, w)])%list) as ->.
    { subst rename. cbv beta in *. destruct (String.eqb k oldKey);
        now apply obj_set_fresh. }
    rewrite IH.
    + now rewrite <- app_assoc.
    + rewrite map_app, <- app_assoc. exact Hnd.
Qed.

Lemma NoDup_map_rename (oldKey newKey : string) (keys : list string) :
  NoDup keys -> newKey = oldKey \/ ~ In newKey keys ->
  NoDup (map (fun k : string => if String.eqb k oldKey then newKey else k) keys).
Proof.
  intros Hnd [->|Hnew].
  - erewrite map_ext; [rewrite map_id; exact Hnd|].
    intros k. cbv beta. destruct (String.eqb_spec k oldKey); congruence.
  - induction Hnd as [|k r Hk Hr IH]; simpl; constructor.
    + intros Hin. apply in_map_iff in Hin as (k' & Hk' & Hin').
      destruct (String.eqb_spec k oldKey), (String.eqb_spec k' oldKey); subst.
      * contradiction.
      * apply Hnew. now right.
      * apply Hnew. now left.
      * contradiction.
    + apply IH. intros H. apply Hnew. now right.
Qed.

(** X5. Renaming a key of a mapping whose keys are distinct and plain, to
    a plain name the mapping does not use yet: the mapping at the parent
    path keeps its entries in order, with the old key replaced by the new
    one in place; the new path reads the value the old path held.  (An
    array index as a key would move to the front of the rebuilt mapping,
    and the assignment of a key [__proto__] would store nothing.)  A target
    is returned as it is when the new name is empty, when the parent path,
    free of names of [Object.prototype] members, does not lead to a
    mapping, or when the mapping lacks the old key and the key is no such
    name. *)
Theorem renameKeyAtPath_in_place (v : Value) (parentPath : list PathPart)
    (key : PathPart) (newKey : string) :
  let path := (parentPath ++ [key])%list in
  (forall parent,
      getAtPath v parentPath = VObj parent ->
      NoDup (map fst parent) ->
      obj_has parent (objectKey key) = true ->
      newKey <> "" ->
      newKey = objectKey key \/ ~ In newKey (map fst parent) ->
      Forall (fun k => plainKey k = true) (newKey :: map fst parent) ->
      let v' := renameKeyAtPath v path newKey in
      getAtPath v' parentPath =
        VObj (map (fun kv => (if String.eqb (fst kv) (objectKey key) then newKey
                              else fst kv, snd kv)) parent) /\
      getAtPath v' (parentPath ++ [PStr newKey])%list = getAtPath v path) /\
  (newKey = "" -> renameKeyAtPath v path newKey = v) /\
  (isMapping (getAtPath v parentPath) = false ->
   Forall (fun part => inherited (objectKey part) = false) parentPath ->
   renameKeyAtPath v path newKey = v) /\
  (forall parent,
      getAtPath v parentPath = VObj parent ->
      obj_has parent (objectKey key) = false ->
      inherited (objectKey key) = false ->
      renameKeyAtPath v path newKey = v).
Proof.
  intros path. subst path. unfold renameKeyAtPath.
  destruct (snoc_cons parentPath key) as (y & r & Hyr). rewrite Hyr, <- Hyr.
  rewrite removelast_snoc, lastPart_snoc. repeat apply conj.
  - intros parent Hparent Hnd Hhas Hne Hnew _. cbv zeta.
    destruct (Str.nonEmpty newKey) eqn:E; [|apply nonEmpty_false in E; contradiction].
    cbn [negb]. rewrite Hparent, Hhas. cbn [negb].
    assert (renameEntries (objectKey key) newKey parent =
            map (fun kv => (if String.eqb (fst kv) (objectKey key) then newKey
                            else fst kv, snd kv)) parent) as Hren.
    { unfold renameEntries. rewrite renameEntries_fresh; [reflexivity|].
      simpl. now apply NoDup_map_rename. }
    rewrite Hren.
    assert (forall x, getAtPath (setAtPath v parentPath x) parentPath = x) as Hget
        by (intros; apply getAtPath_setAtPath_same).
    split; [apply Hget|].
    rewrite !getAtPath_app, Hget, Hparent. unfold getAtPath.
    cbn [fold_left getStep objectKey]. unfold obj_read, obj_has in *.
    clear Hren Hget Hparent Hnd.
    induction parent as [|[k w] rest IH]; simpl in *; [discriminate|].
    destruct (String.eqb_spec k (objectKey key)) as [->|Hk].
    + now rewrite String.eqb_refl.
    + destruct (String.eqb_spec k newKey) as [->|Hk'].
      * destruct Hnew as [->|Hnew]; [congruence|]. exfalso. apply Hnew. now left.
      * apply IH; auto. destruct Hnew as [->|Hnew]; [now left|].
        right. intros H. apply Hnew. now right.
  - intros ->. reflexivity.
  - intros Hm _. destruct (Str.nonEmpty newKey); auto. cbn [negb].
    destruct (getAtPath v parentPath); auto. discriminate.
  - intros parent Hparent Hhas _. destruct (Str.nonEmpty newKey); auto. cbn [negb].
    now rewrite Hparent, Hhas.
Qed.

(** X6. Adding an entry to the mapping at a path makes the path extended
    by the key read the added value and keeps the other keys; adding an
    item to the array at a path appends it; a target whose value at the path
    is not of the expected kind is returned as it is. *)
Theorem add_at_path (v : Value) (path : list PathPart) (key : string) (x : Value) :
  (forall node,
      getAtPath v path = VObj node ->
      let v' := addObjectEntryAtPath v path key x in
      getAtPath v' (path ++ [PStr key])%list = x /\
      forall k, k <> key ->
                getAtPath v' (path ++ [PStr k])%list = getAtPath v (path ++ [PStr k])%list) /\
  (forall node named,
      getAtPath v path = VArr node named ->
      getAtPath (addArrayItemAtPath v path x) path = VArr (node ++ [x])%list []) /\
  (isMapping (getAtPath v path) = false -> addObjectEntryAtPath v path key x = v) /\
  ((forall node named, getAtPath v path <> VArr node named) ->
   addArrayItemAtPath v path x = v).
Proof.
  repeat apply conj.
  - intros node Hnode v'. subst v'. unfold addObjectEntryAtPath. rewrite Hnode.
    split.
    + rewrite getAtPath_app, getAtPath_setAtPath_same. unfold getAtPath.
      cbn [fold_left getStep objectKey]. apply obj_read_set_same.
    + intros k Hk. rewrite !getAtPath_app, getAtPath_setAtPath_same, Hnode.
      unfold getAtPath. cbn [fold_left getStep objectKey]. unfold obj_read.
      rewrite obj_get_set_other; auto.
  - intros node named Hnode. unfold addArrayItemAtPath. rewrite Hnode.
    apply getAtPath_setAtPath_same.
  - intros Hm. unfold addObjectEntryAtPath.
    destruct (getAtPath v path); auto. discriminate.
  - intros Hn. unfold addArrayItemAtPath.
    destruct (getAtPath v path) eqn:E; auto. exfalso. eapply Hn. reflexivity.
Qed.

End ObjectPathMore.

(* ================================================================== *)
(** * Further properties of the batch worker *)
(* ================================================================== *)

Lemma occurs_app (c : ascii) (a b : string) :
  occurs c (a ++ b) = occurs c a || occurs c b.
Proof.
  induction a as [|d r IH]; simpl; auto. rewrite IH. now rewrite orb_assoc.
Qed.

Lemma escapeChar_clean (c d : ascii) :
  In c [Chars.newline; Chars.carriageReturn; Chars.tab] ->
  occurs c (escapeChar d) = false.
Proof.
  intros [<-|[<-|[<-|[]]]];
    destruct d as [[] [] [] [] [] [] [] []]; reflexivity.
Qed.

(** X11. An escaped string holds no line feed, no carriage return and no
    tab: it fits on one line. *)
Theorem escapeStringValue_single_line (s : string) (c : ascii) :
  In c [Chars.newline; Chars.carriageReturn; Chars.tab] ->
  occurs c (escapeStringValue s) = false.
Proof.
  intros Hc. induction s as [|d r IH]; [reflexivity|].
  rewrite escapeStringValue_cons, occurs_app, IH, escapeChar_clean; auto.
Qed.

Lemma unescape_cons_other (c : ascii) (r : string) :
  Ascii.eqb c Chars.backslash = false ->
  unescapeStringValue (String c r) = String c (unescapeStringValue r).
Proof. intros H. destruct r; simpl; rewrite ?H; reflexivity. Qed.

Lemma unescape_two (c d : ascii) (after : string) :
  (exists x, unescapeStringValue (String c (String d after)) =
             String x (unescapeStringValue after)) \/
  unescapeStringValue (String c (String d after)) =
  String c (unescapeStringValue (String d after)).
Proof.
  change (unescapeStringValue (String c (String d after))) with
    (if Ascii.eqb c Chars.backslash then
       if Ascii.eqb d "n" then String Chars.newline (unescapeStringValue after)
       else if Ascii.eqb d "t" then String Chars.tab (unescapeStringValue after)
       else if Ascii.eqb d "r" then String Chars.carriageReturn (unescapeStringValue after)
       else if Ascii.eqb d Chars.quote then String Chars.quote (unescapeStringValue after)
       else if Ascii.eqb d Chars.apostrophe
            then String Chars.apostrophe (unescapeStringValue after)
       else if Ascii.eqb d Chars.backslash
            then String Chars.backslash (unescapeStringValue after)
       else String c (unescapeStringValue (String d after))
     else String c (unescapeStringValue (String d after))).
  repeat match goal with
    | |- context [if ?b then _ else _] => destruct b
    end; eauto.
Qed.

Lemma unescape_length_bound (n : nat) (s : string) :
  (String.length s <= n)%nat ->
  (String.length (unescapeStringValue s) <= String.length s)%nat.
Proof.
  revert s. induction n as [|n IH]; intros s Hn.
  - destruct s; simpl in *; lia.
  - destruct s as [|c [|d after]]; [simpl; lia | simpl; lia |].
    assert (String.length (unescapeStringValue after) <= String.length after)%nat
      by (apply IH; simpl in *; lia).
    assert (String.length (unescapeStringValue (String d after))
            <= String.length (String d after))%nat by (apply IH; simpl in *; lia).
    destruct (unescape_two c d after) as [[x ->]| ->]; cbn [String.length] in *; lia.
Qed.

(** X12. Unescaping never makes a string longer, and a string without a
    backslash is returned as it is. *)
Theorem unescapeStringValue_shrinks (s : string) :
  (String.length (unescapeStringValue s) <= String.length s)%nat /\
  (occurs Chars.backslash s = false -> unescapeStringValue s = s).
Proof.
  split.
  - apply (unescape_length_bound (String.length s)). lia.
  - induction s as [|c r IH]; [reflexivity|]. simpl occurs.
    intros H. apply orb_false_elim in H as [Hc Hr].
    rewrite unescape_cons_other by assumption. now rewrite IH.
Qed.

Section WorkerMore.
Context `{JC : JsonCodec}.

Lemma obj_get_has (o : Obj) (k : string) :
  obj_has o k = true -> obj_get o k = Some (obj_read o k).
Proof. unfold obj_has, obj_read. destruct (obj_get o k); congruence. Qed.

(** X9. [renameField]: a record without the old key is returned as it is,
    when the old key is not the name of a member of [Object.prototype]
    (which [from in record] finds in every record); renaming a key to itself
    removes the key; otherwise, for a new key other than [__proto__] (whose
    assignment stores nothing), the new key holds the value of the old key,
    the old key is gone and every other key keeps its value. *)
Theorem renameField_cases (from to : string) (record : Obj) :
  let out := transformItem (RenameField from to) (VObj record) in
  (obj_has record from = false -> inherited from = false ->
   out = Some (VObj record)) /\
  (obj_has record from = true -> from = to ->
   out = Some (VObj (obj_del record from))) /\
  (obj_has record from = true -> from <> to -> to <> "__proto__" ->
   exists next,
     out = Some (VObj next) /\
     obj_get next to = obj_get record from /\
     obj_get next from = None /\
     forall k, k <> from -> k <> to -> obj_get next k = obj_get record k).
Proof.
  cbv zeta. unfold transformItem. cbn [applyItem applyRecord]. repeat split.
  - intros H _. now rewrite H.
  - intros H <-. rewrite H. cbn [negb fst option_map]. do 2 f_equal.
    rewrite obj_set_read_same; auto.
  - intros H Hne _. rewrite H. cbn [negb fst option_map].
    eexists. split; [reflexivity|].
    repeat split.
    + rewrite obj_get_del_other by assumption.
      rewrite obj_get_set_same. symmetry. now apply obj_get_has.
    + apply obj_get_del_same.
    + intros k Hk Hk'. rewrite obj_get_del_other by congruence.
      apply obj_get_set_other. congruence.
Qed.

Lemma obj_read_del_other (o : Obj) (k k' : string) :
  k <> k' -> obj_read (obj_del o k) k' = obj_read o k'.
Proof. intros H. unfold obj_read. now rewrite obj_get_del_other. Qed.

(** Each of the distinct source fields ends up in the target object with
    the value the record held, and leaves the record. *)
Lemma nestLoop_moved (fields : list string) :
  NoDup fields ->
  forall targetObject next f,
    In f fields ->
    obj_get (fst (nestLoop fields targetObject next)) f = Some (obj_read next f) /\
    obj_get (snd (nestLoop fields targetObject next)) f = None.
Proof.
  unfold nestLoop.
  induction 1 as [|f0 r Hf0 Hr IH]; intros targetObject next f Hin; [destruct Hin|].
  simpl. destruct Hin as [<-|Hin].
  - destruct (nestLoop_other r f0 Hf0 (obj_set targetObject f0 (obj_read next f0))
                (obj_del next f0)) as [H1 H2].
    unfold nestLoop in H1, H2. rewrite H1, H2.
    now rewrite obj_get_set_same, obj_get_del_same.
  - destruct (IH (obj_set targetObject f0 (obj_read next f0)) (obj_del next f0) f Hin)
      as [H1 H2].
    rewrite H1, H2. split; auto. f_equal. apply obj_read_del_other.
    intros ->. contradiction.
Qed.

(** X10. [nestFields] in the worker, for distinct source fields that do not
    include the target, where neither the target is [__proto__] nor a source
    field the name of a member of [Object.prototype]: every source field
    leaves the top level and appears in the object stored under the target
    with the value the record held ([undefined] for a field the record
    lacks); the other keys of the record and of an existing target mapping
    keep their values. *)
Theorem nestFields_moves_values (fields : list string) (target : string)
    (record : Obj) :
  NoDup fields -> ~ In target fields -> target <> "" -> fields <> [] ->
  target <> "__proto__" -> Forall (fun f => inherited f = false) fields ->
  exists next targetObject,
    transformItem (NestFields fields target) (VObj record) = Some (VObj next) /\
    obj_get next target = Some (VObj targetObject) /\
    (forall f, In f fields ->
               obj_get next f = None /\
               obj_get targetObject f = Some (obj_read record f)) /\
    (forall k, ~ In k fields -> k <> target -> obj_get next k = obj_get record k) /\
    (forall k, ~ In k fields ->
               obj_get targetObject k =
               match obj_read record target with
               | VObj existing => obj_get existing k
               | _ => None
               end).
Proof.
  intros Hnd Htarget Hne Hfields _ _.
  unfold transformItem. cbn [applyItem applyRecord].
  destruct (Str.nonEmpty target) eqn:E; [|apply nonEmpty_false in E; contradiction].
  destruct (length fields =? 0)%nat eqn:E2;
    [apply length_zero_nil in E2; contradiction|].
  cbn [negb orb fst option_map]. unfold nestRecord.
  set (start := match obj_read record target with VObj e => e | _ => [] end).
  pose proof (nestLoop_moved fields Hnd start record) as Hmoved.
  pose proof (fun k H => nestLoop_other fields k H start record) as Hother.
  destruct (nestLoop fields start record) as [targetObject next]. simpl in *.
  exists (obj_set next target (VObj targetObject)), targetObject.
  split; [reflexivity|]. split; [apply obj_get_set_same|]. repeat split.
  - rewrite obj_get_set_other by (intros ->; contradiction).
    apply (Hmoved f H).
  - apply (Hmoved f H).
  - intros k Hk Hkt. rewrite obj_get_set_other by congruence. apply (Hother k Hk).
  - intros k Hk. rewrite (proj1 (Hother k Hk)). subst start.
    destruct (obj_read record target); reflexivity.
Qed.

Lemma In_dedupe (l seen : list string) (x : string) :
  In x (dedupe l seen) <-> In x l /\ ~ In x seen.
Proof.
  revert seen. induction l as [|y r IH]; intros seen; simpl; [tauto|].
  destruct (existsb (String.eqb y) seen) eqn:E.
  - rewrite IH. apply existsb_exists in E as (z & Hz & Hyz).
    apply String.eqb_eq in Hyz. subst z.
    split; [tauto|]. intros [[->|H] Hn]; [contradiction | tauto].
  - assert (~ In y seen) as Hy.
    { intros H. assert (existsb (String.eqb y) seen = true) as H'.
      { apply existsb_exists. exists y. split; auto. apply String.eqb_refl. }
      congruence. }
    simpl. rewrite IH. simpl. split.
    + intros [->|[H Hn]]; [tauto|]. split; [tauto|]. tauto.
    + intros [[->|H] Hn]; [tauto|].
      destruct (string_dec y x) as [->|Hne]; [tauto|]. right. split; auto.
      intros [H'|H']; [contradiction | tauto].
Qed.

Lemma existsb_eqb_In (k : string) (l : list string) :
  existsb (String.eqb k) l = true <-> In k l.
Proof.
  rewrite existsb_exists. split.
  - intros (x & Hx & E). apply String.eqb_eq in E. now subst.
  - intros H. exists k. split; auto. apply String.eqb_refl.
Qed.

(** The first loop of [keyReorder]: the keys of [order] that the record
    has, first occurrences, with the record's values. *)
Lemma keyReorder_first (record : Obj) (order : list string) :
  forall next seen,
    (forall x, obj_has record x = true -> (In x (map fst next) <-> In x seen)) ->
    map fst
      (fold_left
         (fun next key =>
            if obj_has record key then obj_set next key (obj_read record key) else next)
         order next) =
    (map fst next ++ filter (obj_has record) (dedupe order seen))%list.
Proof.
  induction order as [|k r IH]; intros next seen Hinv; simpl.
  - now rewrite app_nil_r.
  - destruct (obj_has record k) eqn:Hk.
    + destruct (existsb (String.eqb k) seen) eqn:Hseen.
      * assert (obj_has next k = true) as Hnext.
        { apply obj_has_In, Hinv; auto. now apply existsb_eqb_In. }
        rewrite (IH _ seen).
        -- now rewrite obj_set_keys, Hnext.
        -- intros x Hx. rewrite obj_set_keys, Hnext. auto.
      * assert (obj_has next k = false) as Hnext.
        { destruct (obj_has next k) eqn:E; auto.
          apply obj_has_In, Hinv, existsb_eqb_In in E; auto. congruence. }
        rewrite (IH _ (k :: seen)).
        -- rewrite obj_set_keys, Hnext. simpl. rewrite Hk.
           now rewrite <- app_assoc.
        -- intros x Hx. rewrite obj_set_keys, Hnext, in_app_iff. simpl.
           specialize (Hinv x Hx). tauto.
    + destruct (existsb (String.eqb k) seen) eqn:Hseen.
      * apply IH, Hinv.
      * rewrite (IH _ (k :: seen)).
        -- simpl. now rewrite Hk.
        -- intros x Hx. rewrite (Hinv x Hx). simpl. split; [tauto|].
           intros [<-|H]; [congruence | assumption].
Qed.

(** The second loop of [keyReorder]: the keys that are not there yet. *)
Lemma keyReorder_second (record : Obj) (keys : list string) :
  NoDup keys ->
  forall next,
    map fst
      (fold_left
         (fun next key =>
            if negb (obj_has next key) then obj_set next key (obj_read record key)
            else next)
         keys next) =
    (map fst next ++ filter (fun k => negb (obj_has next k)) keys)%list.
Proof.
  induction 1 as [|k r Hk Hr IH]; intros next; simpl.
  - now rewrite app_nil_r.
  - destruct (obj_has next k) eqn:E; simpl; [apply IH|].
    rewrite IH, obj_set_keys, E, <- app_assoc. simpl. do 2 f_equal.
    apply filter_ext_in. intros x Hx. f_equal.
    unfold obj_has. rewrite obj_get_set_other; auto.
    intros ->. contradiction.
Qed.

(** Both loops of [keyReorder] copy values of the record only. *)
Lemma keyReorder_values (record : Obj) (tests : Obj -> string -> bool)
    (keys : list string) :
  forall next,
    (forall k v, obj_get next k = Some v -> obj_get record k = Some v) ->
    (forall acc k, In k keys -> tests acc k = true -> obj_has record k = true) ->
    forall k v,
      obj_get
        (fold_left
           (fun next key =>
              if tests next key then obj_set next key (obj_read record key) else next)
           keys next) k = Some v ->
      obj_get record k = Some v.
Proof.
  induction keys as [|key r IH]; intros next Hinv Htests k v; simpl; [apply Hinv|].
  apply IH.
  - intros k' v'. destruct (tests next key) eqn:E; [|apply Hinv].
    destruct (string_dec key k') as [->|Hne].
    + rewrite obj_get_set_same. intros [= <-]. apply obj_get_has.
      eapply Htests; [now left | exact E].
    + rewrite obj_get_set_other by assumption. apply Hinv.
  - intros acc k' Hk'. apply Htests. now right.
Qed.

(** X7. [keyReorder] on a record with distinct plain keys, for an order
    that names no member of [Object.prototype]: the result lists first the
    keys of [order] that the record has (each once, at its first place in
    [order]), then the remaining keys of the record in their original
    order; and every key keeps its value.  (An array index as a key is
    enumerated first whatever the order, and [key in next] finds the name of
    an [Object.prototype] member in the empty object.) *)
Theorem keyReorder_order_and_values (order : list string) (record : Obj) :
  NoDup (map fst record) ->
  Forall (fun k => plainKey k = true) (map fst record) ->
  Forall (fun k => inherited k = false) order ->
  exists next,
    transformItem (KeyReorder order) (VObj record) = Some (VObj next) /\
    map fst next =
      (filter (obj_has record) (dedupe order []) ++
       filter (fun k => negb (existsb (String.eqb k) order)) (map fst record))%list /\
    forall k, obj_get next k = obj_get record k.
Proof.
  intros Hnd _ _. unfold transformItem. cbn [applyItem applyRecord fst option_map].
  eexists. split; [reflexivity|].
  set (first := fold_left
                  (fun next key =>
                     if obj_has record key then obj_set next key (obj_read record key)
                     else next) order []).
  assert (map fst first = filter (obj_has record) (dedupe order [])) as Hfirst.
  { subst first. rewrite (keyReorder_first record order [] []); [reflexivity|].
    intros x _. simpl. tauto. }
  assert (forall k, In k (map fst record) ->
                    negb (obj_has first k) = negb (existsb (String.eqb k) order))
    as Htest.
  { intros k Hk. f_equal. apply obj_has_In in Hk.
    destruct (obj_has first k) eqn:E1, (existsb (String.eqb k) order) eqn:E2; auto.
    - apply obj_has_In in E1. rewrite Hfirst in E1.
      apply filter_In in E1 as [E1 _]. apply In_dedupe in E1 as [E1 _].
      apply existsb_eqb_In in E1. congruence.
    - apply existsb_eqb_In in E2.
      assert (In k (map fst first)) as H.
      { rewrite Hfirst. apply filter_In. split; auto. apply In_dedupe. tauto. }
      apply obj_has_In in H. congruence. }
  split.
  - rewrite keyReorder_second by assumption. rewrite Hfirst. f_equal.
    now apply filter_ext_in.
  - intros k.
    set (final := fold_left
                    (fun next key =>
                       if negb (obj_has next key)
                       then obj_set next key (obj_read record key) else next)
                    (map fst record) first).
    assert (forall k v, obj_get final k = Some v -> obj_get record k = Some v) as Hval.
    { subst final.
      apply (keyReorder_values record (fun acc key => negb (obj_has acc key))).
      - subst first.
        apply (keyReorder_values record (fun _ key => obj_has record key)).
        + intros k' v'. discriminate.
        + auto.
      - intros acc k' Hk' _. now apply obj_has_In. }
    destruct (obj_get record k) as [v|] eqn:Hrec.
    + assert (In k (map fst final)) as Hin.
      { subst final. rewrite keyReorder_second by assumption.
        assert (In k (map fst record)) as Hk
            by (apply obj_has_In; unfold obj_has; now rewrite Hrec).
        apply in_or_app. destruct (obj_has first k) eqn:E.
        - left. now apply obj_has_In.
        - right. apply filter_In. split; auto. now rewrite E. }
      apply obj_has_In in Hin. unfold obj_has in Hin.
      destruct (obj_get final k) as [w|] eqn:Hfin; [|discriminate].
      apply Hval in Hfin. congruence.
    + destruct (obj_get final k) as [w|] eqn:Hfin; auto.
      apply Hval in Hfin. congruence.
Qed.

End WorkerMore.

(** ** How the string operations compose *)

Lemma unescape_after_escape (s : string) :
  unescapeStringValue (escapeStringValue s) = s.
Proof.
  induction s as [|c s IH]; [reflexivity|].
  rewrite escapeStringValue_cons, unescape_escapeChar. now rewrite IH.
Qed.

Section WorkerCompose.
Context `{JC : JsonCodec}.

Lemma obj_get_app_fresh (pre o : Obj) (k : string) :
  ~ In k (map fst pre) -> obj_get (pre ++ o)%list k = obj_get o k.
Proof.
  induction pre as [|[k' v'] r IH]; simpl; auto.
  intros H. destruct (String.eqb_spec k' k); [tauto|]. apply IH. tauto.
Qed.

Lemma obj_set_app_fresh (pre o : Obj) (k : string) (v : Value) :
  ~ In k (map fst pre) -> obj_set (pre ++ o)%list k v = (pre ++ obj_set o k v)%list.
Proof.
  induction pre as [|[k' v'] r IH]; simpl; auto.
  intros H. destruct (String.eqb_spec k' k); [tauto|]. f_equal. apply IH. tauto.
Qed.

(** A loop over the keys of a record that rewrites the value under each
    key rewrites the values in place. *)
Lemma rewrite_each_key (step : Obj -> string -> Obj) (g : Value -> Value) :
  (forall next key,
      obj_has next key = true ->
      step next key = obj_set next key (g (obj_read next key))) ->
  forall rest pre,
    NoDup (map fst pre ++ map fst rest)%list ->
    fold_left step (map fst rest) (pre ++ rest)%list =
    (pre ++ map (fun kv => (fst kv, g (snd kv))) rest)%list.
Proof.
  intros Hstep. induction rest as [|[k v] r IH]; intros pre Hnd; [reflexivity|].
  assert (~ In k (map fst pre)) as Hfresh.
  { apply NoDup_remove_2 in Hnd. intros H. apply Hnd. apply in_or_app. now left. }
  cbn [map fst snd fold_left]. rewrite Hstep.
  - unfold obj_read. rewrite obj_get_app_fresh by assumption.
    rewrite obj_set_app_fresh by assumption. cbn [obj_get obj_set].
    rewrite String.eqb_refl.
    change (pre ++ (k, g v) :: r)%list with (pre ++ [(k, g v)] ++ r)%list.
    rewrite app_assoc, IH.
    + now rewrite <- app_assoc.
    + rewrite map_app. cbn [map fst]. rewrite <- app_assoc. exact Hnd.
  - unfold obj_has. rewrite obj_get_app_fresh by assumption.
    cbn [obj_get]. now rewrite String.eqb_refl.
Qed.

Lemma escapeField_step (next : Obj) (key : string) :
  obj_has next key = true ->
  escapeField next key = obj_set next key (escapedValue (obj_read next key)).
Proof.
  intros H. unfold escapeField, escapedValue.
  destruct (obj_read next key) eqn:E; try reflexivity;
    try (rewrite <- E; now rewrite obj_set_read_same).
  - destruct (JSON_stringify _); auto. rewrite <- E. now rewrite obj_set_read_same.
  - destruct (JSON_stringify _); auto. rewrite <- E. now rewrite obj_set_read_same.
Qed.

(** X15. Without target keys, [escapeString] and [unescapeString] rewrite
    the values of a record with distinct keys in place, and unescaping
    after escaping gives back every record none of whose values is an
    array or object. *)
Theorem escape_then_unescape_record (record : Obj) :
  NoDup (map fst record) ->
  transformItem (EscapeString None None) (VObj record) =
    Some (VObj (map (fun kv => (fst kv, escapedValue (snd kv))) record)) /\
  transformItem (UnescapeString None None) (VObj record) =
    Some (VObj (map (fun kv => (fst kv, unescapedValue (snd kv))) record)) /\
  (Forall (fun kv => isObjectLike (snd kv) = false) record ->
   exists escaped,
     transformItem (EscapeString None None) (VObj record) = Some escaped /\
     transformItem (UnescapeString None None) escaped = Some (VObj record)).
Proof.
  intros Hnd.
  assert (forall r : Obj, NoDup (map fst r) ->
            transformItem (EscapeString None None) (VObj r) =
            Some (VObj (map (fun kv => (fst kv, escapedValue (snd kv))) r))) as Hesc.
  { intros r Hr. unfold transformItem.
    cbn [applyItem applyRecord targetKeysOf fst option_map].
    do 2 f_equal.
    exact (rewrite_each_key escapeField escapedValue escapeField_step r [] Hr). }
  assert (forall r : Obj, NoDup (map fst r) ->
            transformItem (UnescapeString None None) (VObj r) =
            Some (VObj (map (fun kv => (fst kv, unescapedValue (snd kv))) r))) as Hun.
  { intros r Hr. unfold transformItem.
    cbn [applyItem applyRecord targetKeysOf fst option_map].
    do 2 f_equal.
    refine (rewrite_each_key
              (fun next key =>
                 match obj_get next key with
                 | Some (VStr current) =>
                     obj_set next key (VStr (unescapeStringValue current))
                 | _ => next
                 end) unescapedValue _ r [] Hr).
    intros next key H. unfold obj_read, obj_has in *.
    destruct (obj_get next key) as [w|] eqn:E; [|discriminate].
    assert (obj_set next key w = next) as Hsame.
    { pose proof (obj_set_read_same next key) as Hs. unfold obj_has, obj_read in Hs.
      rewrite E in Hs. auto. }
    destruct w; simpl; auto. }
  repeat split; auto.
  intros Hflat. eexists. split; [now apply Hesc|]. rewrite Hun.
  - do 2 f_equal. rewrite map_map. rewrite <- (map_id record) at 2.
    apply map_ext_in. intros [k v] Hkv. cbn [fst snd]. f_equal.
    rewrite Forall_forall in Hflat. specialize (Hflat _ Hkv). cbn [snd] in Hflat.
    destruct v; try discriminate; try reflexivity.
    cbn [escapedValue unescapedValue]. now rewrite unescape_after_escape.
  - rewrite map_map. cbn [fst]. exact Hnd.
Qed.

Section WithParser.
Hypothesis parser_shrinks : ParserShrinks.

Lemma smartParseValue_settled (v : Value) : settled (smartParseValue v).
Proof. apply smartParseFuel_settled; auto. Qed.

Lemma smartParseValue_fixed (v : Value) : settled v -> smartParseValue v = v.
Proof. intros H. now apply settled_fixed. Qed.

Lemma parseTargets_settled (keys : list string) :
  forall record done,
    (forall k, In k done -> obj_has record k = true -> settled (obj_read record k)) ->
    forall k, In k (done ++ keys)%list ->
              obj_has (parseTargets keys record) k = true ->
              settled (obj_read (parseTargets keys record) k).
Proof.
  unfold parseTargets.
  induction keys as [|key r IH]; intros record done Hdone k Hk; simpl.
  - rewrite app_nil_r in Hk. now apply Hdone.
  - apply (IH _ (done ++ [key])%list); [|now rewrite <- app_assoc].
    intros k' Hk'. apply in_app_or in Hk' as [Hk'|[<-|[]]].
    + destruct (obj_has record key) eqn:E; [|now apply Hdone].
      destruct (string_dec key k') as [<-|Hne].
      * intros _. rewrite obj_read_set_same. apply smartParseValue_settled.
      * unfold obj_has, obj_read. rewrite obj_get_set_other by assumption.
        now apply Hdone.
    + destruct (obj_has record key) eqn:E; [|congruence].
      intros _. rewrite obj_read_set_same. apply smartParseValue_settled.
Qed.

Lemma parseTargets_fixed (keys : list string) (record : Obj) :
  (forall k, In k keys -> obj_has record k = true -> settled (obj_read record k)) ->
  parseTargets keys record = record.
Proof.
  unfold parseTargets. induction keys as [|key r IH]; intros H; simpl; auto.
  destruct (obj_has record key) eqn:E.
  - rewrite smartParseValue_fixed by (apply H; [now left | assumption]).
    rewrite obj_set_read_same by assumption. apply IH.
    intros k Hk. apply H. now right.
  - apply IH. intros k Hk. apply H. now right.
Qed.

(** X16. The [parseJSON] operation is idempotent on every record, with or
    without target keys: applying it to its own result changes nothing. *)
Theorem parseJSON_operation_idempotent (key : option string)
    (targetKeys : option (list string)) (item : Value) :
  let action := ParseJSON key targetKeys in
  exists out,
    transformItem action item = Some out /\
    transformItem action out = Some out.
Proof.
  cbv zeta. destruct item as [| | | | | |record];
    try (eexists; split; reflexivity).
  unfold transformItem. cbn [applyItem applyRecord].
  destruct (targetKeysOf targetKeys key) as [|k ks] eqn:Hkeys.
  - cbn [fst option_map].
    assert (exists o, smartParseValue (VObj record) = VObj o) as [o Ho]
        by (unfold smartParseValue; rewrite smartParseFuel_obj; eauto).
    eexists. split; [reflexivity|].
    rewrite Ho. cbn [applyItem applyRecord]. rewrite Hkeys. cbn [fst option_map].
    f_equal. rewrite <- Ho. apply smartParseValue_fixed, smartParseValue_settled.
  - cbn [fst option_map]. eexists. split; [reflexivity|].
    cbn [applyItem applyRecord]. rewrite Hkeys. cbn [fst option_map]. do 2 f_equal.
    apply (parseTargets_fixed (k :: ks)).
    intros k' Hk'. apply (parseTargets_settled (k :: ks) record []); auto.
    intros ? [].
Qed.

End WithParser.

End WorkerCompose.

(** ** Flattening *)

Section FlattenFacts.
Context `{JC : JsonCodec}.

Lemma flattenObject_array (elems : list Value) (named : Obj) (prefix : string)
    (result : Obj) (maxDepth : option num) (cur : N) (eav : bool) :
  flattenObject (VArr elems named) prefix result maxDepth cur eav =
  if depthReached cur maxDepth then obj_set result prefix (VArr elems named)
  else
    match elems, named with
    | [], [] =>
        if Str.nonEmpty prefix then obj_set result prefix (VArr elems named)
        else result
    | _, _ =>
        let flat := fun v k res => flattenObject v k res maxDepth (N.succ cur) eav in
        flattenProps flat prefix named (flattenElems flat prefix elems 0%N result)
    end.
Proof.
  cbn [flattenObject]. destruct (depthReached cur maxDepth); [reflexivity|].
  assert (forall l i res,
             (fix eachElem (l0 : list Value) (i : N) (res : Obj) {struct l0} : Obj :=
                match l0 with
                | [] => res
                | value0 :: r =>
                    eachElem r (N.succ i)
                      (if isObjectLike value0
                       then flattenObject value0 (joinKey prefix (Str.ofN i)) res
                              maxDepth (N.succ cur) eav
                       else obj_set res (joinKey prefix (Str.ofN i)) value0)
                end) l i res =
             flattenElems (fun v k res => flattenObject v k res maxDepth (N.succ cur) eav)
               prefix l i res) as HE.
  { induction l as [|x r IH]; intros i res; [reflexivity|]. cbn [flattenElems].
    now rewrite <- IH. }
  assert (forall l res,
             (fix eachProp (l0 res : Obj) {struct l0} : Obj :=
                match l0 with
                | [] => res
                | (key, value0) :: r =>
                    eachProp r
                      (if isObjectLike value0
                       then flattenObject value0 (joinKey prefix key) res
                              maxDepth (N.succ cur) eav
                       else obj_set res (joinKey prefix key) value0)
                end) l res =
             flattenProps (fun v k res => flattenObject v k res maxDepth (N.succ cur) eav)
               prefix l res) as HP.
  { induction l as [|[k x] r IH]; intros res; [reflexivity|]. cbn [flattenProps].
    now rewrite <- IH. }
  destruct elems as [|x r], named as [|[k y] t]; try reflexivity;
    cbv zeta; cbn [flattenProps flattenElems]; rewrite ?HE, ?HP; reflexivity.
Qed.

Lemma flattenObject_object (props : Obj) (prefix : string)
    (result : Obj) (maxDepth : option num) (cur : N) (eav : bool) :
  flattenObject (VObj props) prefix result maxDepth cur eav =
  if depthReached cur maxDepth then obj_set result prefix (VObj props)
  else
    let flat := fun v k res => flattenObject v k res maxDepth (N.succ cur) eav in
    if eav && isEAVObject (VObj props) then
      flattenEavValue flat (joinKey prefix (cleanLabelOf props)) result props
    else
      match props with
      | [] => if Str.nonEmpty prefix then obj_set result prefix (VObj props) else result
      | _ => flattenProps flat prefix props result
      end.
Proof.
  cbn [flattenObject]. destruct (depthReached cur maxDepth); [reflexivity|].
  cbv zeta. destruct (eav && isEAVObject (VObj props)).
  - unfold cleanLabelOf. generalize (joinKey prefix
      match obj_read props "label" with
      | VStr eavLabel => Str.replaceAll Chars.dot "_" (Str.trim eavLabel)
      | _ => ""
      end) as eavKey. intros eavKey.
    induction props as [|[k x] r IH]; [reflexivity|]. cbn [flattenEavValue].
    now rewrite <- IH.
  - assert (forall l res,
               (fix eachProp (l0 res : Obj) {struct l0} : Obj :=
                  match l0 with
                  | [] => res
                  | (key, value0) :: r =>
                      eachProp r
                        (if isObjectLike value0
                         then flattenObject value0 (joinKey prefix key) res
                                maxDepth (N.succ cur) eav
                         else obj_set res (joinKey prefix key) value0)
                  end) l res =
               flattenProps
                 (fun v k res => flattenObject v k res maxDepth (N.succ cur) eav)
                 prefix l res) as HP.
    { induction l as [|[k x] r IH]; intros res; [reflexivity|]. cbn [flattenProps].
      now rewrite <- IH. }
    destruct props as [|[k y] t]; [reflexivity|].
    cbn [flattenProps]. rewrite ?HP. reflexivity.
Qed.

Lemma flattenObject_primitive (obj : Value) (prefix : string)
    (result : Obj) (maxDepth : option num) (cur : N) (eav : bool) :
  isObjectLike obj = false ->
  flattenObject obj prefix result maxDepth cur eav =
  if Str.nonEmpty prefix then obj_set result prefix obj else result.
Proof. destruct obj; simpl; try discriminate; reflexivity. Qed.

Section Preserved.
Variable I : Obj -> Prop.
Hypothesis I_set :
  forall res k v,
    I res -> isLeaf v = true -> (isObjectLike v = true -> k <> "") ->
    I (obj_set res k v).

Lemma isLeaf_primitive (v : Value) : isObjectLike v = false -> isLeaf v = true.
Proof. destruct v; simpl; try discriminate; reflexivity. Qed.

Lemma I_set_primitive (res : Obj) (k : string) (v : Value) :
  I res -> isObjectLike v = false -> I (obj_set res k v).
Proof.
  intros Hres Hv. apply I_set; auto using isLeaf_primitive. congruence.
Qed.

Lemma I_set_prefix (res : Obj) (prefix : string) (v : Value) :
  I res -> isLeaf v = true ->
  I (if Str.nonEmpty prefix then obj_set res prefix v else res).
Proof.
  intros Hres Hv. destruct (Str.nonEmpty prefix) eqn:E; auto.
  apply I_set; auto. intros _ ->. discriminate.
Qed.

Lemma flattenProps_preserves (flat : Value -> string -> Obj -> Obj) (prefix : string)
    (l : Obj) :
  Forall (fun kv => forall k res, I res -> I (flat (snd kv) k res)) l ->
  forall res, I res -> I (flattenProps flat prefix l res).
Proof.
  induction 1 as [|[k x] r Hx _ IH]; intros res Hres; [assumption|].
  cbn [flattenProps]. apply IH. cbn [snd] in Hx.
  destruct (isObjectLike x) eqn:E; auto using I_set_primitive.
Qed.

Lemma flattenElems_preserves (flat : Value -> string -> Obj -> Obj) (prefix : string)
    (l : list Value) :
  Forall (fun x => forall k res, I res -> I (flat x k res)) l ->
  forall i res, I res -> I (flattenElems flat prefix l i res).
Proof.
  induction 1 as [|x r Hx _ IH]; intros i res Hres; [assumption|].
  cbn [flattenElems]. apply IH.
  destruct (isObjectLike x) eqn:E; auto using I_set_primitive.
Qed.

Lemma flattenEavValue_preserves (flat : Value -> string -> Obj -> Obj)
    (eavKey : string) (result : Obj) (l : Obj) :
  Forall (fun kv => forall k res, I res -> I (flat (snd kv) k res)) l ->
  I result -> I (flattenEavValue flat eavKey result l).
Proof.
  intros Hl Hres. induction Hl as [|[k x] r Hx _ IH]; [assumption|].
  cbn [flattenEavValue]. destruct (String.eqb k "value"); auto.
  cbn [snd] in Hx. destruct (isObjectLike x) eqn:E; auto using I_set_primitive.
Qed.

(** Without a depth limit, [flattenObject] only ever stores leaves, and an
    empty container only under a key that is not empty. *)
Lemma flattenObject_preserves (obj : Value) :
  forall prefix result currentDepth useSmartEAV,
    I result -> I (flattenObject obj prefix result None currentDepth useSmartEAV).
Proof.
  induction obj as [| | | | |elems named IHe IHn|props IHp] using Value_nested_ind;
    intros prefix result cur eav Hres;
    try (rewrite flattenObject_primitive by reflexivity;
         apply I_set_prefix; auto; reflexivity).
  - rewrite flattenObject_array. cbn [depthReached].
    destruct elems as [|x r], named as [|kv t];
      try (apply I_set_prefix; auto; reflexivity);
      cbv zeta; apply flattenProps_preserves; try apply flattenElems_preserves;
      auto;
      match goal with
      | H : Forall _ ?l |- Forall _ ?l =>
          eapply Forall_impl; [|exact H]; cbv beta; intros; auto
      end.
  - rewrite flattenObject_object. cbn [depthReached]. cbv zeta.
    assert (Forall (fun kv => forall k res,
                        I res -> I (flattenObject (snd kv) k res None (N.succ cur) eav))
              props) as Hflat
        by (eapply Forall_impl; [|exact IHp]; cbv beta; intros; auto).
    destruct (eav && isEAVObject (VObj props)).
    + now apply flattenEavValue_preserves.
    + destruct props as [|kv r]; [apply I_set_prefix; auto; reflexivity|].
      now apply flattenProps_preserves.
Qed.

End Preserved.

Lemma flatRecord_set (res : Obj) (k : string) (v : Value) :
  flatRecord res -> isLeaf v = true -> (isObjectLike v = true -> k <> "") ->
  flatRecord (obj_set res k v).
Proof.
  intros [Hnd Hall] Hv Hk. split.
  - now apply obj_set_NoDup.
  - induction Hall as [|[k' v'] r Hx Hr IH]; simpl.
    + constructor; auto.
    + destruct (String.eqb_spec k' k) as [->|Hne]; constructor; auto.
      apply IH. now inversion Hnd.
Qed.

Lemma flatRecord_nil : flatRecord [].
Proof. split; constructor. Qed.

(** The second pass of [flattenStrip] keeps the values and makes the keys
    distinct. *)
Lemma stripPrefix_pass (P : Value -> Prop) (sp : string) (result : Obj) :
  Forall (fun kv => P (snd kv)) result ->
  forall stripped,
    NoDup (map fst stripped) -> Forall (fun kv => P (snd kv)) stripped ->
    let out :=
      fold_left
        (fun stripped kv =>
           let '(key, value) := kv in
           let nextKey :=
             if Str.startsWith key sp then Str.slice key (String.length sp) else key in
           obj_set stripped nextKey value)
        result stripped in
    NoDup (map fst out) /\ Forall (fun kv => P (snd kv)) out.
Proof.
  induction 1 as [|[k v] r Hv _ IH]; intros stripped Hnd Hall; cbv zeta.
  - split; assumption.
  - cbn [fold_left]. apply IH.
    + now apply obj_set_NoDup.
    + now apply obj_set_Forall.
Qed.

(** X13. Flattening a whole record without a depth limit leaves no
    nesting behind: whatever the prefix to strip and the handling of
    label/value pairs, the result has distinct keys and every value is a
    primitive or an empty array or object. *)
Theorem flattenStrip_all_leaves (stripPrefix : option string)
    (keepPrefix useSmartEAV : option bool) (record : Obj) :
  exists flat,
    transformItem (FlattenStrip stripPrefix None None None keepPrefix useSmartEAV)
      (VObj record) = Some (VObj flat) /\
    NoDup (map fst flat) /\
    Forall (fun kv => isLeaf (snd kv) = true) flat.
Proof.
  unfold transformItem. cbn [applyItem applyRecord fst option_map].
  eexists. split; [reflexivity|].
  unfold flattenStripRecord. cbn [targetKeysOf].
  set (eav := match useSmartEAV with Some b => b | None => false end).
  pose proof (flattenObject_preserves flatRecord flatRecord_set (VObj record)
                "" [] 0%N eav flatRecord_nil) as [Hnd Hall].
  assert (Forall (fun kv => isLeaf (snd kv) = true)
            (flattenObject (VObj record) "" [] None 0%N eav)) as Hleaf
      by (eapply Forall_impl; [|exact Hall]; cbv beta; tauto).
  destruct stripPrefix as [sp|]; [|split; assumption].
  destruct (Str.nonEmpty sp); [|split; assumption].
  apply (stripPrefix_pass (fun v => isLeaf v = true) sp _ Hleaf []); constructor.
Qed.

Lemma flattenProps_flat (cur : N) (rest : Obj) :
  forall pre,
    flatRecord (pre ++ rest)%list ->
    flattenProps (fun v k res => flattenObject v k res None cur false) "" rest pre =
    (pre ++ rest)%list.
Proof.
  induction rest as [|[k v] r IH]; intros pre Hflat; cbn [flattenProps].
  - now rewrite app_nil_r.
  - assert ((if isObjectLike v
             then flattenObject v (joinKey "" k) pre None cur false
             else obj_set pre (joinKey "" k) v) = (pre ++ [(k, v)])%list) as ->.
    { destruct Hflat as [Hnd Hall].
      assert (~ In k (map fst pre)) as Hfresh.
      { rewrite map_app in Hnd. apply NoDup_remove_2 in Hnd. intros H. apply Hnd.
        apply in_or_app. now left. }
      apply Forall_app in Hall as [_ Hall]. inversion Hall as [|? ? [Hleaf Hkey] _].
      cbn [fst snd] in *. change (joinKey "" k) with k.
      destruct (isObjectLike v) eqn:E; [|now apply obj_set_fresh].
      assert (Str.nonEmpty k = true) as Hk.
      { destruct k; [exfalso; now apply Hkey | reflexivity]. }
      destruct v as [| | | | |elems named|props]; try discriminate.
      - destruct elems, named; try discriminate.
        rewrite flattenObject_array. cbn [depthReached]. rewrite Hk.
        now apply obj_set_fresh.
      - destruct props; try discriminate.
        rewrite flattenObject_object. cbn [depthReached andb]. cbv zeta. rewrite Hk.
        now apply obj_set_fresh. }
    rewrite IH; rewrite <- app_assoc; auto.
Qed.

Lemma flattenObject_flat (o : Obj) :
  flatRecord o -> flattenObject (VObj o) "" [] None 0%N false = o.
Proof.
  intros Hflat. rewrite flattenObject_object. cbn [depthReached andb]. cbv zeta.
  destruct o as [|kv r]; [reflexivity|].
  apply (flattenProps_flat _ (kv :: r) []). exact Hflat.
Qed.

(** X14. Flattening a whole record, without depth limit, without prefix to
    strip and without the handling of label/value pairs, is idempotent:
    flattening the flattened record again returns it unchanged. *)
Theorem flattenStrip_idempotent (keepPrefix useSmartEAV : option bool) (item : Value) :
  useSmartEAV <> Some true ->
  let action := FlattenStrip None None None None keepPrefix useSmartEAV in
  exists out,
    transformItem action item = Some out /\
    transformItem action out = Some out.
Proof.
  intros Heav. cbv zeta. destruct item as [| | | | | |record];
    try (eexists; split; reflexivity).
  unfold transformItem. cbn [applyItem applyRecord fst option_map].
  eexists. split; [reflexivity|].
  cbn [applyItem applyRecord fst option_map].
  unfold flattenStripRecord. cbn [targetKeysOf].
  assert (match useSmartEAV with Some b => b | None => false end = false) as ->
      by (destruct useSmartEAV as [[|]|]; congruence).
  do 2 f_equal. apply flattenObject_flat.
  apply (flattenObject_preserves flatRecord flatRecord_set); apply flatRecord_nil.
Qed.

End FlattenFacts.

(* ================================================================== *)
(** * The store: history, undo and redo *)
(* ================================================================== *)

Section StoreHistory.
Context `{JC : JsonCodec}.

Lemma history_get_set_same (h : list (string * FileHistory)) (fid : string)
    (x : FileHistory) :
  history_get (history_set h fid x) fid = Some x.
Proof.
  induction h as [|[k y] r IH]; simpl.
  - now rewrite String.eqb_refl.
  - destruct (String.eqb k fid) eqn:E; simpl; now rewrite E.
Qed.

Lemma historyBounded_get (h : list (string * FileHistory)) (fid : string)
    (x : FileHistory) :
  historyBounded h -> history_get h fid = Some x ->
  (length (past x) + length (future x) <= MAX_HISTORY)%nat.
Proof.
  induction 1 as [|[k y] r Hy _ IH]; simpl; [discriminate|].
  destruct (String.eqb k fid); auto.
  intros [= <-]. exact Hy.
Qed.

Lemma historyBounded_set (h : list (string * FileHistory)) (fid : string)
    (x : FileHistory) :
  historyBounded h ->
  (length (past x) + length (future x) <= MAX_HISTORY)%nat ->
  historyBounded (history_set h fid x).
Proof.
  intros Hh Hx. induction Hh as [|[k y] r Hy Hr IH]; simpl.
  - constructor; [exact Hx | constructor].
  - destruct (String.eqb k fid); constructor; auto.
Qed.

Lemma popEntry_snoc (l : list HistoryEntry) (x : HistoryEntry) :
  popEntry (l ++ [x])%list = Some (l, x).
Proof. unfold popEntry. rewrite rev_app_distr. simpl. now rewrite rev_involutive. Qed.

Lemma popEntry_some (l rest : list HistoryEntry) (x : HistoryEntry) :
  popEntry l = Some (rest, x) -> l = (rest ++ [x])%list.
Proof.
  unfold popEntry. destruct (rev l) as [|y r] eqn:E; [discriminate|].
  intros [= <- <-]. rewrite <- (rev_involutive l), E. reflexivity.
Qed.

Lemma popEntry_tl (l : list HistoryEntry) (x : HistoryEntry) :
  (0 < length l)%nat -> popEntry (tl (l ++ [x]))%list = Some (tl l, x).
Proof.
  destruct l as [|y r]; simpl; [lia|]. intros _. apply popEntry_snoc.
Qed.

(** The entry that [saveHistory] pushes is the one [undo] pops. *)
Lemma saveHistory_get (h : list (string * FileHistory)) (fid : string)
    (file : FileSource) :
  Str.nonEmpty fid = true ->
  exists rest,
    history_get (saveHistory h (Some fid) file) fid =
      Some {| past := (rest ++ [snapshot file])%list; future := [] |}.
Proof.
  intros Hfid. unfold saveHistory. rewrite Hfid, history_get_set_same.
  set (current := match history_get h fid with Some x => x | None => _ end).
  destruct (MAX_HISTORY <? length (past current ++ [_]))%nat eqn:E.
  - destruct (past current) as [|y r]; simpl.
    + exfalso. revert E. unfold MAX_HISTORY. simpl. discriminate.
    + exists r. reflexivity.
  - exists (past current). reflexivity.
Qed.

Lemma saveHistory_bounded (h : list (string * FileHistory)) (active : option string)
    (file : FileSource) :
  historyBounded h -> historyBounded (saveHistory h active file).
Proof.
  intros Hh. unfold saveHistory.
  destruct active as [fid|]; [|exact Hh].
  destruct (Str.nonEmpty fid); [|exact Hh].
  apply historyBounded_set; [exact Hh|].
  cbn [past future length].
  set (pushed := (_ ++ [_])%list).
  destruct (MAX_HISTORY <? length pushed)%nat eqn:E.
  - assert (length pushed <= S MAX_HISTORY)%nat as Hp.
    { unfold pushed. rewrite length_app. simpl.
      destruct (history_get h fid) as [x|] eqn:G; simpl.
      - pose proof (historyBounded_get h fid x Hh G). lia.
      - unfold MAX_HISTORY. lia. }
    destruct pushed; simpl in *; lia.
  - apply Nat.ltb_ge in E. lia.
Qed.

Lemma findActive_updateActive (fs : list FileSource) (fid : string)
    (upd : FileSource -> FileSource) (file : FileSource) :
  (forall f, id (upd f) = id f) ->
  findActive fs (Some fid) = Some file ->
  findActive (updateActive fs fid upd) (Some fid) = Some (upd file).
Proof.
  intros Hid H. unfold findActive in *. rewrite find_updateActive by exact Hid.
  now rewrite H.
Qed.

Lemma undo_bounded (st : FileState) :
  historyBounded (history st) -> historyBounded (history (fst (undo st))).
Proof.
  intros Hh. unfold undo.
  destruct (activeFileId st) as [fid|]; [|exact Hh].
  destruct (Str.nonEmpty fid); [|exact Hh].
  destruct (history_get (history st) fid) as [x|] eqn:G; [|exact Hh].
  destruct (findActive _ _); [|exact Hh].
  destruct (popEntry (past x)) as [[rest e]|] eqn:P; [|exact Hh].
  cbn [fst history withFiles]. apply historyBounded_set; [exact Hh|].
  cbn [past future]. pose proof (historyBounded_get _ _ _ Hh G) as Hx.
  apply popEntry_some in P. rewrite P in Hx.
  rewrite !length_app in *. simpl in *. lia.
Qed.

Lemma redo_bounded (st : FileState) :
  historyBounded (history st) -> historyBounded (history (fst (redo st))).
Proof.
  intros Hh. unfold redo.
  destruct (activeFileId st) as [fid|]; [|exact Hh].
  destruct (Str.nonEmpty fid); [|exact Hh].
  destruct (history_get (history st) fid) as [x|] eqn:G; [|exact Hh].
  destruct (findActive _ _); [|exact Hh].
  destruct (popEntry (future x)) as [[rest e]|] eqn:P; [|exact Hh].
  cbn [fst history withFiles]. apply historyBounded_set; [exact Hh|].
  cbn [past future]. pose proof (historyBounded_get _ _ _ Hh G) as Hx.
  apply popEntry_some in P. rewrite P in Hx.
  rewrite !length_app in *. simpl in *. lia.
Qed.

(** X17.  The undo history stays bounded: when no file has more than
    [MAX_HISTORY] entries on its undo and redo stacks together, this is still
    so after any of the operations that record history and after [undo] and
    [redo] ([redo] pushes on the undo stack without trimming it, the bound
    holds because the entry comes off the redo stack). *)
Theorem history_stays_bounded (st : FileState) :
  historyBounded (history st) ->
  (forall newData flag,
      historyBounded (history (replaceActiveFileData newData flag st))) /\
  historyBounded (history (fst (commitFilterToData st))) /\
  (forall sourceFields targetField,
      historyBounded (history (nestFields sourceFields targetField st))) /\
  (forall newOrder, historyBounded (history (reorderKeys newOrder st))) /\
  (forall oldKey newKey,
      historyBounded (history (batchRenameField oldKey newKey st))) /\
  (forall keys, historyBounded (history (batchDeleteFields keys st))) /\
  historyBounded (history (fst (undo st))) /\
  historyBounded (history (fst (redo st))).
Proof.
  intros Hh.
  pose proof (fun a f => saveHistory_bounded (history st) a f Hh) as Hs.
  repeat split.
  - intros newData flag. unfold replaceActiveFileData.
    destruct (findActive _ _), (activeFileId st); auto.
    destruct flag; cbn [history withFiles fst]; auto.
  - unfold commitFilterToData.
    destruct (findActive _ _), (activeFileId st); auto.
    destruct (negb _); cbn [history withFiles fst]; auto.
  - intros sourceFields targetField. unfold nestFields.
    destruct (findActive _ _), (activeFileId st); auto.
    destruct (_ || _); cbn [history withFiles fst]; auto.
  - intros newOrder. unfold reorderKeys.
    destruct (findActive _ _), (activeFileId st); cbn [history withFiles fst]; auto.
  - intros oldKey newKey. unfold batchRenameField.
    destruct (findActive _ _), (activeFileId st); auto.
    destruct (_ || _); cbn [history withFiles fst]; auto.
  - intros keys. unfold batchDeleteFields.
    destruct (findActive _ _), (activeFileId st); auto.
    destruct keys; cbn [history withFiles fst]; auto.
  - now apply undo_bounded.
  - now apply redo_bounded.
Qed.

(** [undo] in a state whose history was just saved from [file]. *)
Lemma undo_after_saveHistory (st : FileState) (h : list (string * FileHistory))
    (fid : string) (file current : FileSource) :
  activeFileId st = Some fid ->
  Str.nonEmpty fid = true ->
  history st = saveHistory h (Some fid) file ->
  findActive (files st) (Some fid) = Some current ->
  snd (undo st) = true /\
  activeFileId (fst (undo st)) = Some fid /\
  findActive (files (fst (undo st))) (Some fid) =
    Some (restoreEntry (snapshot file) current) /\
  exists rest,
    history_get (history (fst (undo st))) fid =
      Some {| past := rest; future := [snapshot current] |}.
Proof.
  intros Hact Hfid Hh Hcur. unfold undo. rewrite Hact, Hfid, Hh.
  destruct (saveHistory_get h fid file Hfid) as [rest ->].
  rewrite Hcur. cbn [past future]. rewrite popEntry_snoc.
  cbn [fst snd files activeFileId history withFiles]. repeat split; auto.
  - apply findActive_updateActive; auto.
  - exists rest. now rewrite history_get_set_same.
Qed.

(** [redo] in a state whose redo stack ends with [entry]. *)
Lemma redo_pops (st : FileState) (fid : string) (rest pastEntries : list HistoryEntry)
    (entry : HistoryEntry) (current : FileSource) :
  activeFileId st = Some fid ->
  Str.nonEmpty fid = true ->
  history_get (history st) fid =
    Some {| past := pastEntries; future := (rest ++ [entry])%list |} ->
  findActive (files st) (Some fid) = Some current ->
  snd (redo st) = true /\
  findActive (files (fst (redo st))) (Some fid) = Some (restoreEntry entry current).
Proof.
  intros Hact Hfid Hh Hcur. unfold redo. rewrite Hact, Hfid, Hh, Hcur.
  cbn [past future]. rewrite popEntry_snoc.
  cbn [fst snd files withFiles]. split; auto.
  apply findActive_updateActive; auto.
Qed.

Lemma redo_activeFileId (st : FileState) :
  activeFileId (fst (redo st)) = activeFileId st.
Proof.
  unfold redo. destruct (activeFileId st) as [fid|] eqn:E; cbn [fst]; auto.
  destruct (Str.nonEmpty fid); cbn [fst]; auto.
  destruct (history_get _ _); cbn [fst]; auto.
  destruct (findActive _ _); cbn [fst]; auto.
  destruct (popEntry _) as [[? ?]|]; cbn [fst activeFileId withFiles]; auto.
Qed.

Lemma restore_own_snapshot (file current : FileSource) :
  id current = id file -> name current = name file -> size current = size file ->
  type current = type file -> errorRows current = errorRows file ->
  sourceFileIds current = sourceFileIds file ->
  restoreEntry (snapshot file) current =
  withKeyOrder (withData file (map jsonClone (data file)))
    (match keyOrder file with Some o => Some o | None => keyOrder current end).
Proof.
  destruct file, current; simpl. intros -> -> -> -> -> ->.
  unfold restoreEntry, withKeyOrder, withData; simpl. reflexivity.
Qed.

Lemma keyOrder_or_self (file : FileSource) :
  withKeyOrder (withData file (map jsonClone (data file)))
    (match keyOrder file with Some o => Some o | None => keyOrder file end) =
  withData file (map jsonClone (data file)).
Proof. destruct file as [? ? ? ? ? ? [o|] ?]; reflexivity. Qed.

(** X18.  Undo and redo of a replacement of the data (what the batch panel
    does with the result of the worker): after [replaceActiveFileData] with
    history, [canUndo] holds, [undo] succeeds and puts back the previous records, as their
    JSON round trip (so [undefined] fields are gone and non-finite numbers
    are [null]) and with everything else of the file as it was; [redo] then
    succeeds and puts the JSON round trip of the new records. *)
Theorem undo_redo_replaceActiveFileData (st : FileState) (fid : string)
    (file : FileSource) (newData : list Value) :
  activeFileId st = Some fid ->
  Str.nonEmpty fid = true ->
  findActive (files st) (Some fid) = Some file ->
  let st1 := replaceActiveFileData newData true st in
  let st2 := fst (undo st1) in
  let st3 := fst (redo st2) in
  canUndo st1 = true /\
  snd (undo st1) = true /\
  findActive (files st2) (activeFileId st2) =
    Some (withData file (map jsonClone (data file))) /\
  canRedo st2 = true /\
  snd (redo st2) = true /\
  findActive (files st3) (activeFileId st3) =
    Some (withData file (map jsonClone newData)).
Proof.
  intros Hact Hfid Hfile. cbv zeta.
  set (st1 := replaceActiveFileData newData true st).
  assert (activeFileId st1 = Some fid) as Hact1.
  { unfold st1, replaceActiveFileData. rewrite Hact, Hfile. exact Hact. }
  assert (history st1 = saveHistory (history st) (Some fid) file) as Hh1.
  { unfold st1, replaceActiveFileData. rewrite Hact, Hfile. reflexivity. }
  assert (findActive (files st1) (Some fid) = Some (withData file newData)) as Hf1.
  { unfold st1, replaceActiveFileData. rewrite Hact, Hfile.
    cbn [files withFiles].
    exact (findActive_updateActive _ _ (fun f => withData f newData) file
             (fun _ => eq_refl) Hfile). }
  destruct (undo_after_saveHistory st1 (history st) fid file _ Hact1 Hfid Hh1 Hf1)
    as (Hu & Hact2 & Hf2 & rest & Hh2).
  rewrite restore_own_snapshot in Hf2 by reflexivity.
  cbn [keyOrder withData] in Hf2. rewrite keyOrder_or_self in Hf2.
  assert (activeFileId (fst (redo (fst (undo st1)))) = Some fid) as Hact3.
  { now rewrite redo_activeFileId. }
  destruct (redo_pops (fst (undo st1)) fid [] rest (snapshot (withData file newData))
              _ Hact2 Hfid Hh2 Hf2) as (Hr & Hf3).
  repeat split; auto.
  - unfold canUndo. rewrite Hact1, Hfid, Hh1.
    destruct (saveHistory_get (history st) fid file Hfid) as [before ->].
    cbn [past]. rewrite length_app. cbn [length]. apply Nat.ltb_lt. lia.
  - now rewrite Hact2.
  - unfold canRedo. rewrite Hact2, Hfid, Hh2. reflexivity.
  - rewrite Hact3, Hf3. destruct file as [? ? ? ? ? ? [o|] ?]; reflexivity.
Qed.

Lemma reorderKeys_state (st : FileState) (fid : string) (file : FileSource)
    (newOrder : list string) :
  activeFileId st = Some fid ->
  findActive (files st) (Some fid) = Some file ->
  let st1 := reorderKeys newOrder st in
  activeFileId st1 = Some fid /\
  history st1 = saveHistory (history st) (Some fid) file /\
  findActive (files st1) (Some fid) =
    Some (withKeyOrder (withData file (map (reorderItem newOrder) (data file)))
            (Some newOrder)).
Proof.
  intros Hact Hfile. cbv zeta. unfold reorderKeys. rewrite Hact, Hfile.
  cbn [files activeFileId history withFiles]. repeat split; auto.
  exact (findActive_updateActive _ _
           (fun f => withKeyOrder (withData f (map (reorderItem newOrder) (data f)))
                       (Some newOrder))
           file (fun _ => eq_refl) Hfile).
Qed.

(** X19.  Undo after [reorderKeys]: the records come back (as their JSON
    round trip); the key order of the file comes back only when the file had
    one, a file that had no key order keeps the new order after the undo. *)
Theorem undo_after_reorderKeys (st : FileState) (fid : string)
    (file : FileSource) (newOrder : list string) :
  activeFileId st = Some fid ->
  Str.nonEmpty fid = true ->
  findActive (files st) (Some fid) = Some file ->
  let st2 := fst (undo (reorderKeys newOrder st)) in
  snd (undo (reorderKeys newOrder st)) = true /\
  findActive (files st2) (activeFileId st2) =
    Some (withKeyOrder (withData file (map jsonClone (data file)))
            (match keyOrder file with
             | Some order => Some order
             | None => Some newOrder
             end)).
Proof.
  intros Hact Hfid Hfile. cbv zeta.
  destruct (reorderKeys_state st fid file newOrder Hact Hfile) as (Hact1 & Hh1 & Hf1).
  destruct (undo_after_saveHistory _ (history st) fid file _ Hact1 Hfid Hh1 Hf1)
    as (Hu & Hact2 & Hf2 & _).
  split; auto. rewrite Hact2, Hf2.
  now rewrite restore_own_snapshot by reflexivity.
Qed.

(** The cursor after a clamp. *)
Lemma clampIndex_range (index : Z) (len : nat) :
  (0 <= clampIndex index len <= Z.max 0 (Z.of_nat len - 1))%Z.
Proof. unfold clampIndex. lia. Qed.

Lemma cursorInRange_updated (st : FileState) (fid : string) (file : FileSource)
    (upd : FileSource -> FileSource) (current : Z)
    (h : list (string * FileHistory)) :
  activeFileId st = Some fid ->
  findActive (files st) (Some fid) = Some file ->
  (forall f, id (upd f) = id f) ->
  (0 <= current <= Z.max 0 (Z.of_nat (length (data (upd file))) - 1))%Z ->
  cursorInRange (withFiles st (updateActive (files st) fid upd) current h).
Proof.
  intros Hact Hfile Hid Hc. unfold cursorInRange.
  cbn [files activeFileId currentIndex withFiles]. rewrite Hact.
  now rewrite (findActive_updateActive _ _ _ _ Hid Hfile).
Qed.

(** X20.  The cursor stays inside the active file: [setIndex],
    [updateRecord], [replaceActiveFileData], [undo], [redo] and
    [commitFilterToData] take a state whose [currentIndex] is a position of
    the active file's data (0 for an empty file) to such a state; [setIndex]
    does so for any requested index. *)
Theorem cursor_stays_in_range (st : FileState) :
  cursorInRange st ->
  (forall index, cursorInRange (setIndex index st)) /\
  (forall index value, cursorInRange (updateRecord index value st)) /\
  (forall newData flag, cursorInRange (replaceActiveFileData newData flag st)) /\
  cursorInRange (fst (undo st)) /\
  cursorInRange (fst (redo st)) /\
  cursorInRange (fst (commitFilterToData st)).
Proof.
  intros Hst. repeat split.
  - intros index. unfold setIndex.
    destruct (findActive (files st) (activeFileId st)) as [file|] eqn:Hf; auto.
    unfold cursorInRange. cbn [files activeFileId currentIndex withFiles].
    rewrite Hf. apply clampIndex_range.
  - intros index value. unfold updateRecord.
    destruct (findActive (files st) (activeFileId st)) as [file|] eqn:Hf; auto.
    destruct (activeFileId st) as [fid|] eqn:Hact; auto.
    destruct ((index <? 0)%Z || _) eqn:Hi; [exact Hst|].
    refine (cursorInRange_updated st fid file
              (fun f => withData f (list_write (data f) (Z.to_nat index) value)) _ _
              Hact Hf (fun _ => eq_refl) _).
    cbn [data withData]. unfold cursorInRange in Hst. rewrite Hact, Hf in Hst.
    apply orb_false_iff in Hi. destruct Hi as [Hlo Hhi].
    apply Z.ltb_ge in Hlo. apply Z.leb_gt in Hhi.
    rewrite length_list_write. lia.
  - intros newData flag. unfold replaceActiveFileData.
    destruct (findActive (files st) (activeFileId st)) as [file|] eqn:Hf; auto.
    destruct (activeFileId st) as [fid|] eqn:Hact; auto.
    refine (cursorInRange_updated st fid file (fun f => withData f newData) _ _
              Hact Hf (fun _ => eq_refl) _).
    apply clampIndex_range.
  - unfold undo.
    destruct (activeFileId st) as [fid|] eqn:Hact; auto.
    destruct (Str.nonEmpty fid); auto.
    destruct (history_get (history st) fid) as [x|]; auto.
    destruct (findActive (files st) (Some fid)) as [file|] eqn:Hf; auto.
    destruct (popEntry (past x)) as [[rest e]|]; auto.
    cbn [fst].
    refine (cursorInRange_updated st fid file (restoreEntry e) _ _
              Hact Hf (fun _ => eq_refl) _).
    apply clampIndex_range.
  - unfold redo.
    destruct (activeFileId st) as [fid|] eqn:Hact; auto.
    destruct (Str.nonEmpty fid); auto.
    destruct (history_get (history st) fid) as [x|]; auto.
    destruct (findActive (files st) (Some fid)) as [file|] eqn:Hf; auto.
    destruct (popEntry (future x)) as [[rest e]|]; auto.
    cbn [fst].
    refine (cursorInRange_updated st fid file (restoreEntry e) _ _
              Hact Hf (fun _ => eq_refl) _).
    apply clampIndex_range.
  - unfold commitFilterToData.
    destruct (findActive (files st) (activeFileId st)) as [file|] eqn:Hf; auto.
    destruct (activeFileId st) as [fid|] eqn:Hact; auto.
    destruct (negb _); auto.
    cbn [fst]. unfold cursorInRange. cbn [files activeFileId currentIndex].
    match goal with
    | |- context [updateActive _ _ ?u] =>
        rewrite (findActive_updateActive _ _ u file (fun _ => eq_refl) Hf)
    end.
    lia.
Qed.

End StoreHistory.

(* ================================================================== *)
(** * The store: the filtered view and the filter rules *)
(* ================================================================== *)

Section StoreFilters.
Context `{JC : JsonCodec}.

(** The loop of [recalculateFilteredData] collects, in order, the
    positions of the records that pass. *)
Lemma collectMatches_spec (query : string) (groups : list FilterGroup)
    (records : list Value) :
  forall index matchedIndices out,
    collectMatches query groups records index matchedIndices = Some out ->
    exists found,
      out = (matchedIndices ++ found)%list /\
      map (fun i => nth (N.to_nat i - N.to_nat index) records VUndef) found =
        filter (passes query groups) records /\
      StronglySorted N.lt found /\
      Forall (fun i => (index <= i)%N /\
                       (N.to_nat i < N.to_nat index + length records)%nat) found.
Proof.
  induction records as [|record r IH]; intros index acc out H; simpl in H.
  - injection H as <-. exists []. rewrite app_nil_r. repeat split; constructor.
  - assert (forall found,
              Forall (fun i => (N.succ index <= i)%N /\
                               (N.to_nat i < N.to_nat (N.succ index) + length r)%nat)
                     found ->
              map (fun i => nth (N.to_nat i - N.to_nat index) (record :: r) VUndef) found =
              map (fun i => nth (N.to_nat i - N.to_nat (N.succ index)) r VUndef) found)
      as Hshift.
    { intros found Hf. apply map_ext_in. intros i Hi.
      rewrite Forall_forall in Hf. destruct (Hf i Hi) as [Hlo _].
      replace (N.to_nat i - N.to_nat index)%nat
        with (S (N.to_nat i - N.to_nat (N.succ index)))%nat by lia.
      reflexivity. }
    assert (forall found,
              Forall (fun i => (N.succ index <= i)%N /\
                               (N.to_nat i < N.to_nat (N.succ index) + length r)%nat)
                     found ->
              Forall (fun i => (index <= i)%N /\
                               (N.to_nat i < N.to_nat index + length (record :: r))%nat)
                     found) as Hweak.
    { intros found Hf. eapply Forall_impl; [|exact Hf].
      simpl. intros i [? ?]. split; lia. }
    destruct (recordMatches query groups record) as [[|]|] eqn:E; try discriminate.
    + destruct (IH _ _ _ H) as (found & -> & Hmap & Hsorted & Hrange).
      exists (index :: found). repeat split.
      * now rewrite <- app_assoc.
      * cbn [filter].
        replace (passes query groups record) with true
          by (unfold passes; now rewrite E).
        cbn [map]. rewrite Nat.sub_diag. cbn [nth]. f_equal.
        rewrite Hshift by exact Hrange. exact Hmap.
      * constructor; [exact Hsorted|].
        eapply Forall_impl; [|exact Hrange]. simpl. intros i [? _]. lia.
      * constructor; [simpl; split; lia | now apply Hweak].
    + destruct (IH _ _ _ H) as (found & -> & Hmap & Hsorted & Hrange).
      exists found. repeat split; auto.
      cbn [filter].
      replace (passes query groups record) with false
        by (unfold passes; now rewrite E).
      rewrite Hshift by exact Hrange. exact Hmap.
Qed.

(** X21.  The filtered view: when a search or a rule is active and the
    recalculation goes through, [filteredIndices] lists in ascending order
    positions of the active file's data, [getFilteredData] is exactly the
    records that pass the search and the rules, in their original order,
    [getOriginalIndex] maps a position of the view to the position of the
    same record in the data, and the cursor is reset to 0. *)
Theorem filtered_view_is_the_passing_records (st st' : FileState)
    (activeFile : FileSource) :
  findActive (files st) (activeFileId st) = Some activeFile ->
  hasFilters (searchQuery st) (filterGroups st) = true ->
  recalculateFilteredData st = Some st' ->
  getFilteredData st' =
    filter (passes (searchQuery st) (filterGroups st)) (data activeFile) /\
  StronglySorted N.lt (filteredIndices st') /\
  Forall (fun i => (N.to_nat i < length (data activeFile))%nat) (filteredIndices st') /\
  (forall k,
      (k < length (filteredIndices st'))%nat ->
      nth k (getFilteredData st') VUndef =
      arr_read (data activeFile) (getOriginalIndex (N.of_nat k) st')) /\
  currentIndex st' = 0%Z.
Proof.
  intros Hactive Hfilters. unfold recalculateFilteredData.
  rewrite Hactive, Hfilters. cbn [negb].
  destruct (collectMatches _ _ _ _ _) as [matched|] eqn:Hc; [|discriminate].
  intros [= <-].
  destruct (collectMatches_spec _ _ _ _ _ _ Hc) as (found & -> & Hmap & Hsorted & Hrange).
  cbn [app] in *.
  unfold getFilteredData, getOriginalIndex.
  cbn [files activeFileId searchQuery filterGroups filteredIndices currentIndex
       withFilterResult].
  rewrite Hactive, Hfilters. cbn [negb].
  assert (map (fun idx => arr_read (data activeFile) idx) found =
          map (fun i => nth (N.to_nat i - N.to_nat 0) (data activeFile) VUndef) found)
    as Hsame.
  { apply map_ext. intros i. unfold arr_read. now rewrite Nat.sub_0_r. }
  repeat split.
  - now rewrite Hsame.
  - exact Hsorted.
  - eapply Forall_impl; [|exact Hrange]. simpl. intros i [_ ?]. lia.
  - intros k Hk. rewrite Nat2N.id.
    destruct (nth_error found k) as [i|] eqn:En.
    + apply nth_error_nth. now rewrite nth_error_map, En.
    + apply nth_error_None in En. lia.
Qed.

Lemma pushToFirst_rules (p : FilterGroup -> bool) (rule : FilterRule)
    (groups next : list FilterGroup) :
  pushToFirst p rule groups = Some next ->
  exists pre g post,
    groups = (pre ++ g :: post)%list /\ p g = true /\
    Forall (fun g' => p g' = false) pre /\
    next = (pre ++ {| group_id := group_id g; rules := (rules g ++ [rule])%list |}
                :: post)%list.
Proof.
  revert next. induction groups as [|g r IH]; intros next; simpl; [discriminate|].
  destruct (p g) eqn:E.
  - intros [= <-]. exists [], g, r. repeat split; auto.
  - destruct (pushToFirst p rule r) as [n|]; [|discriminate].
    intros [= <-]. destruct (IH n eq_refl) as (pre & g0 & post & -> & Hp & Hpre & ->).
    exists (g :: pre), g0, post. repeat split; auto.
Qed.

Lemma pushToFirst_none (p : FilterGroup -> bool) (rule : FilterRule)
    (groups : list FilterGroup) :
  pushToFirst p rule groups = None -> Forall (fun g => p g = false) groups.
Proof.
  induction groups as [|g r IH]; simpl; [constructor|].
  destruct (p g) eqn:E; [discriminate|].
  destruct (pushToFirst p rule r); [discriminate|].
  intros _. constructor; auto.
Qed.

Lemma allRulesOf_app (a b : list FilterGroup) :
  allRulesOf (a ++ b) = (allRulesOf a ++ allRulesOf b)%list.
Proof. unfold allRulesOf. apply flat_map_app. Qed.

Lemma groupsSeparate_app (a b : list FilterGroup) :
  groupsSeparate (a ++ b) <->
  groupsSeparate a /\ groupsSeparate b /\
  forall g g' fld, In g a -> In g' b -> In fld (fieldsOf g) -> ~ In fld (fieldsOf g').
Proof.
  induction a as [|x r IH]; cbn [app groupsSeparate].
  - split.
    + intros H. split; [exact I|]. split; [exact H|]. intros g g' fld [].
    + intros (_ & H & _). exact H.
  - rewrite IH. split.
    + intros (Hx & Hr & Hb & Hrb). split; [split|split]; auto.
      * intros g' fld Hg'. apply Hx, in_or_app. now left.
      * intros g g' fld [<-|Hg] Hg'.
        -- apply Hx, in_or_app. now right.
        -- now apply Hrb.
    + intros ((Hx & Hr) & Hb & Hcross). split; [|split; [|split]]; auto.
      * intros g' fld Hg'. apply in_app_or in Hg'. destruct Hg' as [Hg'|Hg'].
        -- now apply Hx.
        -- apply Hcross. now left. exact Hg'.
      * intros g g' fld Hg Hg'. apply Hcross; auto. now right.
Qed.

Lemma existsb_field_In (fld : string) (g : FilterGroup) :
  existsb (fun r => String.eqb (field r) fld) (rules g) = true <->
  In fld (fieldsOf g).
Proof.
  unfold fieldsOf. rewrite existsb_exists, in_map_iff. split.
  - intros (r & Hr & E). apply String.eqb_eq in E. now exists r.
  - intros (r & E & Hr). exists r. split; auto. now apply String.eqb_eq.
Qed.

Lemma existsb_field_notIn (fld : string) (g : FilterGroup) :
  existsb (fun r => String.eqb (field r) fld) (rules g) = false ->
  ~ In fld (fieldsOf g).
Proof.
  intros E Hin. apply existsb_field_In in Hin. congruence.
Qed.

(** The default grouping of [addFilterRule] keeps the groups separate. *)
Lemma addRuleToGroups_separate (rule : FilterRule) (newId : string)
    (groups : list FilterGroup) :
  groupsSeparate groups ->
  groupsSeparate (addRuleToGroups rule None false newId groups).
Proof.
  intros Hsep. unfold addRuleToGroups.
  destruct (pushToFirst _ rule groups) as [next|] eqn:E.
  - apply pushToFirst_rules in E.
    destruct E as (pre & g & post & -> & Hp & Hpre & ->).
    apply existsb_field_In in Hp.
    apply groupsSeparate_app in Hsep. destruct Hsep as (Hs1 & [Hg Hs2] & Hcross).
    apply groupsSeparate_app. repeat split; auto.
    + intros g' fld Hg'. unfold fieldsOf at 1. cbn [rules].
      rewrite map_app, in_app_iff. intros [Hin|[<-|[]]].
      * now apply (Hg g').
      * now apply (Hg g').
    + intros g0 g' fld Hg0 [<-|Hg'] Hin.
      * unfold fieldsOf. cbn [rules]. rewrite map_app, in_app_iff.
        intros [Hin'|[<-|[]]].
        -- apply (Hcross g0 g fld); simpl; auto.
        -- rewrite Forall_forall in Hpre. specialize (Hpre g0 Hg0).
           now apply existsb_field_notIn in Hpre.
      * apply (Hcross g0 g' fld); simpl; auto.
  - apply pushToFirst_none in E.
    apply groupsSeparate_app. repeat split; simpl; auto.
    intros g g' fld Hg [<-|[]] Hin. unfold fieldsOf. cbn [rules map].
    intros [<-|[]].
    rewrite Forall_forall in E. specialize (E g Hg).
    now apply existsb_field_notIn in E.
Qed.

Lemma addRuleToGroups_rules (rule : FilterRule) (groupId : option string)
    (forceNewGroup : bool) (newId : string) (groups : list FilterGroup) :
  let next := addRuleToGroups rule groupId forceNewGroup newId groups in
  (forall r, In r (allRulesOf groups) -> In r (allRulesOf next)) /\
  (forall r, In r (allRulesOf next) -> r = rule \/ In r (allRulesOf groups)).
Proof.
  cbv zeta.
  assert (forall p next,
            pushToFirst p rule groups = Some next ->
            (forall r, In r (allRulesOf groups) -> In r (allRulesOf next)) /\
            (forall r, In r (allRulesOf next) -> r = rule \/ In r (allRulesOf groups)))
    as Hpush.
  { intros p next E. apply pushToFirst_rules in E.
    destruct E as (pre & g & post & -> & _ & _ & ->).
    unfold allRulesOf. rewrite !flat_map_app. cbn [flat_map rules].
    split; intros r; rewrite !in_app_iff; cbn [In]; intuition (subst; auto). }
  assert ((forall r, In r (allRulesOf groups) ->
                     In r (allRulesOf (groups ++ [{| group_id := newId; rules := [rule] |}]))) /\
          (forall r, In r (allRulesOf (groups ++ [{| group_id := newId; rules := [rule] |}])) ->
                     r = rule \/ In r (allRulesOf groups))) as Hnew.
  { unfold allRulesOf. rewrite !flat_map_app. cbn [flat_map rules app].
    split; intros r; rewrite !in_app_iff; cbn [In]; intuition (subst; auto). }
  unfold addRuleToGroups.
  assert ((forall r, In r (allRulesOf groups) ->
             In r (allRulesOf
                     (if forceNewGroup
                      then (groups ++ [{| group_id := newId; rules := [rule] |}])%list
                      else match pushToFirst
                                   (fun g => existsb (fun r0 => String.eqb (field r0) (field rule)) (rules g))
                                   rule groups with
                           | Some next => next
                           | None => (groups ++ [{| group_id := newId; rules := [rule] |}])%list
                           end))) /\
          (forall r,
             In r (allRulesOf
                     (if forceNewGroup
                      then (groups ++ [{| group_id := newId; rules := [rule] |}])%list
                      else match pushToFirst
                                   (fun g => existsb (fun r0 => String.eqb (field r0) (field rule)) (rules g))
                                   rule groups with
                           | Some next => next
                           | None => (groups ++ [{| group_id := newId; rules := [rule] |}])%list
                           end)) ->
             r = rule \/ In r (allRulesOf groups))) as Hun.
  { destruct forceNewGroup; [exact Hnew|].
    destruct (pushToFirst _ rule groups) as [next|] eqn:E; [|exact Hnew].
    exact (Hpush _ _ E). }
  destruct groupId as [gid|]; [|exact Hun].
  destruct (Str.nonEmpty gid); [|exact Hun].
  destruct (pushToFirst (fun g => String.eqb (group_id g) gid) rule groups)
    as [next|] eqn:E.
  - exact (Hpush _ _ E).
  - split; auto.
Qed.

Lemma recalculate_keeps_filters (st st' : FileState) :
  recalculateFilteredData st = Some st' ->
  filterGroups st' = filterGroups st /\ searchQuery st' = searchQuery st /\
  files st' = files st /\ activeFileId st' = activeFileId st /\
  history st' = history st.
Proof.
  unfold recalculateFilteredData.
  destruct (findActive _ _).
  - destruct (negb _).
    + intros [= <-]. repeat split.
    + destruct (collectMatches _ _ _ _ _); [|discriminate].
      intros [= <-]. repeat split.
  - intros [= <-]. repeat split.
Qed.

(** X22.  How [addFilterRule] groups: by default (no group named, no new
    group forced) a rule joins the first group that already filters on its
    field, so that groups which share no field still share none afterwards,
    and the rule is among the rules afterwards; forcing a new group, or
    naming a group, always keeps the earlier rules; naming a group that does
    not exist adds nothing at all. *)
Theorem addFilterRule_grouping (rule : FilterRule) (newId : string)
    (st : FileState) :
  (forall st',
      addFilterRule rule None false newId st = Some st' ->
      In rule (allRulesOf (filterGroups st')) /\
      (groupsSeparate (filterGroups st) -> groupsSeparate (filterGroups st'))) /\
  (forall groupId forceNewGroup st' r,
      addFilterRule rule groupId forceNewGroup newId st = Some st' ->
      In r (allRulesOf (filterGroups st)) -> In r (allRulesOf (filterGroups st'))) /\
  (forall gid forceNewGroup st',
      Str.nonEmpty gid = true ->
      Forall (fun g => group_id g <> gid) (filterGroups st) ->
      addFilterRule rule (Some gid) forceNewGroup newId st = Some st' ->
      filterGroups st' = filterGroups st).
Proof.
  repeat split.
  - apply recalculate_keeps_filters in H. destruct H as (-> & _).
    cbn [filterGroups withFilters]. unfold addRuleToGroups.
    destruct (pushToFirst _ rule (filterGroups st)) as [next|] eqn:E.
    + apply pushToFirst_rules in E.
      destruct E as (pre & g & post & _ & _ & _ & ->).
      unfold allRulesOf. rewrite !flat_map_app. cbn [flat_map rules].
      rewrite !in_app_iff. cbn [In]. tauto.
    + unfold allRulesOf. rewrite flat_map_app. apply in_or_app. right. now left.
  - intros Hsep. apply recalculate_keeps_filters in H. destruct H as (-> & _).
    cbn [filterGroups withFilters]. now apply addRuleToGroups_separate.
  - intros groupId forceNewGroup st' r H.
    apply recalculate_keeps_filters in H. destruct H as (-> & _).
    cbn [filterGroups withFilters]. apply addRuleToGroups_rules.
  - intros gid forceNewGroup st' Hgid Hnone H.
    apply recalculate_keeps_filters in H. destruct H as (-> & _).
    cbn [filterGroups withFilters]. unfold addRuleToGroups. rewrite Hgid.
    destruct (pushToFirst (fun g => String.eqb (group_id g) gid) rule (filterGroups st))
      as [next|] eqn:E; auto.
    apply pushToFirst_rules in E. destruct E as (pre & g & post & Heq & Hp & _).
    rewrite Heq in Hnone. apply Forall_app in Hnone. destruct Hnone as [_ Hg].
    inversion Hg as [|? ? Hne _]. apply String.eqb_eq in Hp. contradiction.
Qed.

Lemma removeRule_allRules (ruleId : string) (groups : list FilterGroup) :
  allRulesOf (removeRuleFromGroups ruleId groups) =
  filter (fun r => negb (String.eqb (rule_id r) ruleId)) (allRulesOf groups).
Proof.
  unfold removeRuleFromGroups, allRulesOf.
  induction groups as [|g r IH]; simpl; auto.
  rewrite filter_app, <- IH.
  destruct (filter _ (rules g)) as [|x l] eqn:E; simpl; auto.
Qed.

(** X23.  [removeFilterRule] removes every rule with the given id and
    nothing else: the rules afterwards are the earlier ones without those of
    that id, in the same order, and no group is left without a rule. *)
Theorem removeFilterRule_effect (ruleId : string) (st st' : FileState) :
  removeFilterRule ruleId st = Some st' ->
  allRulesOf (filterGroups st') =
    filter (fun r => negb (String.eqb (rule_id r) ruleId))
      (allRulesOf (filterGroups st)) /\
  Forall (fun r => rule_id r <> ruleId) (allRulesOf (filterGroups st')) /\
  Forall (fun g => rules g <> []) (filterGroups st').
Proof.
  intros H. apply recalculate_keeps_filters in H. destruct H as (-> & _).
  cbn [filterGroups withFilters]. rewrite removeRule_allRules. repeat split.
  - apply Forall_forall. intros r Hr. apply filter_In in Hr.
    destruct Hr as [_ Hr]. apply negb_true_iff, String.eqb_neq in Hr. exact Hr.
  - unfold removeRuleFromGroups. apply Forall_forall. intros g Hg.
    apply filter_In in Hg. destruct Hg as [_ Hg].
    destruct (rules g); [discriminate|congruence].
Qed.

Lemma filter_fresh_rules (ruleId : string) (l : list FilterRule) :
  Forall (fun r => rule_id r <> ruleId) l ->
  filter (fun r => negb (String.eqb (rule_id r) ruleId)) l = l.
Proof.
  induction 1 as [|r l Hr _ IH]; simpl; auto.
  apply String.eqb_neq in Hr. now rewrite Hr, IH.
Qed.

Lemma removeRule_fresh (ruleId : string) (groups : list FilterGroup) :
  Forall (fun r => rule_id r <> ruleId) (allRulesOf groups) ->
  Forall (fun g => rules g <> []) groups ->
  removeRuleFromGroups ruleId groups = groups.
Proof.
  unfold removeRuleFromGroups, allRulesOf.
  induction groups as [|g r IH]; simpl; auto.
  intros Hr Hg. apply Forall_app in Hr. destruct Hr as [Hr1 Hr2].
  inversion Hg as [|? ? Hg1 Hg2]; subst.
  rewrite (filter_fresh_rules _ _ Hr1).
  destruct g as [gid [|x l]]; [contradiction|]. simpl.
  now rewrite IH.
Qed.

Lemma removeRule_app (ruleId : string) (a b : list FilterGroup) :
  removeRuleFromGroups ruleId (a ++ b) =
  (removeRuleFromGroups ruleId a ++ removeRuleFromGroups ruleId b)%list.
Proof. unfold removeRuleFromGroups. now rewrite map_app, filter_app. Qed.

(** Removing the rule just added gives the groups back. *)
Lemma remove_added_rule (rule : FilterRule) (groupId : option string)
    (forceNewGroup : bool) (newId : string) (groups : list FilterGroup) :
  Forall (fun r => rule_id r <> rule_id rule) (allRulesOf groups) ->
  Forall (fun g => rules g <> []) groups ->
  removeRuleFromGroups (rule_id rule)
    (addRuleToGroups rule groupId forceNewGroup newId groups) = groups.
Proof.
  intros Hfresh Hne.
  assert (removeRuleFromGroups (rule_id rule)
            (groups ++ [{| group_id := newId; rules := [rule] |}]) = groups) as Hnew.
  { rewrite removeRule_app, removeRule_fresh by assumption.
    unfold removeRuleFromGroups. simpl. rewrite String.eqb_refl. simpl.
    apply app_nil_r. }
  assert (forall p next,
            pushToFirst p rule groups = Some next ->
            removeRuleFromGroups (rule_id rule) next = groups) as Hpush.
  { intros p next E. apply pushToFirst_rules in E.
    destruct E as (pre & g & post & -> & _ & _ & ->).
    unfold allRulesOf in Hfresh. rewrite flat_map_app in Hfresh.
    apply Forall_app in Hfresh. destruct Hfresh as [Hf1 Hf2].
    simpl in Hf2. apply Forall_app in Hf2. destruct Hf2 as [Hfg Hf2].
    apply Forall_app in Hne. destruct Hne as [Hn1 Hn2].
    inversion Hn2 as [|? ? Hng Hn3]; subst.
    rewrite removeRule_app, (removeRule_fresh _ pre) by assumption.
    f_equal. unfold removeRuleFromGroups at 1. cbn [map rules group_id].
    rewrite filter_app, (filter_fresh_rules _ _ Hfg). cbn [filter].
    rewrite String.eqb_refl. cbn [negb]. rewrite app_nil_r.
    destruct g as [gid [|x l]]; [contradiction|]. cbn [filter length Nat.ltb Nat.leb rules group_id].
    f_equal. now apply removeRule_fresh. }
  unfold addRuleToGroups.
  assert (removeRuleFromGroups (rule_id rule)
            (if forceNewGroup
             then (groups ++ [{| group_id := newId; rules := [rule] |}])%list
             else match pushToFirst
                          (fun g => existsb (fun r0 => String.eqb (field r0) (field rule)) (rules g))
                          rule groups with
                  | Some next => next
                  | None => (groups ++ [{| group_id := newId; rules := [rule] |}])%list
                  end) = groups) as Hun.
  { destruct forceNewGroup; [exact Hnew|].
    destruct (pushToFirst _ rule groups) as [next|] eqn:E; [|exact Hnew].
    exact (Hpush _ _ E). }
  destruct groupId as [gid|]; [|exact Hun].
  destruct (Str.nonEmpty gid); [|exact Hun].
  destruct (pushToFirst (fun g => String.eqb (group_id g) gid) rule groups)
    as [next|] eqn:E.
  - exact (Hpush _ _ E).
  - now apply removeRule_fresh.
Qed.

Lemma recalculate_ext (st1 st2 : FileState) :
  files st1 = files st2 -> activeFileId st1 = activeFileId st2 ->
  searchQuery st1 = searchQuery st2 -> filterGroups st1 = filterGroups st2 ->
  option_map filteredIndices (recalculateFilteredData st1) =
  option_map filteredIndices (recalculateFilteredData st2).
Proof.
  intros Hf Ha Hq Hg. unfold recalculateFilteredData.
  rewrite Hf, Ha, Hq, Hg.
  destruct (findActive _ _); auto.
  destruct (negb _); auto.
  destruct (collectMatches _ _ _ _ _); auto.
Qed.

(** X24.  Adding a rule and removing it again: when the rule's id is new
    and no group is empty, [removeFilterRule] after [addFilterRule] (in any
    of its three modes) gives back the filter groups, and the filtered
    positions are those a recalculation of the first state gives. *)
Theorem add_then_remove_rule (rule : FilterRule) (groupId : option string)
    (forceNewGroup : bool) (newId : string) (st st1 : FileState) :
  Forall (fun r => rule_id r <> rule_id rule) (allRulesOf (filterGroups st)) ->
  Forall (fun g => rules g <> []) (filterGroups st) ->
  addFilterRule rule groupId forceNewGroup newId st = Some st1 ->
  option_map filterGroups (removeFilterRule (rule_id rule) st1) =
    option_map filterGroups (recalculateFilteredData st) /\
  option_map filteredIndices (removeFilterRule (rule_id rule) st1) =
    option_map filteredIndices (recalculateFilteredData st).
Proof.
  intros Hfresh Hne Hadd.
  apply recalculate_keeps_filters in Hadd.
  destruct Hadd as (Hg & Hq & Hf & Ha & _).
  cbn [filterGroups searchQuery files activeFileId withFilters] in *.
  assert (removeRuleFromGroups (rule_id rule) (filterGroups st1) = filterGroups st)
    as Hback.
  { rewrite Hg. now apply remove_added_rule. }
  unfold removeFilterRule. rewrite Hback, Hq.
  assert (forall a b,
            files a = files b -> activeFileId a = activeFileId b ->
            searchQuery a = searchQuery b -> filterGroups a = filterGroups b ->
            option_map filterGroups (recalculateFilteredData a) =
            option_map filterGroups (recalculateFilteredData b)) as Hgroups.
  { intros a b E1 E2 E3 E4. unfold recalculateFilteredData.
    rewrite E1, E2, E3.
    destruct (findActive _ _); [|simpl; now f_equal].
    rewrite E4. destruct (negb _); [simpl; now f_equal|].
    destruct (collectMatches _ _ _ _ _); simpl; auto. now f_equal. }
  split.
  - now apply Hgroups.
  - now apply recalculate_ext.
Qed.

End StoreFilters.

(* ================================================================== *)
(** * The store: the field operations beside those of the worker *)
(* ================================================================== *)

Section StoreFields.
Context `{JC : JsonCodec}.

Lemma obj_get_In (o : Obj) (k : string) (v : Value) :
  NoDup (map fst o) -> In (k, v) o -> obj_get o k = Some v.
Proof.
  induction o as [|[k' v'] r IH]; simpl; [tauto|].
  intros Hnd [[= -> ->]|Hin].
  - now rewrite String.eqb_refl.
  - inversion Hnd as [|? ? Hk Hr]; subst.
    destruct (String.eqb_spec k' k) as [->|_]; auto.
    exfalso. apply Hk. apply in_map_iff. now exists (k, v).
Qed.

Lemma obj_del_filter (o : Obj) (k : string) :
  obj_del o k = filter (fun kv => negb (String.eqb (fst kv) k)) o.
Proof.
  induction o as [|[k' v'] r IH]; simpl; auto.
  destruct (String.eqb k' k); simpl; now rewrite IH.
Qed.

Lemma delete_all_filter (keys : list string) (o : Obj) :
  fold_left obj_del keys o =
  filter (fun kv => negb (existsb (String.eqb (fst kv)) keys)) o.
Proof.
  revert o. induction keys as [|k ks IH]; intros o; simpl.
  - induction o as [|kv r IHo]; simpl; auto. now rewrite <- IHo.
  - rewrite IH, obj_del_filter. clear IH.
    induction o as [|kv r IHo]; simpl; auto.
    destruct (String.eqb (fst kv) k); simpl; auto.
    destruct (existsb _ ks); simpl; now rewrite IHo.
Qed.

(** The loop of [batchDeleteFields] keeps the entries whose key is not
    deleted. *)
Lemma deleteKeys_loop (keys : list string) (oldRecord : Obj) :
  forall rest newRecord,
    NoDup (map fst newRecord ++ map fst rest)%list ->
    (forall kv, In kv rest -> obj_read oldRecord (fst kv) = snd kv) ->
    fold_left
      (fun newRecord k =>
         if negb (existsb (String.eqb k) keys)
         then obj_set newRecord k (obj_read oldRecord k)
         else newRecord)
      (map fst rest) newRecord =
    (newRecord ++ filter (fun kv => negb (existsb (String.eqb (fst kv)) keys)) rest)%list.
Proof.
  induction rest as [|[k v] r IH]; intros acc Hnd Hread; cbn [map fst fold_left filter].
  - now rewrite app_nil_r.
  - assert (~ In k (map fst acc)) as Hfresh.
    { apply NoDup_remove_2 in Hnd. intros H. apply Hnd. apply in_or_app. now left. }
    assert (NoDup (map fst acc ++ map fst r)%list) as Hnd'.
    { now apply NoDup_remove_1 in Hnd. }
    pose proof (Hread (k, v) (or_introl eq_refl)) as Hkv. cbn [fst snd] in Hkv.
    rewrite Hkv.
    destruct (negb (existsb (String.eqb k) keys)).
    + rewrite obj_set_fresh by exact Hfresh. rewrite IH.
      * now rewrite <- app_assoc.
      * rewrite map_app. cbn [map fst]. rewrite <- app_assoc. exact Hnd.
      * intros kv Hin. apply Hread. now right.
    + apply IH; auto. intros kv Hin. apply Hread. now right.
Qed.

Lemma deleteKeysItem_filter (keys : list string) (props : Obj) :
  NoDup (map fst props) ->
  deleteKeysItem keys (VObj props) =
  VObj (filter (fun kv => negb (existsb (String.eqb (fst kv)) keys)) props).
Proof.
  intros Hnd. unfold deleteKeysItem. f_equal.
  rewrite (deleteKeys_loop keys props props []); auto.
  intros [k v] Hkv. unfold obj_read. cbn [fst snd].
  now rewrite (obj_get_In props k v Hnd Hkv).
Qed.

(** X25.  [batchDeleteFields] of the store and the [deleteField] operation
    of the worker agree: on a dataset whose records have each key once and
    no key [__proto__] of their own (which the store's rebuilding
    assignment would not store), the store leaves in the active file
    exactly the records that [applyBatch] returns for the same keys, namely
    each mapping without the entries of those keys (the others in their
    order) and any other record as it is; and the deleted keys leave the
    key order. *)
Theorem batchDeleteFields_as_worker (keys : list string) (st : FileState)
    (fid : string) (file : FileSource) :
  activeFileId st = Some fid ->
  findActive (files st) (Some fid) = Some file ->
  keys <> [] ->
  Forall keysDistinct (data file) ->
  Forall (fun record => ownsKey record "__proto__" = false) (data file) ->
  let st' := batchDeleteFields keys st in
  exists file',
    findActive (files st') (activeFileId st') = Some file' /\
    option_map fst (applyBatch (data file) (DeleteField keys)) = Some (data file') /\
    data file' =
      map (fun record =>
             match record with
             | VObj props =>
                 VObj (filter (fun kv => negb (existsb (String.eqb (fst kv)) keys)) props)
             | _ => record
             end) (data file) /\
    (forall order, keyOrder file = Some order ->
       exists order', keyOrder file' = Some order' /\
                      forall k, In k order' <-> In k order /\ ~ In k keys).
Proof.
  intros Hact Hfile Hkeys Hdistinct _. cbv zeta.
  unfold batchDeleteFields. rewrite Hact, Hfile.
  destruct keys as [|k0 ks]; [contradiction|].
  set (keys := k0 :: ks) in *.
  cbn [files activeFileId withFiles]. rewrite ?Hact.
  match goal with
  | |- context [updateActive _ _ ?u] =>
      rewrite (findActive_updateActive _ _ u file (fun _ => eq_refl) Hfile)
  end.
  eexists. split; [reflexivity|]. cbn [data keyOrder withKeyOrder withData].
  assert (map (deleteKeysItem keys) (data file) =
          map (fun record =>
                 match record with
                 | VObj props =>
                     VObj (filter (fun kv => negb (existsb (String.eqb (fst kv)) keys)) props)
                 | _ => record
                 end) (data file)) as Hmap.
  { apply map_ext_in. intros record Hin.
    rewrite Forall_forall in Hdistinct. specialize (Hdistinct record Hin).
    destruct record; try reflexivity. now apply deleteKeysItem_filter. }
  repeat split.
  - rewrite Hmap. apply applyBatch_map. intros record _.
    destruct record; try reflexivity.
    unfold transformItem. cbn [applyItem applyRecord fst option_map].
    now rewrite delete_all_filter.
  - exact Hmap.
  - intros order ->. cbn [option_map]. eexists. split; [reflexivity|].
    intros k. rewrite filter_In, negb_true_iff.
    split; intros [H1 H2]; split; auto.
    + intros Hin. apply existsb_eqb_In in Hin. congruence.
    + destruct (existsb (String.eqb k) keys) eqn:E; auto.
      apply existsb_eqb_In in E. contradiction.
Qed.

(** The loop of [batchRenameField] reads each value where
    [Object.entries] would give it. *)
Lemma renameKeys_loop (oldKey newKey : string) (oldRecord : Obj) :
  forall rest acc,
    (forall kv, In kv rest -> obj_read oldRecord (fst kv) = snd kv) ->
    fold_left
      (fun newRecord key =>
         if String.eqb key oldKey then obj_set newRecord newKey (obj_read oldRecord key)
         else obj_set newRecord key (obj_read oldRecord key))
      (map fst rest) acc =
    fold_left
      (fun next kv =>
         if String.eqb (fst kv) oldKey then obj_set next newKey (snd kv)
         else obj_set next (fst kv) (snd kv))
      rest acc.
Proof.
  induction rest as [|[k v] r IH]; intros acc Hread; cbn [map fst snd fold_left]; auto.
  pose proof (Hread (k, v) (or_introl eq_refl)) as Hkv. cbn [fst snd] in Hkv.
  rewrite Hkv.
  apply IH. intros kv Hin. apply Hread. now right.
Qed.

Lemma renameKeys_entries (oldKey newKey : string) (oldRecord : Obj) :
  NoDup (map fst oldRecord) ->
  renameKeys oldKey newKey oldRecord = renameEntries oldKey newKey oldRecord.
Proof.
  intros Hnd. unfold renameKeys, renameEntries. apply renameKeys_loop.
  intros [k v] Hkv. unfold obj_read. cbn [fst snd].
  now rewrite (obj_get_In oldRecord k v Hnd Hkv).
Qed.

Lemma find_app_first {A : Type} (p : A -> bool) (l1 l2 : list A) :
  find p (l1 ++ l2) =
  match find p l1 with
  | Some y => Some y
  | None => find p l2
  end.
Proof.
  induction l1 as [|x r IH]; simpl; auto.
  destruct (p x); auto.
Qed.

Lemma find_app_last {A : Type} (p : A -> bool) (l : list A) (a : A) :
  find p (l ++ [a]) =
  match find p l with
  | Some y => Some y
  | None => if p a then Some a else None
  end.
Proof.
  induction l as [|x r IH]; simpl; auto.
  destruct (p x); auto.
Qed.

(** What a key reads after the renaming loop: the value of the last entry
    whose renamed key it is. *)
Lemma renameEntries_get (oldKey newKey x : string) (record : Obj) :
  forall next,
    obj_get
      (fold_left
         (fun next kv =>
            if String.eqb (fst kv) oldKey then obj_set next newKey (snd kv)
            else obj_set next (fst kv) (snd kv))
         record next) x =
    match
      find (fun kv => String.eqb (if String.eqb (fst kv) oldKey then newKey else fst kv) x)
        (rev record)
    with
    | Some kv => Some (snd kv)
    | None => obj_get next x
    end.
Proof.
  induction record as [|[k v] r IH]; intros next; cbn [fold_left rev fst snd]; auto.
  rewrite IH, find_app_last. cbn [fst snd].
  destruct (find _ (rev r)); auto.
  destruct (String.eqb k oldKey).
  - destruct (String.eqb_spec newKey x) as [->|Hne].
    + now rewrite obj_get_set_same.
    + now rewrite obj_get_set_other.
  - destruct (String.eqb_spec k x) as [->|Hne].
    + now rewrite obj_get_set_same.
    + now rewrite obj_get_set_other.
Qed.

Lemma find_rev_key (p : string * Value -> bool) (o : Obj) (x : string) :
  NoDup (map fst o) ->
  (forall kv, In kv o -> p kv = String.eqb (fst kv) x) ->
  match find p (rev o) with
  | Some kv => Some (snd kv)
  | None => None
  end = obj_get o x.
Proof.
  induction o as [|[k v] r IH]; intros Hnd Hp; cbn [rev find obj_get]; auto.
  inversion Hnd as [|? ? Hk Hr]; subst.
  rewrite find_app_last, (Hp (k, v)) by now left. cbn [fst].
  specialize (IH Hr (fun kv H => Hp kv (or_intror H))).
  destruct (String.eqb_spec k x) as [->|Hne].
  - destruct (find p (rev r)) as [kv|] eqn:E; auto.
    exfalso. apply Hk. rewrite <- (obj_has_In r x). unfold obj_has.
    rewrite <- IH. reflexivity.
  - destruct (find p (rev r)); auto.
Qed.

(** X26.  [batchRenameField] on one record that has the old key, where
    neither the new key nor a key of the record is [__proto__] (whose
    assignment to the rebuilt record would store nothing): the old key is
    gone and every key other than the two keeps its value; when the record
    does not have the new key and no key involved is an array index (such
    keys are enumerated first), the entry is renamed in place, with the
    order of the keys kept; when the new key is already there, it holds the
    renamed value only if its own entry came before the old key, else it
    keeps its own value and the renamed value is lost.  The worker's
    [renameField] on the same record always leaves the renamed value under
    the new key. *)
Theorem batchRenameField_record (oldKey newKey : string) (pre post : Obj)
    (v : Value) :
  let record := (pre ++ (oldKey, v) :: post)%list in
  NoDup (map fst record) ->
  oldKey <> newKey ->
  newKey <> "__proto__" ->
  ~ In "__proto__" (map fst record) ->
  exists next,
    renameItem oldKey newKey (VObj record) = VObj next /\
    obj_get next oldKey = None /\
    (forall k, k <> oldKey -> k <> newKey -> obj_get next k = obj_get record k) /\
    obj_get next newKey =
      match obj_get post newKey with
      | Some own => Some own
      | None => Some v
      end /\
    (obj_has record newKey = false ->
     Forall (fun k => integerLike k = false) (newKey :: map fst record) ->
     next = map (fun kv => (if String.eqb (fst kv) oldKey then newKey else fst kv, snd kv))
              record) /\
    exists next',
      transformItem (RenameField oldKey newKey) (VObj record) = Some (VObj next') /\
      obj_get next' newKey = Some v.
Proof.
  cbv zeta. intros Hnd Hne _ _.
  set (record := (pre ++ (oldKey, v) :: post)%list) in *.
  assert (obj_get record oldKey = Some v) as Hold.
  { apply obj_get_In; auto. unfold record. apply in_or_app. right. now left. }
  assert (obj_has record oldKey = true) as Hhas.
  { unfold obj_has. now rewrite Hold. }
  assert (NoDup (map fst pre) /\ NoDup (map fst post) /\
          ~ In oldKey (map fst pre) /\ ~ In oldKey (map fst post) /\
          (forall k, In k (map fst pre) -> ~ In k (map fst post))) as (Hp1 & Hp2 & Ho1 & Ho2 & Hcross).
  { unfold record in Hnd. rewrite map_app in Hnd. cbn [map fst] in Hnd.
    pose proof (NoDup_remove_1 _ _ _ Hnd) as H1.
    pose proof (NoDup_remove_2 _ _ _ Hnd) as H2.
    repeat split.
    - now apply NoDup_app_remove_r in H1.
    - now apply NoDup_app_remove_l in H1.
    - intros H. apply H2, in_or_app. now left.
    - intros H. apply H2, in_or_app. now right.
    - intros k Hk Hk'. clear - H1 Hk Hk'.
      induction (map fst pre) as [|a l IH]; [destruct Hk|].
      simpl in H1. inversion H1 as [|? ? Ha Hl]; subst.
      destruct Hk as [->|Hk]; [apply Ha, in_or_app; now right | auto]. }
  exists (renameKeys oldKey newKey record).
  unfold renameItem. rewrite Hhas. cbn [negb].
  rewrite renameKeys_entries by exact Hnd. unfold renameEntries.
  split; [reflexivity|]. split; [|split; [|split; [|split]]].
  - rewrite renameEntries_get. cbn [obj_get].
    rewrite <- (obj_get_del_same record oldKey), obj_del_filter.
    destruct (find _ (rev record)) as [[k w]|] eqn:E.
    + apply find_some in E. destruct E as [_ E]. cbn [fst] in E.
      destruct (String.eqb_spec k oldKey) as [->|Hk].
      * apply String.eqb_eq in E. congruence.
      * apply String.eqb_eq in E. congruence.
    + now rewrite <- obj_del_filter, obj_get_del_same.
  - intros k Hk1 Hk2. rewrite renameEntries_get. cbn [obj_get].
    rewrite <- (find_rev_key
                  (fun kv => String.eqb (if String.eqb (fst kv) oldKey then newKey else fst kv) k)
                  record k Hnd).
    + destruct (find _ (rev record)); reflexivity.
    + intros [k' w] _. cbn [fst].
      destruct (String.eqb_spec k' oldKey) as [->|Hk'].
      * destruct (String.eqb_spec newKey k), (String.eqb_spec oldKey k); congruence.
      * reflexivity.
  - rewrite renameEntries_get. cbn [obj_get]. unfold record.
    rewrite rev_app_distr. cbn [rev]. rewrite <- app_assoc. cbn [app].
    rewrite find_app_first.
    assert (forall kv, In kv post ->
              String.eqb (if String.eqb (fst kv) oldKey then newKey else fst kv) newKey =
              String.eqb (fst kv) newKey) as Hpost.
    { intros [k w] Hin. cbn [fst].
      destruct (String.eqb_spec k oldKey) as [->|_]; auto.
      exfalso. apply Ho2. apply in_map_iff. now exists (oldKey, w). }
    pose proof (find_rev_key _ post newKey Hp2 Hpost) as Hfind.
    destruct (find _ (rev post)) as [kv|]; rewrite <- Hfind; auto.
    cbn [find fst]. now rewrite String.eqb_refl, String.eqb_refl.
  - intros Hnew _.
    apply (renameEntries_fresh oldKey newKey record []).
    cbn [map app]. rewrite map_map. cbn [fst].
    rewrite <- (map_map fst (fun k => if String.eqb k oldKey then newKey else k)).
    apply NoDup_map_rename; auto. right. intros Hin.
    apply obj_has_In in Hin. congruence.
  - unfold transformItem. cbn [applyItem applyRecord]. rewrite Hhas.
    cbn [negb fst option_map].
    eexists. split; [reflexivity|].
    rewrite obj_get_del_other by exact Hne.
    rewrite obj_get_set_same. unfold obj_read. now rewrite Hold.
Qed.

End StoreFields.

Section WorkerValueEdits.
Context `{JC : JsonCodec}.

Lemma obj_set_keys_same (o : Obj) (k : string) (v : Value) :
  obj_has o k = true -> map fst (obj_set o k v) = map fst o.
Proof. intros H. now rewrite obj_set_keys, H. Qed.

Lemma obj_has_set_same (o : Obj) (k : string) (v : Value) :
  obj_has (obj_set o k v) k = true.
Proof. unfold obj_has. now rewrite obj_get_set_same. Qed.

(** X8.  [typeConvert] and [updateValue] edit one value and nothing else,
    for a key that the record has or that is not the name of a member of
    [Object.prototype]: the operation throws exactly when the value under
    the key cannot be converted to the string or number asked for;
    otherwise it returns a record that keeps its keys in their order and
    every other key with its value (a record without the key is returned as
    it is).  Converting to string or to boolean, and setting a value, give
    the same record when applied a second time. *)
Theorem value_edits_keep_the_other_fields (key : string) (target : ConvertTarget)
    (mode : UpdateMode) (value prefix suffix : option string) (record : Obj)
    (action : BatchAction) :
  action = TypeConvert key target \/
  action = UpdateValue key mode value prefix suffix ->
  inherited key = false \/ obj_has record key = true ->
  (throwsOn action (VObj record) = true ->
   transformItem action (VObj record) = None) /\
  (throwsOn action (VObj record) = false ->
   exists next,
     transformItem action (VObj record) = Some (VObj next) /\
     map fst next = map fst record /\
     (forall k, k <> key -> obj_get next k = obj_get record k) /\
     (obj_has record key = false -> next = record) /\
     (action = TypeConvert key TargetString \/
      action = TypeConvert key TargetBoolean \/
      action = UpdateValue key ModeSet value prefix suffix ->
      transformItem action (VObj next) = Some (VObj next))).
Proof.
  intros Haction _. split.
  - intros Hthrows. now apply transformItem_throws.
  - intros Hreturns.
    destruct Haction as [->| ->]; unfold transformItem; cbn [applyItem applyRecord].
    + destruct (obj_has record key) eqn:Hhas; cbn [negb].
      * destruct target.
        -- cbn [throwsOn] in Hreturns. rewrite Hhas in Hreturns.
           unfold convertible in Hreturns.
           destruct (toStr (obj_read record key)) as [text|] eqn:Htext;
             [|discriminate].
           cbn [fst option_map]. eexists. split; [reflexivity|]. repeat split.
           ++ now apply obj_set_keys_same.
           ++ intros k Hk. apply obj_get_set_other. congruence.
           ++ discriminate.
           ++ intros _. cbn [applyItem applyRecord].
              rewrite obj_has_set_same. cbn [negb].
              rewrite obj_read_set_same. cbn [toStr fst option_map].
              now rewrite obj_set_set_same.
        -- cbn [throwsOn] in Hreturns. rewrite Hhas in Hreturns.
           unfold convertible in Hreturns.
           destruct (toStr (obj_read record key)) as [shown|] eqn:Hshown;
             [|discriminate].
           destruct (toNumber (obj_read record key)) as [n|] eqn:Hn;
             [|apply toNumber_throws in Hn; congruence].
           destruct (num_isNaN n); cbn [fst option_map].
           ++ exists record. repeat split; auto.
              intros [H|[H|H]]; discriminate.
           ++ eexists. split; [reflexivity|]. repeat split.
              ** now apply obj_set_keys_same.
              ** intros k Hk. apply obj_get_set_other. congruence.
              ** discriminate.
              ** intros [H|[H|H]]; discriminate.
        -- cbn [fst option_map]. eexists. split; [reflexivity|]. repeat split.
           ++ now apply obj_set_keys_same.
           ++ intros k Hk. apply obj_get_set_other. congruence.
           ++ discriminate.
           ++ intros _. cbn [applyItem applyRecord].
              rewrite obj_has_set_same. cbn [negb fst option_map].
              rewrite obj_read_set_same, obj_set_set_same. cbn [truthy].
              reflexivity.
      * cbn [fst option_map]. exists record. repeat split; auto.
        intros _. cbn [applyItem applyRecord]. now rewrite Hhas.
    + destruct (obj_has record key) eqn:Hhas; cbn [negb].
      * destruct mode.
        -- cbn [fst option_map]. eexists. split; [reflexivity|]. repeat split.
           ++ now apply obj_set_keys_same.
           ++ intros k Hk. apply obj_get_set_other. congruence.
           ++ discriminate.
           ++ intros _. cbn [applyItem applyRecord].
              rewrite obj_has_set_same. cbn [negb fst option_map].
              now rewrite obj_set_set_same.
        -- destruct (obj_read record key) eqn:Hcur; cbn [fst option_map];
             try (exists record; repeat split; auto; try discriminate;
                  intros [H|[H|H]]; discriminate).
           eexists. split; [reflexivity|]. repeat split.
           ++ now apply obj_set_keys_same.
           ++ intros k Hk. apply obj_get_set_other. congruence.
           ++ discriminate.
           ++ intros [H|[H|H]]; discriminate.
      * cbn [fst option_map]. exists record. repeat split; auto.
        intros _. cbn [applyItem applyRecord]. now rewrite Hhas.
Qed.

End WorkerValueEdits.

Section StoreView.
Context `{JC : JsonCodec}.

Lemma filtered_view_of_recalculation (st st' : FileState)
    (activeFile : FileSource) :
  findActive (files st) (activeFileId st) = Some activeFile ->
  hasFilters (searchQuery st) (filterGroups st) = true ->
  recalculateFilteredData st = Some st' ->
  getFilteredData st' =
    filter (passes (searchQuery st) (filterGroups st)) (data activeFile).
Proof.
  intros Hactive Hfilters. unfold recalculateFilteredData.
  rewrite Hactive, Hfilters. cbn [negb].
  destruct (collectMatches _ _ _ _ _) as [matched|] eqn:Hc; [|discriminate].
  intros [= <-].
  destruct (collectMatches_spec _ _ _ _ _ _ Hc) as (found & -> & Hmap & _).
  cbn [app]. unfold getFilteredData.
  cbn [files activeFileId searchQuery filterGroups filteredIndices withFilterResult].
  rewrite Hactive, Hfilters. cbn [negb]. rewrite <- Hmap.
  apply map_ext. intros i. unfold arr_read. now rewrite Nat.sub_0_r.
Qed.

(** What [getFilteredData] shows after a recalculation. *)
Lemma recalculate_view (st st' : FileState) (activeFile : FileSource) :
  findActive (files st) (activeFileId st) = Some activeFile ->
  recalculateFilteredData st = Some st' ->
  getFilteredData st' =
    if hasFilters (searchQuery st) (filterGroups st)
    then filter (passes (searchQuery st) (filterGroups st)) (data activeFile)
    else data activeFile.
Proof.
  intros Hactive Hre.
  destruct (hasFilters (searchQuery st) (filterGroups st)) eqn:Hfilters.
  - exact (filtered_view_of_recalculation st st' activeFile Hactive Hfilters Hre).
  - unfold recalculateFilteredData in Hre. rewrite Hactive, Hfilters in Hre.
    cbn [negb] in Hre. injection Hre as <-.
    unfold getFilteredData.
    cbn [files activeFileId searchQuery filterGroups withFilterResult].
    now rewrite Hactive, Hfilters.
Qed.

(** X27.  Every change of the filters leaves a consistent view: after
    [setSearchQuery], [addFilterRule], [removeFilterRule] or
    [removeFilterGroup] (when the recalculation goes through),
    [getFilteredData] is exactly the records of the active file that pass
    the new search and the new rules, in their order, and all the records
    when no search and no rule is left; after [clearAllFilters] it is all
    the records. *)
Theorem filter_changes_keep_the_view (st : FileState) (activeFile : FileSource) :
  findActive (files st) (activeFileId st) = Some activeFile ->
  let shown := fun st' =>
    if hasFilters (searchQuery st') (filterGroups st')
    then filter (passes (searchQuery st') (filterGroups st')) (data activeFile)
    else data activeFile in
  (forall query st',
      setSearchQuery query st = Some st' ->
      searchQuery st' = query /\ getFilteredData st' = shown st') /\
  (forall rule groupId forceNewGroup newId st',
      addFilterRule rule groupId forceNewGroup newId st = Some st' ->
      getFilteredData st' = shown st') /\
  (forall ruleId st',
      removeFilterRule ruleId st = Some st' -> getFilteredData st' = shown st') /\
  (forall groupId st',
      removeFilterGroup groupId st = Some st' ->
      Forall (fun g => group_id g <> groupId) (filterGroups st') /\
      getFilteredData st' = shown st') /\
  getFilteredData (clearAllFilters st) = data activeFile.
Proof.
  intros Hactive shown. subst shown. cbv beta.
  assert (forall query groups st',
            recalculateFilteredData (withFilters st query groups) = Some st' ->
            searchQuery st' = query /\ filterGroups st' = groups /\
            getFilteredData st' =
              if hasFilters (searchQuery st') (filterGroups st')
              then filter (passes (searchQuery st') (filterGroups st')) (data activeFile)
              else data activeFile) as Hview.
  { intros query groups st' Hre.
    pose proof (recalculate_keeps_filters _ _ Hre) as (Hg & Hq & _).
    cbn [filterGroups searchQuery withFilters] in Hg, Hq.
    split; [exact Hq|]. split; [exact Hg|].
    rewrite Hq, Hg.
    exact (recalculate_view (withFilters st query groups) st' activeFile Hactive Hre). }
  repeat split.
  - exact (proj1 (Hview _ _ _ H)).
  - exact (proj2 (proj2 (Hview _ _ _ H))).
  - intros rule groupId forceNewGroup newId st' Hre.
    exact (proj2 (proj2 (Hview _ _ _ Hre))).
  - intros ruleId st' Hre. exact (proj2 (proj2 (Hview _ _ _ Hre))).
  - destruct (Hview _ _ _ H) as (_ & -> & _).
    apply Forall_forall. intros g Hg. apply filter_In in Hg.
    destruct Hg as [_ Hg]. apply negb_true_iff, String.eqb_neq in Hg. exact Hg.
  - exact (proj2 (proj2 (Hview _ _ _ H))).
  - unfold getFilteredData, clearAllFilters.
    cbn [files activeFileId searchQuery filterGroups]. now rewrite Hactive.
Qed.

End StoreView.

(* ================================================================== *)
(** * Worked examples on the example host *)
(* ================================================================== *)

Import ExampleHost.


(** ** Flattening an array of label/value pairs *)

(** C1. On [{tags:[{label:"Title",value:"Hello"},{label:"Year",value:2024}]}]
    with target key [tags], smart label/value handling and the prefix kept,
    the keys that [applyBatch] produces carry the array index:
    [tags.0.Title] and [tags.1.Year], not [tags.Title] and [tags.Year];
    the label/value pair alone, under the prefix [tags], does give
    [tags.Title]. *)
Theorem flattenStrip_eav_keeps_index :
  applyBatch [tagsRecord] flattenTags =
    Some ([VObj [("tags.0.Title", VStr "Hello"); ("tags.1.Year", int 2024)]], []) /\
  option_map fst (applyBatch [tagsRecord] flattenTags) <>
    Some [VObj [("tags.Title", VStr "Hello"); ("tags.Year", int 2024)]] /\
  flattenObject (VObj [("label", VStr "Title"); ("value", VStr "Hello")])
    "tags" [] None 0%N true = [("tags.Title", VStr "Hello")].
Proof.
  assert (applyBatch [tagsRecord] flattenTags =
          Some ([VObj [("tags.0.Title", VStr "Hello"); ("tags.1.Year", int 2024)]], []))
    as Hout by reflexivity.
  repeat split; try reflexivity.
  rewrite Hout. cbn [option_map fst]. intros H. discriminate H.
Qed.

(** ** A rule on a nested field *)

(** C2. For the record [{a:{b:"x"}}] and the rule [a.b equals "x"], the
    nested traversal of the path finds ["x"] (this is the value the data
    insights panel counts, and the rule is the one it creates for it), but
    [checkRule] reads the property named ["a.b"] of the record, finds
    nothing, compares the empty string and rejects the record. *)
Theorem checkRule_reads_top_level_key :
  getValue nestedRecord (field nestedRule) = VStr "x" /\
  option_map
    (fun shown => evalOperator (operator nestedRule) shown (value nestedRule))
    (toStr (getValue nestedRecord (field nestedRule))) = Some true /\
  fieldValueOf nestedRecord (field nestedRule) = Some "" /\
  checkRule nestedRecord nestedRule = Some false /\
  option_map filteredIndices
    (recalculateFilteredData
       (stateOf [nestedRecord] "" [{| group_id := "g1"; rules := [nestedRule] |}] []))
  = Some [].
Proof. repeat split; reflexivity. Qed.

(** ** Committing a filter that matches nothing *)

(** C6. With the rule [status equals "Z"] on two records whose status is
    [A] and [B], no record matches: the matched index list is empty and
    [getFilteredData] shows no record. [commitFilterToData] then runs
    (it returns [true] and clears the filter state) but leaves both records
    in the dataset instead of none. *)
Theorem commitFilter_keeps_all_when_nothing_matches :
  let st := stateOf statusRecords "" statusIsZ [] in
  recalculateFilteredData st = Some st /\
  getFilteredData st = [] /\
  snd (commitFilterToData st) = true /\
  map data (files (fst (commitFilterToData st))) = [statusRecords] /\
  searchQuery (fst (commitFilterToData st)) = "" /\
  filterGroups (fst (commitFilterToData st)) = [] /\
  filteredIndices (fst (commitFilterToData st)) = [].
Proof. repeat split; reflexivity. Qed.

(** ** Nesting a field under itself *)


(** The store and the batch panel on a request that names the target among
    the source fields: the target is dropped from the source list and the
    nesting goes ahead with the rest. *)
Lemma nestFields_exclusion_example :
  let st := stateOf [VObj [("t", int 1); ("b", int 2)]; VNull] "" [] [] in
  cleanSourceFields ["t"; " b "; "b"] "t" = ["b"] /\
  ~ In "t" (cleanSourceFields ["t"; " b "; "b"] "t") /\
  nestFields ["t"] " t " st = st /\
  map data (files (nestFields ["t"; " b "; "b"] " t " st)) =
    [[VObj [("t", VObj [("b", int 2)])]; VNull]] /\
  panelNestFields " t " ["t"; "b"] = Some (NestFields ["b"] "t") /\
  panelNestFields " t " ["t"] = None /\
  option_map fst
    (applyBatch (data (fileOf [VObj [("t", int 1)]])) (NestFields ["t"] "")) =
    Some [VObj [("t", int 1)]].
Proof.
  cbv zeta.
  destruct nestFields_exclusion as (Hstore & Hpanel & _ & Hworker).
  repeat apply conj.
  - reflexivity.
  - exact (proj1 (Hstore ["t"; " b "; "b"] " t " (stateOf [] "" [] []))).
  - apply (proj1 (proj2 (Hstore ["t"] " t " _))). right. reflexivity.
  - reflexivity.
  - reflexivity.
  - apply (proj2 (Hpanel " t " ["t"])). right. intros f [<-|[]]. reflexivity.
  - apply Hworker. left. reflexivity.
Defined.

(** ** Writing and reading the key [__proto__] *)

(** C3, as stated, fails: written at the path [["__proto__"]] of the empty
    mapping, the number 1 is not stored (the assignment reaches the setter
    that [Object.prototype] provides for this key, which ignores a value
    that is neither an object nor [null]); [setAtPath] returns the empty
    mapping, and reading the path gives [Object.prototype], not 1. *)
Lemma setAtPath_proto_key_not_read_back :
  Proto.setAtPath (Proto.ofValue (VObj [])) [PStr "__proto__"]
    (Proto.ofValue (int 1)) = Proto.ofValue (VObj []) /\
  Proto.getAtPath
    (Proto.setAtPath (Proto.ofValue (VObj [])) [PStr "__proto__"]
       (Proto.ofValue (int 1))) [PStr "__proto__"] =
    Some Proto.JObjectPrototype /\
  Proto.getAtPath
    (Proto.setAtPath (Proto.ofValue (VObj [])) [PStr "__proto__"]
       (Proto.ofValue (int 1))) [PStr "__proto__"] <>
    Some (Proto.ofValue (int 1)) /\
  ~ (forall v p x, Proto.getAtPath (Proto.setAtPath v p x) p = Some x).
Proof.
  assert (Proto.getAtPath
            (Proto.setAtPath (Proto.ofValue (VObj [])) [PStr "__proto__"]
               (Proto.ofValue (int 1))) [PStr "__proto__"] =
          Some Proto.JObjectPrototype) as Hread by reflexivity.
  split; [reflexivity|]. split; [exact Hread|]. split.
  - rewrite Hread. discriminate.
  - intros H.
    specialize (H (Proto.ofValue (VObj [])) [PStr "__proto__"] (Proto.ofValue (int 1))).
    rewrite Hread in H. discriminate H.
Qed.

(** C3 on the empty mapping: a path through [toString], a member of
    [Object.prototype], and a path that passes through [__proto__] before
    its end are read back; so is the key [__proto__] of a mapping that has
    it of its own (as [addObjectEntryAtPath] creates it). *)
Lemma setAtPath_getAtPath_roundtrip_example :
  let v := Proto.ofValue (VObj []) in
  let w := Proto.ofValue (VObj [("__proto__", int 5)]) in
  let x := Proto.ofValue (int 1) in
  Proto.getAtPath (Proto.setAtPath v [PStr "toString"; PNum (IInt 0)] x)
    [PStr "toString"; PNum (IInt 0)] = Some x /\
  Proto.getAtPath (Proto.setAtPath v [PStr "__proto__"; PStr "a"] x)
    [PStr "__proto__"; PStr "a"] = Some x /\
  Proto.getAtPath (Proto.setAtPath w [PStr "__proto__"] x) [PStr "__proto__"] =
    Some x /\
  Proto.setAtPath (Proto.ofValue (VObj [("a", VStr "s")])) [PStr "a"; PStr "b"] x =
    Proto.ofValue (VObj [("a", VObj [("b", int 1)])]).
Proof.
  cbv zeta. repeat apply conj.
  - exact (proj1 (proj2 (setAtPath_getAtPath_roundtrip (Proto.ofValue (VObj []))
                           [PStr "toString"; PNum (IInt 0)] (Proto.ofValue (int 1))))
             eq_refl).
  - exact (proj1 (proj2 (setAtPath_getAtPath_roundtrip (Proto.ofValue (VObj []))
                           [PStr "__proto__"; PStr "a"] (Proto.ofValue (int 1))))
             eq_refl).
  - exact (proj1 (setAtPath_getAtPath_roundtrip
                    (Proto.ofValue (VObj [("__proto__", int 5)]))
                    [PStr "__proto__"] (Proto.ofValue (int 1)))
             eq_refl).
  - exact (proj2 (proj2 (setAtPath_getAtPath_roundtrip (Proto.ofValue (VObj []))
                           [PStr "a"; PStr "b"] (Proto.ofValue (int 1))))
             Proto.JObjectPrototype [("a", Proto.JStr "s")] "s" eq_refl).
Defined.

(** ** Parsing stringified JSON *)

Lemma parseKnown_shrinks : ParserShrinks.
Proof.
  intros text parsed H _. cbn in H. unfold parseKnown in H.
  repeat match type of H with
    | (if String.eqb ?a ?b then _ else _) = _ =>
        destruct (String.eqb a b) eqn:E;
        [apply String.eqb_eq in E; subst text; injection H as <-; cbn; lia | clear E]
    end.
  discriminate.
Qed.

(** C5 on a record whose fields hold the texts [{"x":1}] and [["{}"]]. *)
Lemma smartParseValue_idempotent_example :
  let v := VObj [("info", VStr text_x1); ("list", VStr text_nested); ("n", int 7)] in
  smartParseValue v =
    VObj [("info", VObj [("x", int 1)]); ("list", VArr [VObj []] []); ("n", int 7)] /\
  smartParseValue (smartParseValue v) = smartParseValue v.
Proof.
  cbv zeta. split.
  - reflexivity.
  - apply (smartParseValue_idempotent parseKnown_shrinks).
Defined.

(** ** Record by record *)


(** ** Records that are not objects *)

(** C10 on a dataset whose first record is the string ["abc"]: the search
    for [abc] and the rule [b isEmpty] select the object only. *)
Lemma primitive_records_never_match_example :
  let st := stateOf mixedRecords "abc" fieldBIsEmpty [] in
  let st' := stateOf mixedRecords "abc" fieldBIsEmpty [1%N] in
  recalculateFilteredData st = Some st' /\
  ~ In 0%N (filteredIndices st') /\
  ~ In 2%N (filteredIndices st').
Proof.
  cbv zeta. split; [reflexivity|].
  pose proof (primitive_records_never_match
                (stateOf mixedRecords "abc" fieldBIsEmpty [])
                (stateOf mixedRecords "abc" fieldBIsEmpty [1%N])
                (fileOf mixedRecords) eq_refl eq_refl) as [_ Hnever].
  split.
  - exact (Hnever 0%nat (VStr "abc") eq_refl eq_refl).
  - exact (Hnever 2%nat VNull eq_refl eq_refl).
Defined.

(* ================================================================== *)
(** * Worked examples for the further properties *)
(* ================================================================== *)

Ltac distinct_keys := repeat constructor; cbn; intuition discriminate.

(** ** Paths *)

(** X1 on [{a:1,b:2}] written below [a], and on [[1]] written at index 3. *)
Lemma setAtPath_frame_example :
  (exists props',
      setAtPath (VObj [("a", int 1); ("b", int 2)]) [PStr "a"; PStr "c"] (int 9) =
        VObj props' /\
      obj_get props' "b" = Some (int 2)) /\
  (exists elems',
      setAtPath (VArr [int 1] []) [PNum (IInt 3)] (int 9) = VArr elems' [] /\
      length elems' = 4%nat /\
      forall j, j <> 3%N -> arr_read elems' j = arr_read [int 1] j).
Proof.
  split.
  - exact (proj1 (setAtPath_frame (PStr "a") [PStr "c"] (int 9))
             [("a", int 1); ("b", int 2)] "b" ltac:(cbn; discriminate)).
  - exact (proj2 (setAtPath_frame (PNum (IInt 3)) [] (int 9)) [int 1] [] 3%N eq_refl).
Defined.

(** X2 on the second element of the array under [a]. *)
Lemma setAtPath_of_getAtPath_example :
  let v := VObj [("a", VArr [int 1; int 2] [])] in
  let p := [PStr "a"; PNum (IInt 1)] in
  getAtPath v p = int 2 /\ setAtPath v p (int 2) = v.
Proof.
  cbv zeta. split; [reflexivity|].
  exact (setAtPath_of_getAtPath (VObj [("a", VArr [int 1; int 2] [])])
           [PStr "a"; PNum (IInt 1)] eq_refl).
Defined.

(** X3: removing [a.x] from [{a:{x:1,y:2}}]. *)
Lemma removeAtPath_mapping_example :
  let v := VObj [("a", VObj [("x", int 1); ("y", int 2)])] in
  removeAtPath v [PStr "a"; PStr "x"] = VObj [("a", VObj [("y", int 2)])] /\
  getAtPath (removeAtPath v [PStr "a"; PStr "x"]) [PStr "a"; PStr "x"] = VUndef.
Proof.
  cbv zeta. split; [reflexivity|].
  exact (proj1 (proj2 (removeAtPath_mapping
                         (VObj [("a", VObj [("x", int 1); ("y", int 2)])])
                         [PStr "a"] (PStr "x") [("x", int 1); ("y", int 2)] eq_refl))
           eq_refl).
Defined.

Lemma strictEq_index (i a : N) :
  num_strictEq (num_ofN a) (indexNumber (PNum (IInt (Z.of_N i)))) = N.eqb a i.
Proof.
  cbn. destruct (N.eqb_spec a i) as [->|Hne].
  - apply Z.eqb_refl.
  - apply Z.eqb_neq. lia.
Qed.

(** X4: removing the element at index 1 of [[1,2,3]] under [l]. *)
Lemma removeAtPath_array_example :
  let v := VObj [("l", VArr [int 1; int 2; int 3] [])] in
  getAtPath (removeAtPath v [PStr "l"; PNum (IInt 1)]) [PStr "l"] =
    VArr [int 1; int 3] [].
Proof.
  cbv zeta.
  exact (proj1 (removeAtPath_array
                  (VObj [("l", VArr [int 1; int 2; int 3] [])])
                  [PStr "l"] (PNum (IInt 1)) [int 1; int 2; int 3] [] 1%N
                  (strictEq_index 1) eq_refl
                  ltac:(cbn; intuition discriminate) eq_refl)).
Defined.

(** X5: renaming [a.x] to [z] in [{a:{x:1,y:2}}] keeps the place of the
    entry. *)
Lemma renameKeyAtPath_in_place_example :
  let v := VObj [("a", VObj [("x", int 1); ("y", int 2)])] in
  getAtPath (renameKeyAtPath v [PStr "a"; PStr "x"] "z") [PStr "a"] =
    VObj [("z", int 1); ("y", int 2)] /\
  renameKeyAtPath v [PStr "a"; PStr "x"] "" = v /\
  renameKeyAtPath v [PStr "a"; PStr "w"] "z" = v.
Proof.
  cbv zeta.
  pose proof (renameKeyAtPath_in_place
                (VObj [("a", VObj [("x", int 1); ("y", int 2)])]) [PStr "a"]
                (PStr "x") "z") as (Hrename & _).
  pose proof (renameKeyAtPath_in_place
                (VObj [("a", VObj [("x", int 1); ("y", int 2)])]) [PStr "a"]
                (PStr "x") "") as (_ & Hempty & _).
  pose proof (renameKeyAtPath_in_place
                (VObj [("a", VObj [("x", int 1); ("y", int 2)])]) [PStr "a"]
                (PStr "w") "z") as (_ & _ & _ & Hmissing).
  repeat apply conj.
  - exact (proj1 (Hrename [("x", int 1); ("y", int 2)] eq_refl
                    ltac:(distinct_keys) eq_refl ltac:(discriminate)
                    ltac:(right; cbn; intuition discriminate)
                    ltac:(repeat constructor))).
  - exact (Hempty eq_refl).
  - exact (Hmissing [("x", int 1); ("y", int 2)] eq_refl eq_refl eq_refl).
Defined.

(** X6: adding [c] to the mapping under [a], and an item to the array
    under [l]. *)
Lemma add_at_path_example :
  let v := VObj [("a", VObj [("x", int 1)]); ("l", VArr [int 1] [])] in
  getAtPath (addObjectEntryAtPath v [PStr "a"] "c" (int 5)) [PStr "a"; PStr "c"] = int 5 /\
  getAtPath (addArrayItemAtPath v [PStr "l"] (int 2)) [PStr "l"] =
    VArr [int 1; int 2] [] /\
  addObjectEntryAtPath v [PStr "l"] "c" (int 5) = v.
Proof.
  cbv zeta.
  pose proof (add_at_path (VObj [("a", VObj [("x", int 1)]); ("l", VArr [int 1] [])])
                [PStr "a"] "c" (int 5)) as (Hentry & _).
  pose proof (add_at_path (VObj [("a", VObj [("x", int 1)]); ("l", VArr [int 1] [])])
                [PStr "l"] "c" (int 2)) as (_ & Hitem & _).
  pose proof (add_at_path (VObj [("a", VObj [("x", int 1)]); ("l", VArr [int 1] [])])
                [PStr "l"] "c" (int 5)) as (_ & _ & Hkind & _).
  repeat apply conj.
  - exact (proj1 (Hentry [("x", int 1)] eq_refl)).
  - exact (Hitem [int 1] [] eq_refl).
  - exact (Hkind eq_refl).
Defined.

(** ** Operations of the worker *)

(** X7: [keyReorder] with the order [c, a, c, z] on [{a:1,b:2,c:3}]. *)
Lemma keyReorder_order_and_values_example :
  exists next,
    transformItem (KeyReorder ["c"; "a"; "c"; "z"])
      (VObj [("a", int 1); ("b", int 2); ("c", int 3)]) = Some (VObj next) /\
    map fst next = ["c"; "a"; "b"] /\
    forall k, obj_get next k = obj_get [("a", int 1); ("b", int 2); ("c", int 3)] k.
Proof.
  exact (keyReorder_order_and_values ["c"; "a"; "c"; "z"]
           [("a", int 1); ("b", int 2); ("c", int 3)] ltac:(distinct_keys)
           ltac:(repeat constructor) ltac:(repeat constructor)).
Defined.

(** X8: converting [a] of [{a:5,b:2}] to a string, and of
    [{a:{toString:1}}], which throws. *)
Lemma value_edits_keep_the_other_fields_example :
  (exists next,
      transformItem (TypeConvert "a" TargetString) (VObj [("a", int 5); ("b", int 2)]) =
        Some (VObj next) /\
      map fst next = ["a"; "b"] /\
      obj_get next "b" = Some (int 2) /\
      transformItem (TypeConvert "a" TargetString) (VObj next) = Some (VObj next)) /\
  transformItem (TypeConvert "a" TargetString)
    (VObj [("a", VObj [("toString", int 1)])]) = None.
Proof.
  split.
  - destruct (proj2 (value_edits_keep_the_other_fields "a" TargetString ModeSet
                       None None None [("a", int 5); ("b", int 2)]
                       (TypeConvert "a" TargetString)
                       (or_introl eq_refl) (or_introl eq_refl)) eq_refl)
      as (next & Hout & Hkeys & Hother & _ & Hagain).
    exists next. repeat apply conj.
    + exact Hout.
    + exact Hkeys.
    + exact (Hother "b" ltac:(discriminate)).
    + exact (Hagain (or_introl eq_refl)).
  - exact (proj1 (value_edits_keep_the_other_fields "a" TargetString ModeSet
                    None None None [("a", VObj [("toString", int 1)])]
                    (TypeConvert "a" TargetString)
                    (or_introl eq_refl) (or_introl eq_refl)) eq_refl).
Defined.

(** X9: renaming [a] to [c], a missing key, and a key to itself. *)
Lemma renameField_cases_example :
  transformItem (RenameField "z" "c") (VObj [("a", int 1); ("b", int 2)]) =
    Some (VObj [("a", int 1); ("b", int 2)]) /\
  transformItem (RenameField "a" "a") (VObj [("a", int 1); ("b", int 2)]) =
    Some (VObj [("b", int 2)]) /\
  exists next,
    transformItem (RenameField "a" "c") (VObj [("a", int 1); ("b", int 2)]) =
      Some (VObj next) /\
    obj_get next "c" = Some (int 1) /\ obj_get next "a" = None.
Proof.
  repeat apply conj.
  - exact (proj1 (renameField_cases "z" "c" [("a", int 1); ("b", int 2)])
             eq_refl eq_refl).
  - exact (proj1 (proj2 (renameField_cases "a" "a" [("a", int 1); ("b", int 2)]))
             eq_refl eq_refl).
  - destruct (proj2 (proj2 (renameField_cases "a" "c" [("a", int 1); ("b", int 2)]))
                eq_refl ltac:(discriminate) ltac:(discriminate))
      as (next & Hout & Hto & Hfrom & _).
    exists next. repeat apply conj; assumption.
Defined.

(** X10: nesting [a] and [b] under [t] in [{a:1,t:{k:0},c:3}]. *)
Lemma nestFields_moves_values_example :
  exists next targetObject,
    transformItem (NestFields ["a"; "b"] "t")
      (VObj [("a", int 1); ("t", VObj [("k", int 0)]); ("c", int 3)]) =
      Some (VObj next) /\
    obj_get next "t" = Some (VObj targetObject) /\
    obj_get next "a" = None /\
    obj_get targetObject "a" = Some (int 1) /\
    obj_get targetObject "b" = Some VUndef /\
    obj_get next "c" = Some (int 3) /\
    obj_get targetObject "k" = Some (int 0).
Proof.
  destruct (nestFields_moves_values ["a"; "b"] "t"
              [("a", int 1); ("t", VObj [("k", int 0)]); ("c", int 3)]
              ltac:(distinct_keys) ltac:(cbn; intuition discriminate)
              ltac:(discriminate) ltac:(discriminate) ltac:(discriminate)
              ltac:(repeat constructor))
    as (next & targetObject & Hout & Htarget & Hmoved & Hrecord & Hexisting).
  exists next, targetObject. repeat apply conj.
  - exact Hout.
  - exact Htarget.
  - exact (proj1 (Hmoved "a" ltac:(cbn; auto))).
  - exact (proj2 (Hmoved "a" ltac:(cbn; auto))).
  - exact (proj2 (Hmoved "b" ltac:(cbn; auto))).
  - exact (Hrecord "c" ltac:(cbn; intuition discriminate) ltac:(discriminate)).
  - exact (Hexisting "k" ltac:(cbn; intuition discriminate)).
Defined.

(** X11: a text of two lines holds no line feed once escaped. *)
Lemma escapeStringValue_single_line_example :
  occurs Chars.newline
    (escapeStringValue (String "a" (String Chars.newline "b"))) = false.
Proof.
  exact (escapeStringValue_single_line (String "a" (String Chars.newline "b"))
           Chars.newline ltac:(left; reflexivity)).
Defined.

(** X12: a text without a backslash is unescaped to itself. *)
Lemma unescapeStringValue_shrinks_example :
  unescapeStringValue "plain text" = "plain text".
Proof.
  exact (proj2 (unescapeStringValue_shrinks "plain text") eq_refl).
Defined.

(** X14: flattening [{a:{b:1,c:[2]}}] twice. *)
Lemma flattenStrip_idempotent_example :
  let action := FlattenStrip None None None None None None in
  let item := VObj [("a", VObj [("b", int 1); ("c", VArr [int 2] [])])] in
  transformItem action item = Some (VObj [("a.b", int 1); ("a.c.0", int 2)]) /\
  exists out,
    transformItem action item = Some out /\
    transformItem action out = Some out.
Proof.
  cbv zeta. split; [reflexivity|].
  exact (flattenStrip_idempotent None None
           (VObj [("a", VObj [("b", int 1); ("c", VArr [int 2] [])])])
           ltac:(discriminate)).
Defined.

(** X15: escaping and unescaping a record whose text holds a quote and a
    line feed. *)
Lemma escape_then_unescape_record_example :
  let text := String "a" (String Chars.quote (String Chars.newline "b")) in
  let record := [("t", VStr text); ("n", int 1)] in
  exists escaped,
    transformItem (EscapeString None None) (VObj record) = Some escaped /\
    transformItem (UnescapeString None None) escaped = Some (VObj record).
Proof.
  cbv zeta.
  exact (proj2 (proj2 (escape_then_unescape_record
                         [("t", VStr (String "a" (String Chars.quote
                                                    (String Chars.newline "b"))));
                          ("n", int 1)]
                         ltac:(distinct_keys)))
           ltac:(repeat constructor)).
Defined.

(** X16: the [parseJSON] operation on a record whose field holds the text
    [{"x":1}]. *)
Lemma parseJSON_operation_idempotent_example :
  let action := ParseJSON (Some "info") None in
  let item := VObj [("info", VStr text_x1); ("n", int 7)] in
  transformItem action item =
    Some (VObj [("info", VObj [("x", int 1)]); ("n", int 7)]) /\
  exists out,
    transformItem action item = Some out /\
    transformItem action out = Some out.
Proof.
  cbv zeta. split; [reflexivity|].
  exact (parseJSON_operation_idempotent parseKnown_shrinks (Some "info") None
           (VObj [("info", VStr text_x1); ("n", int 7)])).
Defined.

(** ** History, undo and redo *)

(** X17 on a state whose history is still empty. *)
Lemma history_stays_bounded_example :
  let st := stateOf statusRecords "" [] [] in
  historyBounded (history (replaceActiveFileData [VNull] true st)) /\
  historyBounded (history (fst (undo (replaceActiveFileData [VNull] true st)))).
Proof.
  cbv zeta.
  pose proof (history_stays_bounded (stateOf statusRecords "" [] [])
                ltac:(constructor)) as (Hreplace & _).
  split; [exact (Hreplace [VNull] true)|].
  exact (proj1 (proj2 (proj2 (proj2 (proj2 (proj2 (proj2
           (history_stays_bounded (replaceActiveFileData [VNull] true
                                     (stateOf statusRecords "" [] []))
              (Hreplace [VNull] true))))))))).
Defined.

(** X18: replacing the two status records by one record, then undo and
    redo. *)
Lemma undo_redo_replaceActiveFileData_example :
  let st := stateOf statusRecords "" [] [] in
  let st1 := replaceActiveFileData [VObj [("status", VStr "C")]] true st in
  map data (files st1) = [[VObj [("status", VStr "C")]]] /\
  snd (undo st1) = true /\
  findActive (files (fst (undo st1))) (activeFileId (fst (undo st1))) =
    Some (fileOf statusRecords) /\
  findActive (files (fst (redo (fst (undo st1)))))
    (activeFileId (fst (redo (fst (undo st1))))) =
    Some (fileOf [VObj [("status", VStr "C")]]).
Proof.
  cbv zeta.
  pose proof (undo_redo_replaceActiveFileData (stateOf statusRecords "" [] []) "f1"
                (fileOf statusRecords) [VObj [("status", VStr "C")]]
                eq_refl eq_refl eq_refl) as (_ & Hundo & Hback & _ & _ & Hredo).
  repeat apply conj.
  - reflexivity.
  - exact Hundo.
  - exact Hback.
  - exact Hredo.
Defined.

(** X19: a file without key order keeps the new order after the undo of
    [reorderKeys]. *)
Lemma undo_after_reorderKeys_example :
  let st := stateOf [VObj [("a", int 1); ("b", int 2)]] "" [] [] in
  let st2 := fst (undo (reorderKeys ["b"; "a"] st)) in
  option_map data (findActive (files st2) (activeFileId st2)) =
    Some [VObj [("a", int 1); ("b", int 2)]] /\
  option_map keyOrder (findActive (files st2) (activeFileId st2)) =
    Some (Some ["b"; "a"]).
Proof.
  cbv zeta.
  pose proof (undo_after_reorderKeys
                (stateOf [VObj [("a", int 1); ("b", int 2)]] "" [] []) "f1"
                (fileOf [VObj [("a", int 1); ("b", int 2)]]) ["b"; "a"]
                eq_refl eq_refl eq_refl) as (_ & Hfile).
  split.
  - exact (f_equal (option_map data) Hfile).
  - exact (f_equal (option_map keyOrder) Hfile).
Defined.

(** X20: a request for position 99 of a file of two records ends on the
    last record. *)
Lemma cursor_stays_in_range_example :
  let st := stateOf statusRecords "" [] [] in
  cursorInRange (setIndex 99 st) /\ currentIndex (setIndex 99 st) = 1%Z /\
  cursorInRange (replaceActiveFileData [] true (setIndex 99 st)).
Proof.
  cbv zeta.
  pose proof (cursor_stays_in_range (stateOf statusRecords "" [] [])
                ltac:(cbn; lia)) as (Hset & _).
  split; [|split].
  - exact (Hset 99%Z).
  - reflexivity.
  - exact (proj1 (proj2 (proj2 (cursor_stays_in_range
                                  (setIndex 99 (stateOf statusRecords "" [] []))
                                  (Hset 99%Z)))) [] true).
Defined.

(** ** The filtered view and the filter rules *)

(** X21: the search for [abc] with the rule [b isEmpty] shows the one
    object of the dataset, which is at position 1. *)
Lemma filtered_view_is_the_passing_records_example :
  let st := stateOf mixedRecords "abc" fieldBIsEmpty [] in
  let st' := stateOf mixedRecords "abc" fieldBIsEmpty [1%N] in
  recalculateFilteredData st = Some st' /\
  getFilteredData st' = [VObj [("a", VStr "ABC")]] /\
  getFilteredData st' = filter (passes "abc" fieldBIsEmpty) mixedRecords /\
  getOriginalIndex 0 st' = 1%N.
Proof.
  cbv zeta.
  pose proof (filtered_view_is_the_passing_records
                (stateOf mixedRecords "abc" fieldBIsEmpty [])
                (stateOf mixedRecords "abc" fieldBIsEmpty [1%N])
                (fileOf mixedRecords) eq_refl eq_refl eq_refl) as (Hview & _).
  repeat apply conj.
  - reflexivity.
  - reflexivity.
  - exact Hview.
  - reflexivity.
Defined.

(** X22: a second rule on [status] joins the group of the first; a rule
    sent to a group that does not exist is dropped. *)
Lemma addFilterRule_grouping_example :
  let st := stateOf statusRecords "" statusIsZ [] in
  let rule := {| rule_id := "r2"; field := "status"; operator := OpEquals;
                 value := "A" |} in
  let st' :=
    stateOf statusRecords ""
      [{| group_id := "g1";
          rules := [{| rule_id := "r1"; field := "status"; operator := OpEquals;
                       value := "Z" |}; rule] |}] [0%N] in
  addFilterRule rule None false "g2" st = Some st' /\
  In rule (allRulesOf (filterGroups st')) /\
  groupsSeparate (filterGroups st') /\
  addFilterRule rule (Some "nowhere") false "g2" st = Some st.
Proof.
  cbv zeta.
  pose proof (addFilterRule_grouping
                {| rule_id := "r2"; field := "status"; operator := OpEquals;
                   value := "A" |} "g2" (stateOf statusRecords "" statusIsZ []))
    as (Hdefault & _ & _).
  split; [reflexivity|]. split; [|split].
  - exact (proj1 (Hdefault _ eq_refl)).
  - exact (proj2 (Hdefault _ eq_refl) ltac:(cbn; intuition)).
  - reflexivity.
Defined.

(** X23: removing the only rule leaves no group. *)
Lemma removeFilterRule_effect_example :
  let st := stateOf statusRecords "" statusIsZ [] in
  let st' := stateOf statusRecords "" [] [] in
  removeFilterRule "r1" st = Some st' /\
  Forall (fun r => rule_id r <> "r1") (allRulesOf (filterGroups st')) /\
  Forall (fun g => rules g <> []) (filterGroups st').
Proof.
  cbv zeta. split; [reflexivity|].
  exact (proj2 (removeFilterRule_effect "r1"
                  (stateOf statusRecords "" statusIsZ [])
                  (stateOf statusRecords "" [] []) eq_refl)).
Defined.

(** X24: a rule on [status] added to the group of [r1] and removed
    again. *)
Lemma add_then_remove_rule_example :
  let st := stateOf statusRecords "" statusIsZ [] in
  let rule := {| rule_id := "r2"; field := "status"; operator := OpEquals;
                 value := "A" |} in
  let st1 :=
    stateOf statusRecords ""
      [{| group_id := "g1";
          rules := [{| rule_id := "r1"; field := "status"; operator := OpEquals;
                       value := "Z" |}; rule] |}] [0%N] in
  addFilterRule rule None false "g2" st = Some st1 /\
  option_map filterGroups (removeFilterRule "r2" st1) = Some statusIsZ /\
  option_map filteredIndices (removeFilterRule "r2" st1) = Some [].
Proof.
  cbv zeta. split; [reflexivity|].
  exact (add_then_remove_rule
           {| rule_id := "r2"; field := "status"; operator := OpEquals; value := "A" |}
           None false "g2" (stateOf statusRecords "" statusIsZ [])
           (stateOf statusRecords ""
              [{| group_id := "g1";
                  rules := [{| rule_id := "r1"; field := "status";
                               operator := OpEquals; value := "Z" |};
                            {| rule_id := "r2"; field := "status";
                               operator := OpEquals; value := "A" |}] |}] [0%N])
           ltac:(repeat constructor; discriminate)
           ltac:(repeat constructor; discriminate)
           eq_refl).
Defined.

(** ** The field operations of the store *)

(** X25: deleting [b] in the store and in the worker. *)
Lemma batchDeleteFields_as_worker_example :
  let records := [VObj [("a", int 1); ("b", int 2)]; VNull; VObj [("b", int 3)]] in
  let st' := batchDeleteFields ["b"] (stateOf records "" [] []) in
  exists file',
    findActive (files st') (activeFileId st') = Some file' /\
    option_map fst (applyBatch records (DeleteField ["b"])) = Some (data file') /\
    data file' = [VObj [("a", int 1)]; VNull; VObj []].
Proof.
  cbv zeta.
  destruct (batchDeleteFields_as_worker ["b"]
              (stateOf [VObj [("a", int 1); ("b", int 2)]; VNull; VObj [("b", int 3)]]
                 "" [] [])
              "f1"
              (fileOf [VObj [("a", int 1); ("b", int 2)]; VNull; VObj [("b", int 3)]])
              eq_refl eq_refl ltac:(discriminate)
              ltac:(repeat constructor; cbn; intuition discriminate)
              ltac:(repeat constructor))
    as (file' & Hfile & Hworker & Hrecords & _).
  exists file'. repeat apply conj.
  - exact Hfile.
  - exact Hworker.
  - exact Hrecords.
Defined.

(** X26: renaming [a] to [c] in [{a:1,b:2,c:3}]: in the store the value 3
    of [c] stays and the value 1 is lost, in the worker [c] holds 1. *)
Lemma batchRenameField_record_example :
  let record := [("a", int 1); ("b", int 2); ("c", int 3)] in
  renameItem "a" "c" (VObj record) = VObj [("c", int 3); ("b", int 2)] /\
  transformItem (RenameField "a" "c") (VObj record) =
    Some (VObj [("b", int 2); ("c", int 1)]) /\
  exists next,
    renameItem "a" "c" (VObj record) = VObj next /\
    obj_get next "a" = None /\
    obj_get next "c" = Some (int 3).
Proof.
  cbv zeta. split; [reflexivity|]. split; [reflexivity|].
  destruct (batchRenameField_record "a" "c" [] [("b", int 2); ("c", int 3)] (int 1)
              ltac:(distinct_keys) ltac:(discriminate) ltac:(discriminate)
              ltac:(cbn; intuition discriminate))
    as (next & Hout & Hold & _ & Hnew & _).
  exists next. repeat apply conj.
  - exact Hout.
  - exact Hold.
  - exact Hnew.
Defined.

(** X27: without its only group, and after [clearAllFilters], the view
    of the status records is the whole dataset. *)
Lemma filter_changes_keep_the_view_example :
  let st := stateOf statusRecords "" statusIsZ [] in
  let st' := stateOf statusRecords "" [] [] in
  removeFilterGroup "g1" st = Some st' /\
  getFilteredData st' = statusRecords /\
  getFilteredData (clearAllFilters st) = statusRecords.
Proof.
  cbv zeta.
  pose proof (filter_changes_keep_the_view (stateOf statusRecords "" statusIsZ [])
                (fileOf statusRecords) eq_refl) as H.
  cbv zeta in H. destruct H as (_ & _ & _ & Hgroup & Hclear).
  split; [reflexivity|]. split.
  - exact (proj2 (Hgroup "g1" (stateOf statusRecords "" [] []) eq_refl)).
  - exact Hclear.
Defined.
